(** * C-Invaders: a shallow embedding of the game loop of [main.c]

    The program is a single C file.  Its per-frame logic works on one
    [Player], three fixed arrays of nullable pointers ([enemies], [bullets],
    [particles]) and a handful of global scalars.  This development
    translates that logic into Rocq functions over an explicit [Game] state
    and proves properties of the translation.

    Conventions of the embedding
    - [float] is IEEE-754 binary32, round to nearest even, every operation
      rounded to binary32 (the usual SSE evaluation of C [float]).  It is
      the [spec_float] of the standard library at precision 24.
    - [int] and [unsigned int] are [Z] with the 32-bit wrap-around written
      out ([Int.wrap], [Int.uwrap]).
    - an array of [N] nullable pointers is a [list (option T)]; slot [i] is
      [NULL] when the list holds [None] at [i].  [malloc] is taken to
      succeed, so a freshly allocated slot is always [Some _].
    - [rand()] is an oracle [rng : nat -> Z] together with the number of
      calls made so far; the keyboard is a record of three booleans.
    - sound playback, logging and rendering have no effect on the game
      state and are left out, except that the two "hit" branches of the
      collision code are recorded in a ghost list of [Hit]s. *)

From Stdlib Require Import ZArith Bool List Lia.
From Stdlib Require Import Floats.SpecFloat.
From stdpp Require Import base list.

Local Open Scope Z_scope.

(** ** Machine integers *)

Module Int.

Definition INT_MIN : Z := - 2 ^ 31.
Definition INT_MAX : Z := 2 ^ 31 - 1.

(** two's complement reduction to 32 bits, signed *)
Definition wrap (z : Z) : Z := (z + 2 ^ 31) mod 2 ^ 32 - 2 ^ 31.

(** reduction to 32 bits, unsigned *)
Definition uwrap (z : Z) : Z := z mod 2 ^ 32.

Definition add (a b : Z) : Z := wrap (a + b).
Definition sub (a b : Z) : Z := wrap (a - b).
Definition mul (a b : Z) : Z := wrap (a * b).
Definition neg (a : Z) : Z := wrap (- a).

Definition in_range (z : Z) : Prop := INT_MIN <= z <= INT_MAX.

End Int.

(** ** Single-precision floats *)

Module F32.

Definition prec : Z := 24.
Definition emax : Z := 128.

Definition float : Type := spec_float.

Definition add : float -> float -> float := SFadd prec emax.
Definition sub : float -> float -> float := SFsub prec emax.
Definition mul : float -> float -> float := SFmul prec emax.
Definition div : float -> float -> float := SFdiv prec emax.
Definition ltb : float -> float -> bool := SFltb.
Definition leb : float -> float -> bool := SFleb.

(** conversion of an integer to [float] (correctly rounded) *)
Definition of_Z (z : Z) : float := binary_normalize prec emax z 0 false.

(** the decimal literal [n/d] written in the source, e.g. [0.05f] is
    [lit 1 20]: the binary32 number nearest to the quotient *)
Definition lit (n d : Z) : float := div (of_Z n) (of_Z d).

(** the cast [(int)x]: truncation toward zero.  Where C leaves the cast
    undefined (NaN, infinities, values outside [int]) the model returns
    the x86 "integer indefinite" value [INT_MIN]. *)
Definition to_int (x : float) : Z :=
  match x with
  | S754_zero _ => 0
  | S754_finite s m e =>
      let a := Z.shiftl (Zpos m) e in
      let v := if s then - a else a in
      if (Int.INT_MIN <=? v) && (v <=? Int.INT_MAX) then v else Int.INT_MIN
  | _ => Int.INT_MIN
  end.

(** the [max] macro of the platform headers: [((a) > (b)) ? (a) : (b)] *)
Definition max (a b : float) : float := if ltb b a then a else b.

End F32.

Abbreviation float := F32.float.

Declare Scope f32_scope.
Delimit Scope f32_scope with f32.
Infix "+" := F32.add : f32_scope.
Infix "-" := F32.sub : f32_scope.
Infix "*" := F32.mul : f32_scope.
Infix "<?" := F32.ltb : f32_scope.
Infix "<=?" := F32.leb : f32_scope.

(** ** Constants of the program *)

Definition WINDOW_WIDTH : Z := 640.
Definition WINDOW_HEIGHT : Z := 480.

Definition MAX_ENEMIES : nat := 55.
Definition MAX_PROJECTILES : nat := 20.
Definition MAX_PARTICLES : nat := 20.

Definition PLAYER_SPEED : Z := 200.
Definition ENEMY_SPEED : Z := 20.
Definition BULLET_SPEED : Z := 275.

Definition PLAYER_WIDTH : Z := 20.
Definition PLAYER_HEIGHT : Z := 20.
Definition ENEMY_WIDTH : Z := 30.
Definition ENEMY_HEIGHT : Z := 30.
Definition BULLET_WIDTH : Z := 10.
Definition BULLET_HEIGHT : Z := 15.

(** ** Structs *)

Module Enemy.
Record t : Type := mk
  { px : float; py : float; killReward : Z; shootTimer : float }.
Definition set_px (e : t) (v : float) : t :=
  mk v (py e) (killReward e) (shootTimer e).
Definition set_py (e : t) (v : float) : t :=
  mk (px e) v (killReward e) (shootTimer e).
Definition set_shootTimer (e : t) (v : float) : t :=
  mk (px e) (py e) (killReward e) v.
End Enemy.

Module Player.
Record t : Type := mk
  { px : float; py : float; score : Z; hiScore : Z;
    livesLeft : Z; shootTimer : float }.
Definition set_px (p : t) (v : float) : t :=
  mk v (py p) (score p) (hiScore p) (livesLeft p) (shootTimer p).
Definition set_py (p : t) (v : float) : t :=
  mk (px p) v (score p) (hiScore p) (livesLeft p) (shootTimer p).
Definition set_score (p : t) (v : Z) : t :=
  mk (px p) (py p) v (hiScore p) (livesLeft p) (shootTimer p).
Definition set_hiScore (p : t) (v : Z) : t :=
  mk (px p) (py p) (score p) v (livesLeft p) (shootTimer p).
Definition set_livesLeft (p : t) (v : Z) : t :=
  mk (px p) (py p) (score p) (hiScore p) v (shootTimer p).
Definition set_shootTimer (p : t) (v : float) : t :=
  mk (px p) (py p) (score p) (hiScore p) (livesLeft p) v.
End Player.

Module Bullet.
Record t : Type := mk { px : float; py : float; vy : Z }.
Definition set_py (b : t) (v : float) : t := mk (px b) v (vy b).
End Bullet.

Inductive ParticleTypes : Type := BULLET_EXPLOSION | SHIP_EXPLOSION.

Module Particle.
Record t : Type := mk
  { px : float; py : float; lifetime : float; particleType : ParticleTypes }.
Definition set_lifetime (p : t) (v : float) : t :=
  mk (px p) (py p) v (particleType p).
End Particle.

(** the keys read by the program through [SDL_GetKeyboardState] *)
Record Keys : Type := mkKeys
  { SCANCODE_RIGHT : bool; SCANCODE_LEFT : bool; SCANCODE_SPACE : bool }.

(** ** Rectangles (SDL2's [SDL_Rect] and [SDL_HasIntersection]) *)

Record SDL_Rect : Type := mkRect { x : Z; y : Z; w : Z; h : Z }.

Definition SDL_RectEmpty (r : SDL_Rect) : bool := (w r <=? 0) || (h r <=? 0).

(** one axis of [SDL_HasIntersection]: the intervals [[amin, amin+alen)] and
    [[bmin, bmin+blen)] meet *)
Definition axis_meets (amin alen bmin blen : Z) : bool :=
  let amax := Int.add amin alen in
  let bmax := Int.add bmin blen in
  let amin' := if amin <? bmin then bmin else amin in
  let amax' := if bmax <? amax then bmax else amax in
  negb (amax' <=? amin').

Definition SDL_HasIntersection (A B : SDL_Rect) : bool :=
  if SDL_RectEmpty A || SDL_RectEmpty B then false
  else axis_meets (x A) (w A) (x B) (w B) && axis_meets (y A) (h A) (y B) (h B).

(** ** Global state *)

Abbreviation pool A := (list (option A)).

Record Game : Type := mkGame
  { player : Player.t;
    enemies : pool Enemy.t;
    bullets : pool Bullet.t;
    particles : pool Particle.t;
    ENEMY_SPEED_MULT : float;
    enemyDir : Z;
    currentWave : Z;
    gameOver : bool;
    playGame : bool;
    rand_calls : nat }.

Definition set_player (g : Game) (v : Player.t) : Game :=
  mkGame v (enemies g) (bullets g) (particles g) (ENEMY_SPEED_MULT g)
    (enemyDir g) (currentWave g) (gameOver g) (playGame g) (rand_calls g).
Definition set_enemies (g : Game) (v : pool Enemy.t) : Game :=
  mkGame (player g) v (bullets g) (particles g) (ENEMY_SPEED_MULT g)
    (enemyDir g) (currentWave g) (gameOver g) (playGame g) (rand_calls g).
Definition set_bullets (g : Game) (v : pool Bullet.t) : Game :=
  mkGame (player g) (enemies g) v (particles g) (ENEMY_SPEED_MULT g)
    (enemyDir g) (currentWave g) (gameOver g) (playGame g) (rand_calls g).
Definition set_particles (g : Game) (v : pool Particle.t) : Game :=
  mkGame (player g) (enemies g) (bullets g) v (ENEMY_SPEED_MULT g)
    (enemyDir g) (currentWave g) (gameOver g) (playGame g) (rand_calls g).
Definition set_ENEMY_SPEED_MULT (g : Game) (v : float) : Game :=
  mkGame (player g) (enemies g) (bullets g) (particles g) v
    (enemyDir g) (currentWave g) (gameOver g) (playGame g) (rand_calls g).
Definition set_enemyDir (g : Game) (v : Z) : Game :=
  mkGame (player g) (enemies g) (bullets g) (particles g) (ENEMY_SPEED_MULT g)
    v (currentWave g) (gameOver g) (playGame g) (rand_calls g).
Definition set_currentWave (g : Game) (v : Z) : Game :=
  mkGame (player g) (enemies g) (bullets g) (particles g) (ENEMY_SPEED_MULT g)
    (enemyDir g) v (gameOver g) (playGame g) (rand_calls g).
Definition set_gameOver (g : Game) (v : bool) : Game :=
  mkGame (player g) (enemies g) (bullets g) (particles g) (ENEMY_SPEED_MULT g)
    (enemyDir g) (currentWave g) v (playGame g) (rand_calls g).
Definition set_playGame (g : Game) (v : bool) : Game :=
  mkGame (player g) (enemies g) (bullets g) (particles g) (ENEMY_SPEED_MULT g)
    (enemyDir g) (currentWave g) (gameOver g) v (rand_calls g).
Definition set_rand_calls (g : Game) (v : nat) : Game :=
  mkGame (player g) (enemies g) (bullets g) (particles g) (ENEMY_SPEED_MULT g)
    (enemyDir g) (currentWave g) (gameOver g) (playGame g) v.

(** ** Loops over the slots of an array *)

(** [for (unsigned int i = 0; i < n; i++) body] without [break] *)
Definition for_each {St : Type} (n : nat) (body : nat -> St -> St) (s : St) : St :=
  fold_left (fun acc i => body i acc) (seq 0 n) s.

(** the allocation loop shared by [createBullet] and [createParticle]:
    [for i in idxs: if (slots[i] == NULL) { slots[i] = malloc; *slots[i] = v; break; }] *)
Fixpoint install_first_null {A : Type} (idxs : list nat) (v : A) (slots : pool A)
  : pool A :=
  match idxs with
  | [] => slots
  | i :: rest =>
      match slots !! i with
      | Some None => <[i := Some v]> slots
      | _ => install_first_null rest v slots
      end
  end.

(** [free(slots[i]); slots[i] = NULL;] for every [i < n] *)
Definition free_all {A : Type} (n : nat) (slots : pool A) : pool A :=
  for_each n (fun i sl => <[i := None]> sl) slots.

(** ** Player *)

(** [createPlayer]: every field of the player is overwritten *)
Definition createPlayer (p : Player.t) : Player.t :=
  let p := Player.set_px p (F32.of_Z (WINDOW_WIDTH ÷ 2)) in
  let p := Player.set_py p (F32.of_Z (WINDOW_HEIGHT - WINDOW_HEIGHT ÷ 14)) in
  let p := Player.set_score p 0 in
  let p := Player.set_hiScore p 0 in
  let p := Player.set_livesLeft p 3 in
  Player.set_shootTimer p (F32.of_Z 0).

(** ** Bullets and particles *)

Definition createBullet (px py dir : Z) (bl : pool Bullet.t) : pool Bullet.t :=
  let '(w_offset, h_offset) :=
    if dir =? -1 then (PLAYER_WIDTH ÷ 2, PLAYER_HEIGHT ÷ 2)
    else if dir =? 1 then (ENEMY_WIDTH ÷ 2, ENEMY_HEIGHT ÷ 2)
    else (0, 0) in
  install_first_null (seq 0 MAX_PROJECTILES)
    (Bullet.mk (F32.of_Z px + F32.of_Z w_offset)%f32
               (F32.of_Z py + F32.of_Z h_offset)%f32 dir) bl.

Definition createParticle (particle : Particle.t) (pl : pool Particle.t)
  : pool Particle.t :=
  install_first_null (seq 0 MAX_PARTICLES)
    (Particle.mk (Particle.px particle) (Particle.py particle)
       (Particle.lifetime particle) (Particle.particleType particle)) pl.

Definition updateBullets_body (delta : float) (i : nat) (g : Game) : Game :=
  match bullets g !! i with
  | Some (Some b) =>
      let b := Bullet.set_py b
        (Bullet.py b
         + F32.of_Z (Bullet.vy b) * F32.of_Z BULLET_SPEED * delta)%f32 in
      let g := set_bullets g (<[i := Some b]> (bullets g)) in
      if (Bullet.py b <? F32.of_Z 0)%f32
         || (F32.of_Z (Int.uwrap (WINDOW_HEIGHT - BULLET_HEIGHT)) <? Bullet.py b)%f32
      then
        let particle :=
          Particle.mk (Bullet.px b) (Bullet.py b) (F32.lit 1 2) BULLET_EXPLOSION in
        let g := set_particles g (createParticle particle (particles g)) in
        set_bullets g (<[i := None]> (bullets g))
      else g
  | _ => g
  end.

Definition updateBullets (delta : float) (g : Game) : Game :=
  for_each MAX_PROJECTILES (updateBullets_body delta) g.

Definition updateParticles_body (delta : float) (i : nat) (pl : pool Particle.t)
  : pool Particle.t :=
  match pl !! i with
  | Some (Some p) =>
      let p := Particle.set_lifetime p (Particle.lifetime p - delta)%f32 in
      if (Particle.lifetime p <=? F32.of_Z 0)%f32
      then <[i := None]> pl
      else <[i := Some p]> pl
  | _ => pl
  end.

Definition updateParticles (delta : float) (g : Game) : Game :=
  set_particles g (for_each MAX_PARTICLES (updateParticles_body delta) (particles g)).

Definition updatePlayer (keys : Keys) (delta : float) (g : Game) : Game :=
  let g :=
    if SCANCODE_RIGHT keys then
      set_player g (Player.set_px (player g)
        (Player.px (player g) + F32.of_Z PLAYER_SPEED * delta)%f32)
    else g in
  let g :=
    if SCANCODE_LEFT keys then
      set_player g (Player.set_px (player g)
        (Player.px (player g) - F32.of_Z PLAYER_SPEED * delta)%f32)
    else g in
  let g :=
    if SCANCODE_SPACE keys then
      if (Player.shootTimer (player g) <=? F32.of_Z 0)%f32 then
        let g := set_bullets g
          (createBullet (F32.to_int (Player.px (player g)))
             (F32.to_int (Player.py (player g))) (-1) (bullets g)) in
        set_player g (Player.set_shootTimer (player g) (F32.of_Z 1))
      else g
    else g in
  set_player g (Player.set_shootTimer (player g)
    (Player.shootTimer (player g) - delta)%f32).

(** ** Enemies *)

(** the enemy written into slot [i] by [createEnemies] *)
Definition new_enemy (wave : Z) (i : nat) : Enemy.t :=
  let px := Z.of_nat i mod 11 in
  let py := Z.of_nat i / 11 in
  Enemy.mk
    (F32.of_Z px * F32.of_Z ENEMY_WIDTH + F32.lit 10 1 * F32.of_Z px + F32.of_Z 100)%f32
    (F32.of_Z py * F32.of_Z ENEMY_HEIGHT + F32.lit 10 1 * F32.of_Z py + F32.of_Z 100)%f32
    (Int.mul 10 wave)
    (F32.max (F32.lit 1 5) (F32.of_Z 1 - F32.lit 1 20 * F32.of_Z wave)%f32).

Definition createEnemies (g : Game) : Game :=
  set_enemies g
    (for_each MAX_ENEMIES
       (fun i en => <[i := Some (new_enemy (currentWave g) i)]> en) (enemies g)).

Definition freeEnemies (g : Game) : Game :=
  set_enemies g (free_all MAX_ENEMIES (enemies g)).
Definition freeBullets (g : Game) : Game :=
  set_bullets g (free_all MAX_PROJECTILES (bullets g)).
Definition freeParticles (g : Game) : Game :=
  set_particles g (free_all MAX_PARTICLES (particles g)).

(** first loop of [updateEnemies]: horizontal move and "too low" test *)
Definition move_body (delta : float) (i : nat) (g : Game) : Game :=
  match enemies g !! i with
  | Some (Some e) =>
      let step := (F32.of_Z ENEMY_SPEED * ENEMY_SPEED_MULT g * delta)%f32 in
      let e :=
        if enemyDir g =? 1
        then Enemy.set_px e (Enemy.px e + step)%f32
        else Enemy.set_px e (Enemy.px e - step)%f32 in
      let g := set_enemies g (<[i := Some e]> (enemies g)) in
      if (F32.of_Z (Int.uwrap (Int.uwrap (WINDOW_HEIGHT - Int.uwrap (PLAYER_HEIGHT * 2))
                                 - ENEMY_HEIGHT)) <? Enemy.py e)%f32
      then set_gameOver g true
      else g
  | _ => g
  end.

(** the inner loop run when the formation turns: every live enemy goes
    down by [ENEMY_HEIGHT / 4], a division of unsigned integers *)
Definition descend_body (i : nat) (en : pool Enemy.t) : pool Enemy.t :=
  match en !! i with
  | Some (Some e) =>
      <[i := Some (Enemy.set_py e (Enemy.py e + F32.of_Z (ENEMY_HEIGHT / 4))%f32)]> en
  | _ => en
  end.

Definition turn (g : Game) : Game :=
  let g := set_enemyDir g (Int.neg (enemyDir g)) in
  let g := set_enemies g (for_each MAX_ENEMIES descend_body (enemies g)) in
  set_ENEMY_SPEED_MULT g (ENEMY_SPEED_MULT g + F32.lit 1 40)%f32.

(** the edge test [px < 0 + ENEMY_WIDTH || px > WINDOW_WIDTH - 2 * ENEMY_WIDTH] *)
Definition at_edge (e : Enemy.t) : bool :=
  (Enemy.px e <? F32.of_Z (Int.uwrap (0 + ENEMY_WIDTH)))%f32
  || (F32.of_Z (Int.uwrap (WINDOW_WIDTH - Int.uwrap (2 * ENEMY_WIDTH))) <? Enemy.px e)%f32.

(** second loop of [updateEnemies]; [break] is the return without recursion *)
Fixpoint edge_scan (idxs : list nat) (g : Game) : Game :=
  match idxs with
  | [] => g
  | i :: rest =>
      match enemies g !! i with
      | Some (Some e) => if at_edge e then turn g else edge_scan rest g
      | _ => edge_scan rest g
      end
  end.

(** the state after the first loop of [updateEnemies] *)
Definition move_phase (delta : float) (g : Game) : Game :=
  for_each MAX_ENEMIES (move_body delta) g.

Definition updateEnemies (delta : float) (g : Game) : Game :=
  edge_scan (seq 0 MAX_ENEMIES) (move_phase delta g).

(** ** Enemy shooting *)

(** the local variables of [enemyShoot] together with the globals *)
Record ShootState : Type := mkShoot
  { sh_index : Z; sh_found : list Z; sh_game : Game }.

(** [slots[index]] for an [int] index *)
Definition slot_at {A : Type} (slots : pool A) (index : Z) : option (option A) :=
  if index <? 0 then None else slots !! Z.to_nat index.

Section Shooting.

(** the sequence of values returned by [rand()] *)
Variable rng : nat -> Z.

(** body of the inner loop of [enemyShoot], without the final [index--] *)
Definition shoot_body (delta : float) (j : nat) (st : ShootState) : ShootState :=
  let index := sh_index st in
  let g := sh_game st in
  match slot_at (enemies g) index, sh_found st !! j with
  | Some (Some e), Some f =>
      if negb (f =? 1) then
        let found := <[j := 1]> (sh_found st) in
        let r := rng (rand_calls g) in
        let g := set_rand_calls g (S (rand_calls g)) in
        let '(e, g) :=
          if (Z.rem r 5000 <? 10) && (Enemy.shootTimer e <=? F32.of_Z 0)%f32 then
            let g := set_bullets g
              (createBullet (F32.to_int (Enemy.px e)) (F32.to_int (Enemy.py e)) 1
                 (bullets g)) in
            (Enemy.set_shootTimer e (F32.of_Z 1), g)
          else (e, g) in
        let e := Enemy.set_shootTimer e (Enemy.shootTimer e - delta)%f32 in
        let g := set_enemies g (<[Z.to_nat index := Some e]> (enemies g)) in
        mkShoot index found g
      else st
  | _, _ => st
  end.

Definition shoot_inner (delta : float) (j : nat) (st : ShootState) : ShootState :=
  let st := shoot_body delta j st in
  mkShoot (Int.sub (sh_index st) 1) (sh_found st) (sh_game st).

Definition enemyShoot (delta : float) (g : Game) : Game :=
  sh_game
    (for_each 5 (fun _ st => for_each 11 (shoot_inner delta) st)
       (mkShoot (Z.of_nat MAX_ENEMIES - 1) (replicate 11 0) g)).

End Shooting.

(** ** Collisions *)

(** which branch of [checkBulletCollisions] was taken, for which slots *)
Inductive Hit : Type :=
| EnemyHit (bullet enemy : nat)
| PlayerHit (bullet : nat).

Definition playerRect_of (p : Player.t) : SDL_Rect :=
  mkRect (F32.to_int (Player.px p)) (F32.to_int (Player.py p))
    PLAYER_WIDTH PLAYER_HEIGHT.
Definition bulletRect_of (b : Bullet.t) : SDL_Rect :=
  mkRect (F32.to_int (Bullet.px b)) (F32.to_int (Bullet.py b))
    BULLET_WIDTH BULLET_HEIGHT.
Definition enemyRect_of (e : Enemy.t) : SDL_Rect :=
  mkRect (F32.to_int (Enemy.px e)) (F32.to_int (Enemy.py e))
    ENEMY_WIDTH ENEMY_HEIGHT.

(** the test of bullet [i] against enemy [j] (body of the loop over [j]) *)
Definition enemy_test (bulletRect : SDL_Rect) (i j : nat) (gh : Game * list Hit)
  : Game * list Hit :=
  let '(g, hits) := gh in
  match enemies g !! j with
  | Some (Some e) =>
      let enemyRect := enemyRect_of e in
      match bullets g !! i with
      | Some (Some b) =>
          if SDL_HasIntersection bulletRect enemyRect && negb (Bullet.vy b =? 1) then
            let g := set_player g
              (Player.set_score (player g)
                 (Int.add (Player.score (player g)) (Enemy.killReward e))) in
            let particle :=
              Particle.mk (F32.of_Z (x enemyRect)) (F32.of_Z (y enemyRect))
                (F32.lit 1 2) SHIP_EXPLOSION in
            let g := set_particles g (createParticle particle (particles g)) in
            let g := set_enemies g (<[j := None]> (enemies g)) in
            let g := set_bullets g (<[i := None]> (bullets g)) in
            (g, hits ++ [EnemyHit i j])
          else gh
      | _ => gh
      end
  | _ => gh
  end.

(** the test of bullet [i] against the player, after the loop over enemies *)
Definition player_test (playerRect bulletRect : SDL_Rect) (i : nat)
  (gh : Game * list Hit) : Game * list Hit :=
  let '(g, hits) := gh in
  match bullets g !! i with
  | Some (Some b) =>
      if SDL_HasIntersection bulletRect playerRect && negb (Bullet.vy b =? -1) then
        let particle :=
          Particle.mk (Bullet.px b) (Bullet.py b) (F32.lit 1 2) SHIP_EXPLOSION in
        let g := set_particles g (createParticle particle (particles g)) in
        let g := set_bullets g (<[i := None]> (bullets g)) in
        let g := set_player g
          (Player.set_livesLeft (player g)
             (Int.sub (Player.livesLeft (player g)) 1)) in
        let g := if Player.livesLeft (player g) <=? 0 then set_gameOver g true else g in
        let g := set_player g
          (Player.set_px (player g) (F32.of_Z (WINDOW_WIDTH ÷ 2))) in
        let g := set_player g
          (Player.set_py (player g)
             (F32.of_Z (WINDOW_HEIGHT - WINDOW_HEIGHT ÷ 14))) in
        (g, hits ++ [PlayerHit i])
      else gh
  | _ => gh
  end.

(** body of the loop over the bullet slots *)
Definition bullet_step (playerRect : SDL_Rect) (i : nat) (gh : Game * list Hit)
  : Game * list Hit :=
  match bullets (fst gh) !! i with
  | Some (Some b) =>
      let bulletRect := bulletRect_of b in
      player_test playerRect bulletRect i
        (for_each MAX_ENEMIES (enemy_test bulletRect i) gh)
  | _ => gh
  end.

(** [checkBulletCollisions] with the list of hits it registered *)
Definition collide (g : Game) : Game * list Hit :=
  let playerRect := playerRect_of (player g) in
  for_each MAX_PROJECTILES (bullet_step playerRect) (g, []).

Definition checkBulletCollisions (g : Game) : Game := fst (collide g).
Definition hits_of (g : Game) : list Hit := snd (collide g).

(** ** Game state *)

(** first [if] of [checkGameState] *)
Definition game_over_branch (g : Game) : Game :=
  if gameOver g then
    let tempScore := Player.hiScore (player g) in
    let tempScore :=
      if Player.score (player g) >? Player.hiScore (player g)
      then Player.score (player g) else tempScore in
    let g := set_player g (createPlayer (player g)) in
    let g := set_player g (Player.set_hiScore (player g) tempScore) in
    let g := freeEnemies g in
    let g := freeBullets g in
    let g := createEnemies g in
    set_gameOver g false
  else g.

(** the loop computing [spawnNextWave] *)
Definition no_enemy_left (en : pool Enemy.t) : bool :=
  for_each MAX_ENEMIES
    (fun i spawnNextWave =>
       match en !! i with Some (Some _) => false | _ => spawnNextWave end) true.

(** second part of [checkGameState] *)
Definition wave_clear_branch (g : Game) : Game :=
  if no_enemy_left (enemies g) then
    let g := set_currentWave g (Int.add (currentWave g) 1) in
    let g := freeEnemies g in
    let g := createEnemies g in
    set_player g (Player.set_livesLeft (player g) 3)
  else g.

Definition checkGameState (g : Game) : Game :=
  wave_clear_branch (game_over_branch g).

(** ** The frame *)

Definition checkGameStart (keys : Keys) (g : Game) : Game :=
  if SCANCODE_SPACE keys then set_playGame g true else g.

Definition update (rng : nat -> Z) (keys : Keys) (delta : float) (g : Game) : Game :=
  if playGame g then
    let g := updatePlayer keys delta g in
    let g := updateBullets delta g in
    let g := updateEnemies delta g in
    let g := updateParticles delta g in
    let g := enemyShoot rng delta g in
    let g := checkBulletCollisions g in
    checkGameState g
  else checkGameStart keys g.

(** the globals as the C initialisers leave them *)
Definition globals : Game :=
  mkGame
    (Player.mk (F32.of_Z 0) (F32.of_Z 0) 0 0 0 (F32.of_Z 0))
    (replicate MAX_ENEMIES None)
    (replicate MAX_PROJECTILES None)
    (replicate MAX_PARTICLES None)
    (F32.of_Z 1) 1 1 false false 0.

(** state after [init]: [createPlayer(&player); createEnemies();] *)
Definition init : Game :=
  createEnemies (set_player globals (createPlayer (player globals))).

(** the states the program can be in at the start of a frame *)
Inductive reachable (rng : nat -> Z) : Game -> Prop :=
| reach_init : reachable rng init
| reach_frame (keys : Keys) (delta : float) (g : Game) :
    reachable rng g -> reachable rng (update rng keys delta g).

(** number of occupied slots *)
Definition live_count {A : Type} (slots : pool A) : nat :=
  length (filter (fun s => is_Some s) slots).

(** the arrays have their declared sizes *)
Definition wf (g : Game) : Prop :=
  length (enemies g) = MAX_ENEMIES
  /\ length (bullets g) = MAX_PROJECTILES
  /\ length (particles g) = MAX_PARTICLES.

(** a loop body that rewrites slot [i] from its own content only *)
Definition slotwise {A : Type} (F : nat -> option A -> option A) (i : nat)
  (sl : pool A) : pool A :=
  match sl !! i with
  | Some s => <[i := F i s]> sl
  | None => sl
  end.

(** what the first loop of [updateEnemies] does to one enemy *)
Definition moved_enemy (delta : float) (g : Game) (e : Enemy.t) : Enemy.t :=
  let step := (F32.of_Z ENEMY_SPEED * ENEMY_SPEED_MULT g * delta)%f32 in
  if enemyDir g =? 1
  then Enemy.set_px e (Enemy.px e + step)%f32
  else Enemy.set_px e (Enemy.px e - step)%f32.

(** ** Definitions used in the statements and proofs *)

(** the enemy of the grid formula for slot [i] of wave [w] *)
Definition grid_enemy (w : Z) (i : nat) : Enemy.t :=
  Enemy.mk
    (F32.of_Z (Z.of_nat (i mod 11) * (ENEMY_WIDTH + 10) + 100))
    (F32.of_Z (Z.of_nat (i / 11) * (ENEMY_HEIGHT + 10) + 100))
    (10 * w)
    (F32.max (F32.lit 1 5) (F32.of_Z 1 - F32.lit 1 20 * F32.of_Z w)%f32).

(** the scenario of the specification: game over with score 150 and high
    score 200, on the board of the first wave with two bullets in flight *)
Definition game_over_scenario : Game :=
  let g := set_playGame init true in
  let g := set_player g
    (Player.mk (F32.of_Z 37) (F32.of_Z 446) 150 200 0 (F32.lit 1 2)) in
  let g := set_bullets g
    (<[3%nat := Some (Bullet.mk (F32.of_Z 50) (F32.of_Z 60) 1)]>
       (<[0%nat := Some (Bullet.mk (F32.of_Z 10) (F32.of_Z 20) (-1))]> (bullets g))) in
  set_gameOver g true.

(** the board of the first wave after its last enemy has been shot *)
Definition cleared_board : Game :=
  set_player (set_playGame globals true)
    (Player.mk (F32.of_Z 123) (F32.of_Z 446) 550 700 1 (F32.lit 1 2)).

(** game over on a board without enemies: both conditions hold on entry *)
Definition game_over_on_cleared_board : Game := set_gameOver cleared_board true.

(** the scenario of the specification: the first enemy of the first wave
    stands at x = 29 while the formation moves left *)
Definition edge_scenario : Game :=
  let g := set_playGame init true in
  let g := set_enemies g
    (<[0%nat := Some (Enemy.mk (F32.of_Z 29) (F32.of_Z 100) 10 (F32.lit 95 100))]>
       (enemies g)) in
  set_enemyDir g (-1).

(** the three arrays of [g'] have the lengths of those of [g] *)
Definition same_shape (g g' : Game) : Prop :=
  length (enemies g') = length (enemies g)
  /\ length (bullets g') = length (bullets g)
  /\ length (particles g') = length (particles g).

(** the bullet written by [createBullet] *)
Definition new_bullet (px py dir : Z) : Bullet.t :=
  let w_offset :=
    if dir =? -1 then PLAYER_WIDTH ÷ 2 else if dir =? 1 then ENEMY_WIDTH ÷ 2 else 0 in
  let h_offset :=
    if dir =? -1 then PLAYER_HEIGHT ÷ 2 else if dir =? 1 then ENEMY_HEIGHT ÷ 2 else 0 in
  Bullet.mk (F32.of_Z px + F32.of_Z w_offset)%f32
            (F32.of_Z py + F32.of_Z h_offset)%f32 dir.

(** slot [k] holds an enemy *)
Definition live_at (en : pool Enemy.t) (k : nat) : bool :=
  match en !! k with Some (Some _) => true | _ => false end.

(** the value of [j] at which the scan of [enemyShoot] visits slot [k] *)
Definition scan_pos (k : nat) : nat := ((54 - k) mod 11)%nat.

(** a live enemy with a higher index is met earlier at the same scan position *)
Definition shadowed (en : pool Enemy.t) (k : nat) : bool :=
  existsb (fun k' => (k <? k')%nat && (scan_pos k' =? scan_pos k)%nat && live_at en k')
    (seq 0 MAX_ENEMIES).

(** the first live enemy met at its scan position *)
Definition front (en : pool Enemy.t) (k : nat) : bool :=
  (k <? MAX_ENEMIES)%nat && live_at en k && negb (shadowed en k).

(** the loop invariant of [enemyShoot] after [t] of the 55 visits, [g] being
    the state on entry *)
Definition shoot_inv (delta : float) (g : Game) (t : nat) (st : ShootState) : Prop :=
  sh_index st = 54 - Z.of_nat t
  /\ length (sh_found st) = 11%nat
  /\ (forall j f, sh_found st !! j = Some f ->
        (f = 1 <-> exists k, (55 <= k + t)%nat /\ (k < 55)%nat
                             /\ scan_pos k = j /\ live_at (enemies g) k = true))
  /\ (forall k, (k + t < 55)%nat -> enemies (sh_game st) !! k = enemies g !! k)
  /\ (forall k, front (enemies g) k = false ->
        enemies (sh_game st) !! k = enemies g !! k)
  /\ (forall k e, (55 <= k + t)%nat -> front (enemies g) k = true ->
        enemies g !! k = Some (Some e) ->
        exists t', enemies (sh_game st) !! k = Some (Some (Enemy.set_shootTimer e t'))
          /\ (t' = (Enemy.shootTimer e - delta)%f32
              \/ t' = (F32.of_Z 1 - delta)%f32)).

(** what holds of the state and the registered hits at any point of
    [checkBulletCollisions], [g] being the state on entry *)
Definition collide_inv (g : Game) (gh : Game * list Hit) : Prop :=
  (forall k b, bullets (fst gh) !! k = Some (Some b) ->
     bullets g !! k = Some (Some b))
  /\ (forall i j, EnemyHit i j ∈ snd gh ->
        exists b, bullets g !! i = Some (Some b) /\ Bullet.vy b <> 1)
  /\ (forall i, PlayerHit i ∈ snd gh ->
        exists b, bullets g !! i = Some (Some b) /\ Bullet.vy b <> -1)
  /\ ((forall i, PlayerHit i ∉ snd gh) ->
        Player.livesLeft (player (fst gh)) = Player.livesLeft (player g)
        /\ Player.px (player (fst gh)) = Player.px (player g)
        /\ Player.py (player (fst gh)) = Player.py (player g)
        /\ gameOver (fst gh) = gameOver g)
  /\ ((forall i j, EnemyHit i j ∉ snd gh) ->
        enemies (fst gh) = enemies g
        /\ Player.score (player (fst gh)) = Player.score (player g))
  /\ ((exists i, PlayerHit i ∈ snd gh) ->
        Player.px (player (fst gh)) = F32.of_Z 320
        /\ Player.py (player (fst gh)) = F32.of_Z 446).

(** the scenario of the specification: one life left and an enemy bullet in
    slot 0 overlapping the player *)
Definition last_life_scenario : Game :=
  let g := set_playGame init true in
  let g := set_player g
    (Player.mk (F32.of_Z 200) (F32.of_Z 446) 70 90 1 (F32.lit 1 2)) in
  set_bullets g
    (<[0%nat := Some (Bullet.mk (F32.of_Z 205) (F32.of_Z 440) 1)]> (bullets g)).

(** the state on which [checkBulletCollisions] runs in a frame *)
Definition before_collisions (rng : nat -> Z) (keys : Keys) (delta : float)
  (g : Game) : Game :=
  enemyShoot rng delta
    (updateParticles delta
       (updateEnemies delta (updateBullets delta (updatePlayer keys delta g)))).

(** holding the right key for [n] frames of 0.25 s *)
Definition hold_right (n : nat) (g : Game) : Game :=
  Nat.iter n (update (fun _ => 100) (mkKeys true false false) (F32.lit 1 4)) g.

(** a full bullet array, and the same array after slot 2 was released *)
Definition busy_bullets : pool Bullet.t :=
  replicate MAX_PROJECTILES (Some (Bullet.mk (F32.of_Z 5) (F32.of_Z 50) 1)).

(** every occupied slot satisfies [Q] *)
Definition pool_all {A : Type} (Q : A -> Prop) (sl : pool A) : Prop :=
  forall i x, sl !! i = Some (Some x) -> Q x.

(** [sl'] is [sl] with some [NULL] slots filled by values satisfying [Q];
    no occupied slot is touched *)
Definition grows_by {A : Type} (Q : A -> Prop) (sl sl' : pool A) : Prop :=
  forall i, sl' !! i = sl !! i
            \/ (sl !! i = Some None /\ exists x, sl' !! i = Some (Some x) /\ Q x).

(** the two directions the program creates bullets with *)
Definition vertical (b : Bullet.t) : Prop :=
  Bullet.vy b = 1 \/ Bullet.vy b = -1.

(** the bullet after the move of [updateBullets] *)
Definition flown (delta : float) (b : Bullet.t) : Bullet.t :=
  Bullet.set_py b
    (Bullet.py b + F32.of_Z (Bullet.vy b) * F32.of_Z BULLET_SPEED * delta)%f32.

(** the test [py < 0 || py > WINDOW_HEIGHT - BULLET_HEIGHT] of [updateBullets] *)
Definition off_screen (b : Bullet.t) : bool :=
  (Bullet.py b <? F32.of_Z 0)%f32
  || (F32.of_Z (Int.uwrap (WINDOW_HEIGHT - BULLET_HEIGHT)) <? Bullet.py b)%f32.

(** what [updateBullets] leaves in the slot of a bullet *)
Definition flown_slot (delta : float) (s : option Bullet.t) : option Bullet.t :=
  match s with
  | Some b => if off_screen (flown delta b) then None else Some (flown delta b)
  | None => None
  end.

(** what [updateParticles] leaves in the slot of a particle *)
Definition aged_slot (delta : float) (s : option Particle.t) : option Particle.t :=
  match s with
  | Some p =>
      if ((Particle.lifetime p - delta)%f32 <=? F32.of_Z 0)%f32 then None
      else Some (Particle.set_lifetime p (Particle.lifetime p - delta)%f32)
  | None => None
  end.

(** the test [py > WINDOW_HEIGHT - PLAYER_HEIGHT * 2 - ENEMY_HEIGHT] of
    [updateEnemies] *)
Definition too_low (e : Enemy.t) : bool :=
  (F32.of_Z (Int.uwrap (Int.uwrap (WINDOW_HEIGHT - Int.uwrap (PLAYER_HEIGHT * 2))
                        - ENEMY_HEIGHT)) <? Enemy.py e)%f32.

(** slot [i] holds an enemy that is too low *)
Definition low_at (en : pool Enemy.t) (i : nat) : bool :=
  match en !! i with Some (Some e) => too_low e | _ => false end.

Definition any_low (en : pool Enemy.t) : bool :=
  existsb (low_at en) (seq 0 MAX_ENEMIES).

(** the bullet an enemy fires in [enemyShoot] *)
Definition enemy_bullet (e : Enemy.t) : Bullet.t :=
  new_bullet (F32.to_int (Enemy.px e)) (F32.to_int (Enemy.py e)) 1.

(** [b] is the bullet of a front enemy of [en] whose shoot timer has run out *)
Definition fired_from (en : pool Enemy.t) (b : Bullet.t) : Prop :=
  exists k e, front en k = true /\ en !! k = Some (Some e)
              /\ (Enemy.shootTimer e <=? F32.of_Z 0)%f32 = true
              /\ b = enemy_bullet e.

(** what [enemyShoot] does besides rewriting the enemies, after [t] visits *)
Definition shoot_effects (g : Game) (t : nat) (st : ShootState) : Prop :=
  rand_calls (sh_game st)
    = (rand_calls g
       + length (filter (fun k => front (enemies g) k = true) (seq (55 - t) t)))%nat
  /\ grows_by (fired_from (enemies g)) (bullets g) (bullets (sh_game st))
  /\ player (sh_game st) = player g
  /\ particles (sh_game st) = particles g
  /\ ENEMY_SPEED_MULT (sh_game st) = ENEMY_SPEED_MULT g
  /\ enemyDir (sh_game st) = enemyDir g
  /\ currentWave (sh_game st) = currentWave g
  /\ gameOver (sh_game st) = gameOver g
  /\ playGame (sh_game st) = playGame g.

(** the two hit conditions of [checkBulletCollisions] *)
Definition enemy_hit_test (b : Bullet.t) (e : Enemy.t) : bool :=
  SDL_HasIntersection (bulletRect_of b) (enemyRect_of e) && negb (Bullet.vy b =? 1).
Definition player_hit_test (playerRect : SDL_Rect) (b : Bullet.t) : bool :=
  SDL_HasIntersection (bulletRect_of b) playerRect && negb (Bullet.vy b =? -1).

(** every bullet and enemy of [g'] is a bullet or enemy of [g], in the same
    slot and unchanged *)
Definition shrinks (g g' : Game) : Prop :=
  (forall k b, bullets g' !! k = Some (Some b) -> bullets g !! k = Some (Some b))
  /\ (forall k e, enemies g' !! k = Some (Some e) -> enemies g !! k = Some (Some e)).

(** bullet [i], if still live, hits neither the player nor a live enemy *)
Definition settled (playerRect : SDL_Rect) (g : Game) (i : nat) : Prop :=
  forall b, bullets g !! i = Some (Some b) ->
    player_hit_test playerRect b = false
    /\ forall j e, (j < MAX_ENEMIES)%nat -> enemies g !! j = Some (Some e) ->
         enemy_hit_test b e = false.

(** the bullet slots and the enemy slots named by a list of hits *)
Fixpoint hit_bullets (hits : list Hit) : list nat :=
  match hits with
  | [] => []
  | EnemyHit i _ :: rest => i :: hit_bullets rest
  | PlayerHit i :: rest => i :: hit_bullets rest
  end.
Fixpoint hit_enemies (hits : list Hit) : list nat :=
  match hits with
  | [] => []
  | EnemyHit _ j :: rest => j :: hit_enemies rest
  | PlayerHit _ :: rest => hit_enemies rest
  end.
Fixpoint player_hits (hits : list Hit) : nat :=
  match hits with
  | [] => 0
  | EnemyHit _ _ :: rest => player_hits rest
  | PlayerHit _ :: rest => S (player_hits rest)
  end.

(** the kill reward of the enemy in slot [j] *)
Definition reward_at (en : pool Enemy.t) (j : nat) : Z :=
  match en !! j with Some (Some e) => Enemy.killReward e | _ => 0 end.

(** the score after the hits, added in order with [int] arithmetic *)
Definition score_after (en : pool Enemy.t) (hits : list Hit) (score : Z) : Z :=
  fold_left
    (fun s h => match h with
                | EnemyHit _ j => Int.add s (reward_at en j)
                | PlayerHit _ => s
                end) hits score.

(** the hits registered so far account for the whole difference between
    the state on entry [g] and the current state *)
Definition collide_log (pr : SDL_Rect) (g : Game) (gh : Game * list Hit) : Prop :=
  NoDup (hit_bullets (snd gh))
  /\ NoDup (hit_enemies (snd gh))
  /\ (forall i, i ∈ hit_bullets (snd gh) ->
        (i < MAX_PROJECTILES)%nat /\ bullets (fst gh) !! i = Some None)
  /\ (forall i, i ∉ hit_bullets (snd gh) -> bullets (fst gh) !! i = bullets g !! i)
  /\ (forall j, j ∈ hit_enemies (snd gh) -> enemies (fst gh) !! j = Some None)
  /\ (forall j, j ∉ hit_enemies (snd gh) -> enemies (fst gh) !! j = enemies g !! j)
  /\ Player.score (player (fst gh))
     = score_after (enemies g) (snd gh) (Player.score (player g))
  /\ (forall i j, EnemyHit i j ∈ snd gh ->
        exists b e, bullets g !! i = Some (Some b)
                    /\ enemies g !! j = Some (Some e)
                    /\ enemy_hit_test b e = true)
  /\ (forall i, PlayerHit i ∈ snd gh ->
        exists b, bullets g !! i = Some (Some b) /\ player_hit_test pr b = true).

(** lives and game-over flag after [n] iterations of the loop over bullets *)
Definition collide_lives (g : Game) (n : nat) (gh : Game * list Hit) : Prop :=
  (player_hits (snd gh) <= n)%nat
  /\ Player.livesLeft (player (fst gh))
     = Player.livesLeft (player g) - Z.of_nat (player_hits (snd gh))
  /\ gameOver (fst gh)
     = gameOver g
       || ((0 <? player_hits (snd gh))%nat
           && (Player.livesLeft (player (fst gh)) <=? 0)).

(** the sum of the kill rewards of the enemies hit *)
Definition rewards (en : pool Enemy.t) (hits : list Hit) : Z :=
  fold_right (fun j acc => reward_at en j + acc) 0 (hit_enemies hits).

(** the scalars that only [updateEnemies], [enemyShoot], [updatePlayer] and
    [checkGameState] write *)
Definition same_globals (g g' : Game) : Prop :=
  currentWave g' = currentWave g
  /\ playGame g' = playGame g
  /\ enemyDir g' = enemyDir g
  /\ ENEMY_SPEED_MULT g' = ENEMY_SPEED_MULT g
  /\ rand_calls g' = rand_calls g
  /\ Player.hiScore (player g') = Player.hiScore (player g)
  /\ Player.shootTimer (player g') = Player.shootTimer (player g).

(** the state on which [checkGameState] runs in a frame *)
Definition before_check (rng : nat -> Z) (keys : Keys) (delta : float)
  (g : Game) : Game :=
  checkBulletCollisions (before_collisions rng keys delta g).

(** what holds between two frames of a game *)
Definition between_frames (g : Game) : Prop :=
  wf g
  /\ gameOver g = false
  /\ 1 <= Player.livesLeft (player g) <= 3
  /\ no_enemy_left (enemies g) = false
  /\ pool_all vertical (bullets g).

(** two states that agree on everything but the particle array *)
Definition same_but_particles (g g' : Game) : Prop :=
  player g' = player g
  /\ enemies g' = enemies g
  /\ bullets g' = bullets g
  /\ ENEMY_SPEED_MULT g' = ENEMY_SPEED_MULT g
  /\ enemyDir g' = enemyDir g
  /\ currentWave g' = currentWave g
  /\ gameOver g' = gameOver g
  /\ playGame g' = playGame g
  /\ rand_calls g' = rand_calls g.

(** the initial state with one bullet explosion in particle slot 0 *)
Definition one_particle : Game :=
  set_particles init
    (<[0%nat := Some (Particle.mk (F32.of_Z 50) (F32.of_Z 0) (F32.lit 1 2)
                        BULLET_EXPLOSION)]> (particles init)).

(** the start key, then the shoot key held for one frame of play *)
Definition first_shot : Game :=
  update (fun _ => 0) (mkKeys false false true) (F32.lit 1 60)
    (update (fun _ => 0) (mkKeys false false true) (F32.lit 1 60) init).

(** * Properties *)

(** ** Loops *)

Section ForEach.
Context {St : Type}.
Implicit Types (body : nat -> St -> St) (s : St).

Lemma for_each_0 body s : for_each 0 body s = s.
Proof. reflexivity. Qed.

Lemma for_each_S n body s :
  for_each (S n) body s = body n (for_each n body s).
Proof.
  unfold for_each. rewrite seq_S, fold_left_app. reflexivity.
Qed.

(** the invariant rule for a counted loop *)
Lemma for_each_inv (P : nat -> St -> Prop) n body s :
  P 0%nat s ->
  (forall i t, (i < n)%nat -> P i t -> P (S i) (body i t)) ->
  P n (for_each n body s).
Proof.
  intros H0 Hstep. induction n as [|n IH].
  - exact H0.
  - rewrite for_each_S. apply Hstep; [lia|].
    apply IH. intros i t Hi. apply Hstep. lia.
Qed.

Lemma for_each_ext n body body' s :
  (forall i t, (i < n)%nat -> body i t = body' i t) ->
  for_each n body s = for_each n body' s.
Proof.
  intros H. induction n as [|n IH]; [reflexivity|].
  rewrite !for_each_S, IH by (intros; apply H; lia). apply H. lia.
Qed.
End ForEach.

Section Slotwise.
Context {A : Type}.
Implicit Types (F : nat -> option A -> option A) (sl : pool A).

Lemma slotwise_length F i sl : length (slotwise F i sl) = length sl.
Proof.
  unfold slotwise. destruct (sl !! i); [apply length_insert|reflexivity].
Qed.

Lemma for_each_slotwise_length n F sl :
  length (for_each n (slotwise F) sl) = length sl.
Proof.
  induction n as [|n IH]; [reflexivity|].
  rewrite for_each_S, slotwise_length. exact IH.
Qed.

Lemma for_each_slotwise_lookup n F sl i :
  for_each n (slotwise F) sl !! i
  = if decide (i < n)%nat then F i <$> sl !! i else sl !! i.
Proof.
  induction n as [|n IH]; [reflexivity|].
  rewrite for_each_S. unfold slotwise at 1.
  destruct (decide (i = n)) as [->|Hne].
  - destruct (decide (n < n)%nat) as [?|_]; [lia|].
    destruct (decide (n < S n)%nat) as [_|?]; [|lia].
    rewrite IH. destruct (sl !! n) as [s|] eqn:E; simpl.
    + apply list_lookup_insert_eq.
      rewrite for_each_slotwise_length. eapply lookup_lt_Some, E.
    + exact IH.
  - assert (Hl : for_each n (slotwise F) sl !! i
                 = if decide (i < S n)%nat then F i <$> sl !! i else sl !! i).
    { rewrite IH. destruct (decide (i < n)%nat), (decide (i < S n)%nat);
        try reflexivity; lia. }
    destruct (for_each n (slotwise F) sl !! n); [|exact Hl].
    rewrite list_lookup_insert_ne by congruence. exact Hl.
Qed.

Lemma free_all_slotwise n sl :
  free_all n sl = for_each n (slotwise (fun _ _ => None)) sl.
Proof.
  unfold free_all. apply for_each_ext. intros i t _. unfold slotwise.
  destruct (t !! i) eqn:E; [reflexivity|].
  apply list_insert_ge, lookup_ge_None, E.
Qed.

Lemma free_all_length n sl : length (free_all n sl) = length sl.
Proof. rewrite free_all_slotwise. apply for_each_slotwise_length. Qed.

(** freeing every slot of an array of [n] pointers leaves [n] [NULL]s *)
Lemma free_all_replicate n sl :
  length sl = n -> free_all n sl = replicate n None.
Proof.
  intros Hlen. apply list_eq. intros i.
  rewrite free_all_slotwise, for_each_slotwise_lookup.
  destruct (decide (i < n)%nat) as [Hi|Hi].
  - rewrite lookup_replicate_2 by exact Hi.
    destruct (lookup_lt_is_Some_2 sl i) as [s ->]; [lia|reflexivity].
  - rewrite (lookup_ge_None_2 sl) by lia.
    symmetry. apply lookup_replicate_None. lia.
Qed.
End Slotwise.

(** ** Machine integers *)

Lemma Int_wrap_id (z : Z) : Int.in_range z -> Int.wrap z = z.
Proof.
  unfold Int.in_range, Int.INT_MIN, Int.INT_MAX, Int.wrap. intros H.
  rewrite Z.mod_small by lia. lia.
Qed.

(** ** Occupied slots *)

Lemma live_count_le {A : Type} (sl : pool A) : (live_count sl <= length sl)%nat.
Proof. apply length_filter. Qed.

Lemma live_count_full {A : Type} (sl : pool A) :
  (forall i, (i < length sl)%nat -> exists v, sl !! i = Some (Some v)) ->
  live_count sl = length sl.
Proof.
  unfold live_count. induction sl as [|s sl IH]; intros H; [reflexivity|].
  destruct (H 0%nat) as [v Hv]; [simpl; lia|]. simpl in Hv.
  rewrite filter_cons_True by (injection Hv as ->; eexists; reflexivity).
  simpl. f_equal. apply IH. intros i Hi. apply (H (S i)). simpl. lia.
Qed.

(** ** Spawning a wave *)

Lemma createEnemies_slotwise (g : Game) :
  enemies (createEnemies g)
  = for_each MAX_ENEMIES
      (slotwise (fun i _ => Some (new_enemy (currentWave g) i))) (enemies g).
Proof.
  unfold createEnemies. simpl. apply for_each_ext. intros i t _.
  unfold slotwise. destruct (t !! i) eqn:E; [reflexivity|].
  apply list_insert_ge, lookup_ge_None, E.
Qed.

Lemma createEnemies_length (g : Game) :
  length (enemies (createEnemies g)) = length (enemies g).
Proof. rewrite createEnemies_slotwise. apply for_each_slotwise_length. Qed.

Lemma createEnemies_lookup (g : Game) (i : nat) :
  (i < MAX_ENEMIES)%nat -> (i < length (enemies g))%nat ->
  enemies (createEnemies g) !! i = Some (Some (new_enemy (currentWave g) i)).
Proof.
  intros Hi Hl. rewrite createEnemies_slotwise, for_each_slotwise_lookup.
  destruct (decide (i < MAX_ENEMIES)%nat); [|lia].
  destruct (lookup_lt_is_Some_2 (enemies g) i Hl) as [s ->]. reflexivity.
Qed.

(** case analysis on an index below a literal bound *)
Ltac each_index i H :=
  do 55 (destruct i as [|i]; [vm_compute; reflexivity|]);
  exfalso; unfold MAX_ENEMIES in H; lia.

(** the float arithmetic of the grid formula is exact on the 55 slots *)
Lemma new_enemy_px (wave : Z) (i : nat) :
  (i < MAX_ENEMIES)%nat ->
  Enemy.px (new_enemy wave i)
  = F32.of_Z (Z.of_nat (i mod 11) * (ENEMY_WIDTH + 10) + 100).
Proof. intros H. cbn [new_enemy Enemy.px]. each_index i H. Qed.

Lemma new_enemy_py (wave : Z) (i : nat) :
  (i < MAX_ENEMIES)%nat ->
  Enemy.py (new_enemy wave i)
  = F32.of_Z (Z.of_nat (i / 11) * (ENEMY_HEIGHT + 10) + 100).
Proof. intros H. cbn [new_enemy Enemy.py]. each_index i H. Qed.

Lemma new_enemy_grid (w : Z) (i : nat) :
  (i < MAX_ENEMIES)%nat -> 1 <= w -> 10 * w <= Int.INT_MAX ->
  new_enemy w i = grid_enemy w i.
Proof.
  intros Hi Hw Hmax.
  pose proof (new_enemy_px w i Hi) as Hx.
  pose proof (new_enemy_py w i Hi) as Hy.
  unfold new_enemy, grid_enemy in *. cbn [Enemy.px Enemy.py] in Hx, Hy.
  rewrite Hx, Hy. f_equal.
  unfold Int.mul. apply Int_wrap_id.
  unfold Int.in_range, Int.INT_MIN, Int.INT_MAX in *. lia.
Qed.

(** C5: for a wave number [w >= 1] whose reward [10 * w] fits in an [int],
    [createEnemies] fills all 55 slots; slot [i] holds the enemy at column
    [i mod 11] and row [i / 11] of the grid, at
    [(col * (ENEMY_WIDTH + 10) + 100, row * (ENEMY_HEIGHT + 10) + 100)], with
    kill reward [10 * w] and shoot timer [max(0.20f, 1 - 0.05f * w)]; slots
    0, 10 and 11 are at (100,100), (500,100) and (100,140).  Nothing else
    of the state changes. *)
Theorem createEnemies_spawns_grid (g : Game) (w : Z) :
  length (enemies g) = MAX_ENEMIES ->
  currentWave g = w -> 1 <= w -> 10 * w <= Int.INT_MAX ->
  let g' := createEnemies g in
  length (enemies g') = 55%nat
  /\ live_count (enemies g') = 55%nat
  /\ (forall i, (i < 55)%nat -> enemies g' !! i = Some (Some (grid_enemy w i)))
  /\ (forall e, enemies g' !! 0%nat = Some (Some e) ->
        Enemy.px e = F32.of_Z 100 /\ Enemy.py e = F32.of_Z 100)
  /\ (forall e, enemies g' !! 10%nat = Some (Some e) ->
        Enemy.px e = F32.of_Z 500 /\ Enemy.py e = F32.of_Z 100)
  /\ (forall e, enemies g' !! 11%nat = Some (Some e) ->
        Enemy.px e = F32.of_Z 100 /\ Enemy.py e = F32.of_Z 140)
  /\ g' = set_enemies g (enemies g').
Proof.
  intros Hlen Hw H1 Hmax g'.
  assert (Hlook : forall i, (i < 55)%nat ->
                    enemies g' !! i = Some (Some (grid_enemy w i))).
  { intros i Hi. unfold g'. rewrite createEnemies_lookup.
    - rewrite Hw, new_enemy_grid; auto.
    - exact Hi.
    - rewrite Hlen. exact Hi. }
  assert (Hlen' : length (enemies g') = 55%nat).
  { unfold g'. rewrite createEnemies_length. exact Hlen. }
  split; [exact Hlen'|]. split.
  { rewrite live_count_full; [exact Hlen'|].
    intros i Hi. rewrite Hlen' in Hi. eexists. apply Hlook, Hi. }
  split; [exact Hlook|].
  repeat split;
    try (rewrite Hlook in H by lia; injection H as <-; reflexivity).
Qed.

Lemma createEnemies_spawns_grid_witness :
  live_count (enemies (createEnemies globals)) = 55%nat
  /\ enemies (createEnemies globals) !! 12%nat = Some (Some (grid_enemy 1 12)).
Proof.
  assert (Hmax : 10 * 1 <= Int.INT_MAX) by (unfold Int.INT_MAX; lia).
  pose proof (createEnemies_spawns_grid globals 1 eq_refl eq_refl
                ltac:(lia) Hmax) as (_ & Hc & Hl & _).
  split; [exact Hc|]. apply Hl. lia.
Defined.

(** ** The game-state check *)

Lemma no_enemy_left_spec (en : pool Enemy.t) :
  no_enemy_left en = true
  <-> forall i, (i < MAX_ENEMIES)%nat -> forall e, en !! i <> Some (Some e).
Proof.
  unfold no_enemy_left.
  apply (for_each_inv
    (fun k b => b = true <-> forall i, (i < k)%nat -> forall e, en !! i <> Some (Some e))).
  - split; [intros _ i Hi; lia|reflexivity].
  - intros k b Hk [IH1 IH2]. split.
    + intros Hb i Hi e.
      destruct (en !! k) as [[e'|]|] eqn:E; try discriminate;
        (destruct (decide (i = k)) as [->|Hne];
         [rewrite E; discriminate|apply IH1; [exact Hb|lia]]).
    + intros Hall.
      assert (Hb : b = true) by (apply IH2; intros i Hi; apply Hall; lia).
      destruct (en !! k) as [[e'|]|] eqn:E; try exact Hb.
      exfalso. apply (Hall k ltac:(lia) e'). exact E.
Qed.

Lemma no_enemy_left_false (en : pool Enemy.t) (i : nat) (e : Enemy.t) :
  (i < MAX_ENEMIES)%nat -> en !! i = Some (Some e) -> no_enemy_left en = false.
Proof.
  intros Hi He. destruct (no_enemy_left en) eqn:E; [|reflexivity].
  exfalso. exact (proj1 (no_enemy_left_spec en) E i Hi e He).
Qed.

Lemma no_enemy_left_createEnemies (g : Game) :
  length (enemies g) = MAX_ENEMIES ->
  no_enemy_left (enemies (createEnemies g)) = false.
Proof.
  intros Hlen. apply (no_enemy_left_false _ 0%nat (new_enemy (currentWave g) 0)).
  - unfold MAX_ENEMIES. lia.
  - apply createEnemies_lookup; [|rewrite Hlen]; unfold MAX_ENEMIES; lia.
Qed.

Lemma freeEnemies_length (g : Game) :
  length (enemies (freeEnemies g)) = length (enemies g).
Proof. apply free_all_length. Qed.

(** the state left by the game-over branch *)
Lemma game_over_branch_set (g : Game) :
  gameOver g = true ->
  game_over_branch g
  = set_gameOver
      (createEnemies
         (freeBullets
            (freeEnemies
               (set_player g
                  (Player.set_hiScore (createPlayer (player g))
                     (Z.max (Player.hiScore (player g)) (Player.score (player g))))))))
      false.
Proof.
  intros Hgo. unfold game_over_branch. rewrite Hgo. cbn [player set_player].
  replace (if Player.score (player g) >? Player.hiScore (player g)
           then Player.score (player g) else Player.hiScore (player g))
    with (Z.max (Player.hiScore (player g)) (Player.score (player g)));
    [reflexivity|].
  destruct (Z.gtb_spec (Player.score (player g)) (Player.hiScore (player g))); lia.
Qed.

Lemma game_over_branch_populated (g : Game) :
  gameOver g = true -> length (enemies g) = MAX_ENEMIES ->
  no_enemy_left (enemies (game_over_branch g)) = false.
Proof.
  intros Hgo Hlen. rewrite game_over_branch_set by exact Hgo.
  cbn [set_gameOver enemies].
  apply no_enemy_left_createEnemies.
  unfold freeBullets. cbn [enemies set_bullets].
  rewrite freeEnemies_length. exact Hlen.
Qed.

(** C2: when the game-over flag is set, [checkGameState] leaves the high
    score at the larger of the old high score and the old score, a player
    with score 0, 3 lives, shoot timer 0 at the spawn position, the enemy
    array refilled for the unchanged wave number, every bullet slot [NULL]
    and the flag cleared. *)
Theorem checkGameState_game_over (g : Game) :
  wf g -> gameOver g = true ->
  let g' := checkGameState g in
  Player.hiScore (player g')
    = Z.max (Player.hiScore (player g)) (Player.score (player g))
  /\ Player.score (player g') = 0
  /\ Player.livesLeft (player g') = 3
  /\ Player.shootTimer (player g') = F32.of_Z 0
  /\ Player.px (player g') = F32.of_Z 320
  /\ Player.py (player g') = F32.of_Z 446
  /\ currentWave g' = currentWave g
  /\ length (enemies g') = MAX_ENEMIES
  /\ (forall i, (i < MAX_ENEMIES)%nat ->
        enemies g' !! i = Some (Some (new_enemy (currentWave g) i)))
  /\ bullets g' = replicate MAX_PROJECTILES None
  /\ gameOver g' = false.
Proof.
  intros (He & Hb & Hp) Hgo g'.
  assert (Hg' : g' = game_over_branch g).
  { unfold g', checkGameState, wave_clear_branch.
    rewrite game_over_branch_populated by assumption. reflexivity. }
  rewrite Hg', game_over_branch_set by exact Hgo.
  assert (Hlen : length (enemies (freeBullets (freeEnemies (set_player g
            (Player.set_hiScore (createPlayer (player g))
               (Z.max (Player.hiScore (player g)) (Player.score (player g))))))))
          = MAX_ENEMIES).
  { unfold freeBullets. cbn [enemies set_bullets].
    rewrite freeEnemies_length. exact He. }
  cbn [set_gameOver player enemies bullets currentWave gameOver].
  repeat split.
  - rewrite createEnemies_length. exact Hlen.
  - intros i Hi.
    rewrite (createEnemies_lookup _ i Hi); [reflexivity|].
    rewrite Hlen. exact Hi.
  - unfold createEnemies, freeBullets. cbn [bullets set_enemies set_bullets].
    apply free_all_replicate. exact Hb.
Qed.

Lemma wf_game_over_scenario : wf game_over_scenario.
Proof. repeat split. Qed.

Lemma checkGameState_game_over_witness :
  Player.hiScore (player (checkGameState game_over_scenario)) = 200
  /\ Player.score (player (checkGameState game_over_scenario)) = 0
  /\ bullets (checkGameState game_over_scenario) = replicate MAX_PROJECTILES None
  /\ gameOver (checkGameState game_over_scenario) = false.
Proof.
  pose proof (checkGameState_game_over game_over_scenario
                wf_game_over_scenario eq_refl)
    as (Hhi & Hsc & _ & _ & _ & _ & _ & _ & _ & Hb & Hgo).
  repeat split; assumption.
Defined.

(** C3: with at least one occupied enemy slot the wave-clear part of
    [checkGameState] changes nothing; with every slot empty it adds one to
    the wave number, refills the enemy array for the new wave number and
    sets the lives to 3, leaving score, position and everything else of
    the player as they were. *)
Theorem wave_clear_branch_spec (g : Game) :
  length (enemies g) = MAX_ENEMIES ->
  ((exists i e, (i < MAX_ENEMIES)%nat /\ enemies g !! i = Some (Some e)) ->
     wave_clear_branch g = g)
  /\ ((forall i, (i < MAX_ENEMIES)%nat -> enemies g !! i = Some None) ->
      Int.INT_MIN <= currentWave g < Int.INT_MAX ->
      let g' := wave_clear_branch g in
      currentWave g' = currentWave g + 1
      /\ length (enemies g') = MAX_ENEMIES
      /\ (forall i, (i < MAX_ENEMIES)%nat ->
            enemies g' !! i = Some (Some (new_enemy (currentWave g + 1) i)))
      /\ player g' = Player.set_livesLeft (player g) 3
      /\ Player.livesLeft (player g') = 3
      /\ Player.score (player g') = Player.score (player g)
      /\ Player.px (player g') = Player.px (player g)
      /\ Player.py (player g') = Player.py (player g)).
Proof.
  intros Hlen. split.
  - intros (i & e & Hi & He). unfold wave_clear_branch.
    rewrite (no_enemy_left_false _ i e Hi He). reflexivity.
  - intros Hempty Hmax g'.
    assert (Hno : no_enemy_left (enemies g) = true).
    { apply no_enemy_left_spec. intros i Hi e. rewrite (Hempty i Hi). discriminate. }
    assert (Hw : Int.add (currentWave g) 1 = currentWave g + 1).
    { unfold Int.add. apply Int_wrap_id.
      unfold Int.in_range, Int.INT_MIN, Int.INT_MAX in *. lia. }
    assert (Hfree : length (enemies (freeEnemies
              (set_currentWave g (currentWave g + 1)))) = MAX_ENEMIES).
    { rewrite freeEnemies_length. exact Hlen. }
    unfold g', wave_clear_branch. rewrite Hno, Hw.
    cbn [set_player player currentWave enemies].
    repeat split.
    + rewrite createEnemies_length. exact Hfree.
    + intros i Hi. rewrite (createEnemies_lookup _ i Hi); [reflexivity|].
      rewrite Hfree. exact Hi.
Qed.

Lemma wave_clear_branch_spec_witness :
  wave_clear_branch init = init
  /\ currentWave (wave_clear_branch cleared_board) = 2
  /\ Player.livesLeft (player (wave_clear_branch cleared_board)) = 3
  /\ Player.score (player (wave_clear_branch cleared_board)) = 550.
Proof.
  split.
  - apply (wave_clear_branch_spec init eq_refl).
    exists 0%nat, (new_enemy 1 0). split; [unfold MAX_ENEMIES; lia|reflexivity].
  - assert (Hempty : forall i, (i < MAX_ENEMIES)%nat ->
                       enemies cleared_board !! i = Some None).
    { intros i Hi. apply lookup_replicate_2. exact Hi. }
    assert (Hrange : Int.INT_MIN <= currentWave cleared_board < Int.INT_MAX).
    { unfold Int.INT_MIN, Int.INT_MAX. simpl. lia. }
    pose proof (proj2 (wave_clear_branch_spec cleared_board eq_refl) Hempty Hrange)
      as (Hw & _ & _ & _ & Hl & Hs & _).
    repeat split; assumption.
Defined.

(** C7: [checkGameState] is the game-over branch followed by the wave-clear
    branch, and the emptiness test of the latter reads the enemy array left
    by the former.  On a frame whose game-over branch ran, that array is
    full, so the wave-clear branch does nothing and the wave number is not
    incremented, whatever the array held on entry. *)
Theorem game_over_frame_keeps_wave (g : Game) :
  length (enemies g) = MAX_ENEMIES -> gameOver g = true ->
  checkGameState g = wave_clear_branch (game_over_branch g)
  /\ no_enemy_left (enemies (game_over_branch g)) = false
  /\ wave_clear_branch (game_over_branch g) = game_over_branch g
  /\ currentWave (checkGameState g) = currentWave g.
Proof.
  intros Hlen Hgo.
  pose proof (game_over_branch_populated g Hgo Hlen) as Hfull.
  assert (Hskip : wave_clear_branch (game_over_branch g) = game_over_branch g).
  { unfold wave_clear_branch. rewrite Hfull. reflexivity. }
  repeat split; try assumption.
  unfold checkGameState. rewrite Hskip, game_over_branch_set by exact Hgo.
  reflexivity.
Qed.

Lemma game_over_frame_keeps_wave_witness :
  no_enemy_left (enemies game_over_on_cleared_board) = true
  /\ currentWave (checkGameState game_over_on_cleared_board) = 1.
Proof.
  split; [reflexivity|].
  apply (game_over_frame_keeps_wave game_over_on_cleared_board eq_refl eq_refl).
Defined.

(** ** The enemy update *)

Lemma move_phase_spec (delta : float) (g : Game) :
  let m := move_phase delta g in
  enemyDir m = enemyDir g
  /\ ENEMY_SPEED_MULT m = ENEMY_SPEED_MULT g
  /\ player m = player g
  /\ bullets m = bullets g
  /\ particles m = particles g
  /\ currentWave m = currentWave g
  /\ playGame m = playGame g
  /\ rand_calls m = rand_calls g
  /\ length (enemies m) = length (enemies g)
  /\ forall i, enemies m !! i
       = if decide (i < MAX_ENEMIES)%nat
         then fmap (moved_enemy delta g) <$> enemies g !! i
         else enemies g !! i.
Proof.
  intros m. subst m. unfold move_phase.
  pose (P := fun (k : nat) (t : Game) =>
    enemyDir t = enemyDir g
    /\ ENEMY_SPEED_MULT t = ENEMY_SPEED_MULT g
    /\ player t = player g
    /\ bullets t = bullets g
    /\ particles t = particles g
    /\ currentWave t = currentWave g
    /\ playGame t = playGame g
    /\ rand_calls t = rand_calls g
    /\ length (enemies t) = length (enemies g)
    /\ forall i, enemies t !! i
         = if decide (i < k)%nat
           then fmap (moved_enemy delta g) <$> enemies g !! i
           else enemies g !! i).
  apply (for_each_inv P); subst P; cbv beta.
  - repeat split.
  - intros k t Hk (Hd & Hm & Hp & Hb & Hpa & Hw & Hpg & Hr & Hl & Hen).
    assert (Hkeep : forall i, i <> k ->
              (if decide (i < k)%nat
               then fmap (moved_enemy delta g) <$> enemies g !! i
               else enemies g !! i)
              = (if decide (i < S k)%nat
                 then fmap (moved_enemy delta g) <$> enemies g !! i
                 else enemies g !! i)).
    { intros i Hne. destruct (decide (i < k)%nat), (decide (i < S k)%nat);
        try reflexivity; lia. }
    pose proof (Hen k) as Hkk.
    destruct (decide (k < k)%nat) as [?|_]; [lia|].
    unfold move_body.
    destruct (enemies t !! k) as [[e|]|] eqn:E.
    + set (e' := if enemyDir t =? 1 then _ else _).
      assert (He' : e' = moved_enemy delta g e).
      { unfold e', moved_enemy. rewrite Hd, Hm. reflexivity. }
      assert (Hlook : forall i, <[k := Some e']> (enemies t) !! i
                = if decide (i < S k)%nat
                  then fmap (moved_enemy delta g) <$> enemies g !! i
                  else enemies g !! i).
      { intros i. destruct (decide (i = k)) as [->|Hne].
        - rewrite list_lookup_insert_eq by (eapply lookup_lt_Some, E).
          destruct (decide (k < S k)%nat); [|lia].
          rewrite <- Hkk. rewrite He'. reflexivity.
        - rewrite list_lookup_insert_ne by congruence.
          rewrite Hen. apply Hkeep, Hne. }
      destruct (_ <? Enemy.py e')%f32;
        cbn [set_gameOver set_enemies enemyDir ENEMY_SPEED_MULT player bullets
             particles currentWave playGame rand_calls enemies];
        rewrite length_insert; repeat split; assumption.
    + repeat split; try assumption.
      intros i. destruct (decide (i = k)) as [->|Hne].
      * destruct (decide (k < S k)%nat); [|lia]. rewrite E, <- Hkk. reflexivity.
      * rewrite Hen. apply Hkeep, Hne.
    + repeat split; try assumption.
      intros i. destruct (decide (i = k)) as [->|Hne].
      * destruct (decide (k < S k)%nat); [|lia]. rewrite E, <- Hkk. reflexivity.
      * rewrite Hen. apply Hkeep, Hne.
Qed.

Lemma edge_scan_turns (idxs : list nat) (g : Game) (i : nat) (e : Enemy.t) :
  i ∈ idxs -> enemies g !! i = Some (Some e) -> at_edge e = true ->
  edge_scan idxs g = turn g.
Proof.
  induction idxs as [|k rest IH]; intros Hin He Hedge.
  - inversion Hin.
  - simpl. destruct (enemies g !! k) as [[e'|]|] eqn:E.
    + destruct (at_edge e') eqn:Ee'; [reflexivity|].
      apply IH; try assumption.
      apply elem_of_cons in Hin as [->|Hin]; [|exact Hin]. congruence.
    + apply IH; try assumption.
      apply elem_of_cons in Hin as [->|Hin]; [|exact Hin]. congruence.
    + apply IH; try assumption.
      apply elem_of_cons in Hin as [->|Hin]; [|exact Hin]. congruence.
Qed.

Lemma edge_scan_idle (idxs : list nat) (g : Game) :
  (forall i e, i ∈ idxs -> enemies g !! i = Some (Some e) -> at_edge e = false) ->
  edge_scan idxs g = g.
Proof.
  induction idxs as [|k rest IH]; intros H; [reflexivity|].
  simpl. assert (Hrest : edge_scan rest g = g).
  { apply IH. intros i e Hi. apply H. right. exact Hi. }
  destruct (enemies g !! k) as [[e'|]|] eqn:E; try exact Hrest.
  rewrite (H k e' ltac:(left) E). exact Hrest.
Qed.

Lemma descend_slotwise (n : nat) (en : pool Enemy.t) :
  for_each n descend_body en
  = for_each n
      (slotwise (fun _ s =>
         (fun e => Enemy.set_py e (Enemy.py e + F32.of_Z 7)%f32) <$> s)) en.
Proof.
  apply for_each_ext. intros i t _. unfold descend_body, slotwise.
  destruct (t !! i) as [[e|]|] eqn:E; try reflexivity.
  symmetry. apply list_insert_id, E.
Qed.

Lemma moved_enemy_py (delta : float) (g : Game) (e : Enemy.t) :
  Enemy.py (moved_enemy delta g e) = Enemy.py e.
Proof. unfold moved_enemy. destruct (enemyDir g =? 1); reflexivity. Qed.

Lemma turn_enemies_lookup (g : Game) (i : nat) :
  enemies (turn g) !! i
  = if decide (i < MAX_ENEMIES)%nat
    then fmap (fun e => Enemy.set_py e (Enemy.py e + F32.of_Z 7)%f32) <$> enemies g !! i
    else enemies g !! i.
Proof.
  unfold turn. cbn [enemies set_enemies set_enemyDir set_ENEMY_SPEED_MULT].
  rewrite descend_slotwise, for_each_slotwise_lookup. reflexivity.
Qed.

Lemma updateEnemies_turn_eq (delta : float) (g : Game) :
  (exists i e, (i < MAX_ENEMIES)%nat /\ enemies g !! i = Some (Some e)
               /\ at_edge (moved_enemy delta g e) = true) ->
  updateEnemies delta g = turn (move_phase delta g).
Proof.
  intros (i & e & Hi & He & Hedge).
  pose proof (move_phase_spec delta g) as (_ & _ & _ & _ & _ & _ & _ & _ & _ & Hen).
  unfold updateEnemies.
  apply (edge_scan_turns _ _ i (moved_enemy delta g e)).
  - apply elem_of_seq. lia.
  - rewrite Hen. destruct (decide (i < MAX_ENEMIES)%nat); [|lia].
    rewrite He. reflexivity.
  - exact Hedge.
Qed.

Lemma turn_enemyDir (g : Game) : enemyDir (turn g) = Int.neg (enemyDir g).
Proof. reflexivity. Qed.

Lemma turn_ENEMY_SPEED_MULT (g : Game) :
  ENEMY_SPEED_MULT (turn g) = (ENEMY_SPEED_MULT g + F32.lit 1 40)%f32.
Proof. reflexivity. Qed.

Lemma Int_neg_1 : Int.neg 1 = -1.
Proof. reflexivity. Qed.

Lemma Int_neg_m1 : Int.neg (-1) = 1.
Proof. reflexivity. Qed.

(** C4, as the code has it: when after the horizontal move some live enemy
    is left of [ENEMY_WIDTH] or right of [WINDOW_WIDTH - 2 * ENEMY_WIDTH],
    [updateEnemies] turns the formation exactly once: the direction is
    negated, every live enemy goes down by [ENEMY_HEIGHT / 4], which is the
    integer 7, the speed multiplier grows by [0.025f], and empty slots stay
    empty. *)
Theorem updateEnemies_turns_once (delta : float) (g : Game) :
  (exists i e, (i < MAX_ENEMIES)%nat /\ enemies g !! i = Some (Some e)
               /\ at_edge (moved_enemy delta g e) = true) ->
  updateEnemies delta g = turn (move_phase delta g)
  /\ enemyDir (updateEnemies delta g) = Int.neg (enemyDir g)
  /\ (enemyDir g = 1 -> enemyDir (updateEnemies delta g) = -1)
  /\ (enemyDir g = -1 -> enemyDir (updateEnemies delta g) = 1)
  /\ ENEMY_SPEED_MULT (updateEnemies delta g)
     = (ENEMY_SPEED_MULT g + F32.lit 1 40)%f32
  /\ (forall k e, (k < MAX_ENEMIES)%nat -> enemies g !! k = Some (Some e) ->
        enemies (updateEnemies delta g) !! k
        = Some (Some (Enemy.mk (Enemy.px (moved_enemy delta g e))
                        (Enemy.py e + F32.of_Z 7)%f32
                        (Enemy.killReward e) (Enemy.shootTimer e))))
  /\ (forall k, (k < MAX_ENEMIES)%nat -> enemies g !! k = Some None ->
        enemies (updateEnemies delta g) !! k = Some None).
Proof.
  intros H.
  pose proof (move_phase_spec delta g) as (Hd & Hm & _ & _ & _ & _ & _ & _ & _ & Hen).
  rewrite (updateEnemies_turn_eq delta g H).
  rewrite turn_enemyDir, turn_ENEMY_SPEED_MULT, Hd, Hm.
  split; [reflexivity|]. split; [reflexivity|].
  split; [intros ->; exact Int_neg_1|].
  split; [intros ->; exact Int_neg_m1|].
  split; [reflexivity|]. split.
  - intros k e' Hk Hk'. rewrite turn_enemies_lookup, Hen.
    destruct (decide (k < MAX_ENEMIES)%nat); [|lia].
    rewrite Hk'. unfold moved_enemy.
    destruct (enemyDir g =? 1); reflexivity.
  - intros k Hk Hk'. rewrite turn_enemies_lookup, Hen.
    destruct (decide (k < MAX_ENEMIES)%nat); [|lia].
    rewrite Hk'. reflexivity.
Qed.

(** the enemy update changes neither direction, speed nor heights when no
    live enemy is at an edge after the move *)
Lemma updateEnemies_idle (delta : float) (g : Game) :
  (forall i e, (i < MAX_ENEMIES)%nat -> enemies g !! i = Some (Some e) ->
     at_edge (moved_enemy delta g e) = false) ->
  updateEnemies delta g = move_phase delta g.
Proof.
  intros H. unfold updateEnemies.
  pose proof (move_phase_spec delta g) as (_ & _ & _ & _ & _ & _ & _ & _ & _ & Hen).
  apply edge_scan_idle. intros i e Hi He.
  apply elem_of_seq in Hi. rewrite Hen in He.
  destruct (decide (i < MAX_ENEMIES)%nat); [|lia].
  destruct (enemies g !! i) as [[e0|]|] eqn:E; try discriminate.
  injection He as <-. apply (H i e0); [lia|exact E].
Qed.

Lemma updateEnemies_turns_once_witness :
  enemyDir (updateEnemies (F32.lit 1 60) edge_scenario) = 1
  /\ ENEMY_SPEED_MULT (updateEnemies (F32.lit 1 60) edge_scenario)
     = (F32.of_Z 1 + F32.lit 1 40)%f32.
Proof.
  assert (H : exists i e, (i < MAX_ENEMIES)%nat
              /\ enemies edge_scenario !! i = Some (Some e)
              /\ at_edge (moved_enemy (F32.lit 1 60) edge_scenario e) = true).
  { exists 0%nat, (Enemy.mk (F32.of_Z 29) (F32.of_Z 100) 10 (F32.lit 95 100)).
    split; [unfold MAX_ENEMIES; lia|]. split; reflexivity. }
  pose proof (updateEnemies_turns_once (F32.lit 1 60) edge_scenario H)
    as (_ & _ & _ & Hdir & Hmult & _).
  split; [apply Hdir; reflexivity|exact Hmult].
Defined.

(** on that scenario the enemy goes from y = 100 to y = 107, not to 107.5 *)
Lemma updateEnemies_descends_by_7_not_7_5 :
  exists e, enemies (updateEnemies (F32.lit 1 60) edge_scenario) !! 0%nat
            = Some (Some e)
    /\ Enemy.py e = F32.of_Z 107
    /\ Enemy.py e <> (F32.of_Z 100 + F32.lit 15 2)%f32.
Proof.
  eexists. split; [vm_compute; reflexivity|].
  split; [reflexivity|]. vm_compute. discriminate.
Qed.

(** ** Array sizes are preserved *)

Ltac gsimpl :=
  cbn [player enemies bullets particles ENEMY_SPEED_MULT enemyDir currentWave
       gameOver playGame rand_calls set_player set_enemies set_bullets
       set_particles set_ENEMY_SPEED_MULT set_enemyDir set_currentWave
       set_gameOver set_playGame set_rand_calls fst snd sh_game sh_index
       sh_found].

Lemma same_shape_refl (g : Game) : same_shape g g.
Proof. repeat split. Qed.

Lemma same_shape_trans (g1 g2 g3 : Game) :
  same_shape g1 g2 -> same_shape g2 g3 -> same_shape g1 g3.
Proof.
  unfold same_shape. intros (? & ? & ?) (? & ? & ?). repeat split; congruence.
Qed.

Lemma same_shape_wf (g g' : Game) : same_shape g g' -> wf g -> wf g'.
Proof.
  unfold same_shape, wf. intros (? & ? & ?) (? & ? & ?). repeat split; congruence.
Qed.

Lemma install_first_null_length {A : Type} (idxs : list nat) (v : A) (sl : pool A) :
  length (install_first_null idxs v sl) = length sl.
Proof.
  induction idxs as [|i rest IH]; [reflexivity|].
  simpl. destruct (sl !! i) as [[?|]|]; try exact IH. apply length_insert.
Qed.

Lemma createBullet_length (px py dir : Z) (bl : pool Bullet.t) :
  length (createBullet px py dir bl) = length bl.
Proof.
  unfold createBullet.
  destruct (dir =? -1); [|destruct (dir =? 1)]; apply install_first_null_length.
Qed.

Lemma createParticle_length (p : Particle.t) (pl : pool Particle.t) :
  length (createParticle p pl) = length pl.
Proof. apply install_first_null_length. Qed.

Ltac shape :=
  unfold same_shape; gsimpl;
  rewrite ?length_insert, ?createBullet_length, ?createParticle_length,
    ?length_insert;
  repeat split; try assumption; try congruence.

Lemma updatePlayer_shape (keys : Keys) (delta : float) (g : Game) :
  same_shape g (updatePlayer keys delta g).
Proof.
  unfold updatePlayer.
  destruct (SCANCODE_RIGHT keys), (SCANCODE_LEFT keys), (SCANCODE_SPACE keys);
    gsimpl;
    try match goal with |- context [if ?c then _ else _] => destruct c end;
    shape.
Qed.

Lemma updateBullets_shape (delta : float) (g : Game) :
  same_shape g (updateBullets delta g).
Proof.
  unfold updateBullets. apply (for_each_inv (fun _ t => same_shape g t)).
  - apply same_shape_refl.
  - intros i t _ (He & Hb & Hp). unfold updateBullets_body.
    destruct (bullets t !! i) as [[b|]|]; try (repeat split; assumption).
    gsimpl. match goal with |- context [if ?c then _ else _] => destruct c end;
      shape.
Qed.

Lemma updateParticles_shape (delta : float) (g : Game) :
  same_shape g (updateParticles delta g).
Proof.
  unfold updateParticles, same_shape. gsimpl. repeat split.
  apply (for_each_inv (fun _ t => length t = length (particles g))).
  - reflexivity.
  - intros i t _ Ht. unfold updateParticles_body.
    destruct (t !! i) as [[p|]|]; try exact Ht.
    match goal with |- context [if ?c then _ else _] => destruct c end;
      rewrite length_insert; exact Ht.
Qed.

Lemma turn_shape (g : Game) : same_shape g (turn g).
Proof.
  unfold turn, same_shape. gsimpl. repeat split.
  rewrite descend_slotwise. apply for_each_slotwise_length.
Qed.

Lemma edge_scan_shape (idxs : list nat) (g : Game) :
  same_shape g (edge_scan idxs g).
Proof.
  induction idxs as [|i rest IH]; [apply same_shape_refl|].
  simpl. destruct (enemies g !! i) as [[e|]|]; try exact IH.
  destruct (at_edge e); [apply turn_shape|exact IH].
Qed.

Lemma updateEnemies_shape (delta : float) (g : Game) :
  same_shape g (updateEnemies delta g).
Proof.
  unfold updateEnemies.
  apply (same_shape_trans _ (move_phase delta g)); [|apply edge_scan_shape].
  pose proof (move_phase_spec delta g) as (_ & _ & _ & Hb & Hp & _ & _ & _ & Hl & _).
  unfold same_shape. rewrite Hb, Hp. repeat split. exact Hl.
Qed.

Lemma shoot_body_shape (rng : nat -> Z) (delta : float) (j : nat) (st : ShootState) :
  same_shape (sh_game st) (sh_game (shoot_body rng delta j st)).
Proof.
  unfold shoot_body.
  destruct (slot_at (enemies (sh_game st)) (sh_index st)) as [[e|]|];
    try apply same_shape_refl.
  destruct (sh_found st !! j) as [f|]; [|apply same_shape_refl].
  destruct (negb (f =? 1)); [|apply same_shape_refl].
  match goal with |- context [if ?c then _ else _] => destruct c end; shape.
Qed.

Lemma enemyShoot_shape (rng : nat -> Z) (delta : float) (g : Game) :
  same_shape g (enemyShoot rng delta g).
Proof.
  unfold enemyShoot.
  apply (for_each_inv (fun _ st => same_shape g (sh_game st))).
  - apply same_shape_refl.
  - intros i st _ Hst.
    apply (for_each_inv (fun _ st' => same_shape g (sh_game st'))).
    + exact Hst.
    + intros j st' _ Hst'. unfold shoot_inner. gsimpl.
      eapply same_shape_trans; [exact Hst'|apply shoot_body_shape].
Qed.

Lemma enemy_test_shape (r : SDL_Rect) (i j : nat) (gh : Game * list Hit) :
  same_shape (fst gh) (fst (enemy_test r i j gh)).
Proof.
  destruct gh as [g hits]. unfold enemy_test.
  destruct (enemies g !! j) as [[e|]|]; try apply same_shape_refl.
  destruct (bullets g !! i) as [[b|]|]; try apply same_shape_refl.
  match goal with |- context [if ?c then _ else _] => destruct c end;
    [shape|apply same_shape_refl].
Qed.

Lemma player_test_shape (pr br : SDL_Rect) (i : nat) (gh : Game * list Hit) :
  same_shape (fst gh) (fst (player_test pr br i gh)).
Proof.
  destruct gh as [g hits]. unfold player_test.
  destruct (bullets g !! i) as [[b|]|]; try apply same_shape_refl.
  match goal with |- context [if ?c then _ else _] => destruct c end;
    [|apply same_shape_refl].
  gsimpl. match goal with |- context [if ?c then _ else _] => destruct c end;
    shape.
Qed.

Lemma bullet_step_shape (pr : SDL_Rect) (i : nat) (gh : Game * list Hit) :
  same_shape (fst gh) (fst (bullet_step pr i gh)).
Proof.
  unfold bullet_step.
  destruct (bullets (fst gh) !! i) as [[b|]|]; try apply same_shape_refl.
  eapply same_shape_trans; [|apply player_test_shape].
  apply (for_each_inv (fun _ t => same_shape (fst gh) (fst t))).
  - apply same_shape_refl.
  - intros j t _ Ht. eapply same_shape_trans; [exact Ht|apply enemy_test_shape].
Qed.

Lemma checkBulletCollisions_shape (g : Game) :
  same_shape g (checkBulletCollisions g).
Proof.
  unfold checkBulletCollisions, collide.
  apply (for_each_inv (fun _ t => same_shape g (fst t))).
  - apply same_shape_refl.
  - intros i t _ Ht. eapply same_shape_trans; [exact Ht|apply bullet_step_shape].
Qed.

Lemma freeEnemies_shape (g : Game) : same_shape g (freeEnemies g).
Proof.
  unfold freeEnemies, same_shape. gsimpl. rewrite free_all_length. repeat split.
Qed.

Lemma freeBullets_shape (g : Game) : same_shape g (freeBullets g).
Proof.
  unfold freeBullets, same_shape. gsimpl. rewrite free_all_length. repeat split.
Qed.

Lemma createEnemies_shape (g : Game) : same_shape g (createEnemies g).
Proof.
  split; [apply createEnemies_length|]. unfold createEnemies. gsimpl.
  split; reflexivity.
Qed.

Lemma game_over_branch_shape (g : Game) : same_shape g (game_over_branch g).
Proof.
  unfold game_over_branch. destruct (gameOver g); [|apply same_shape_refl].
  match goal with |- same_shape _ (set_gameOver ?a _) =>
    apply (same_shape_trans _ a); [|repeat split] end.
  eapply same_shape_trans; [|apply createEnemies_shape].
  eapply same_shape_trans; [|apply freeBullets_shape].
  eapply same_shape_trans; [|apply freeEnemies_shape].
  repeat split.
Qed.

Lemma wave_clear_branch_shape (g : Game) : same_shape g (wave_clear_branch g).
Proof.
  unfold wave_clear_branch.
  destruct (no_enemy_left (enemies g)); [|apply same_shape_refl].
  match goal with |- same_shape _ (set_player ?a _) =>
    apply (same_shape_trans _ a); [|repeat split] end.
  eapply same_shape_trans; [|apply createEnemies_shape].
  eapply same_shape_trans; [|apply freeEnemies_shape].
  repeat split.
Qed.

Lemma checkGameState_shape (g : Game) : same_shape g (checkGameState g).
Proof.
  unfold checkGameState.
  eapply same_shape_trans;
    [apply game_over_branch_shape|apply wave_clear_branch_shape].
Qed.

Lemma update_shape (rng : nat -> Z) (keys : Keys) (delta : float) (g : Game) :
  same_shape g (update rng keys delta g).
Proof.
  unfold update. destruct (playGame g).
  - eapply same_shape_trans; [|apply checkGameState_shape].
    eapply same_shape_trans; [|apply checkBulletCollisions_shape].
    eapply same_shape_trans; [|apply enemyShoot_shape].
    eapply same_shape_trans; [|apply updateParticles_shape].
    eapply same_shape_trans; [|apply updateEnemies_shape].
    eapply same_shape_trans; [|apply updateBullets_shape].
    apply updatePlayer_shape.
  - unfold checkGameStart. destruct (SCANCODE_SPACE keys); repeat split.
Qed.

Lemma wf_init : wf init.
Proof.
  unfold init. eapply same_shape_wf; [apply createEnemies_shape|].
  repeat split.
Qed.

(** every state the program reaches has arrays of the declared sizes *)
Lemma reachable_wf (rng : nat -> Z) (g : Game) : reachable rng g -> wf g.
Proof.
  induction 1 as [|keys delta g _ IH]; [apply wf_init|].
  eapply same_shape_wf; [apply update_shape|exact IH].
Qed.

(** ** Allocation in the bullet and particle arrays *)

Lemma createBullet_install (px py dir : Z) (bl : pool Bullet.t) :
  createBullet px py dir bl
  = install_first_null (seq 0 MAX_PROJECTILES) (new_bullet px py dir) bl.
Proof.
  unfold createBullet, new_bullet.
  destruct (dir =? -1); [|destruct (dir =? 1)]; reflexivity.
Qed.

Lemma createParticle_install (p : Particle.t) (pl : pool Particle.t) :
  createParticle p pl = install_first_null (seq 0 MAX_PARTICLES) p pl.
Proof. unfold createParticle. destruct p. reflexivity. Qed.

Section Install.
Context {A : Type}.
Implicit Types (v : A) (sl : pool A).

(** the scan stops at the first [NULL] slot *)
Lemma install_first_null_first (a n i : nat) v sl :
  (a <= i < a + n)%nat -> sl !! i = Some None ->
  (forall k, (a <= k < i)%nat -> sl !! k <> Some None) ->
  install_first_null (seq a n) v sl = <[i := Some v]> sl.
Proof.
  revert a. induction n as [|n IH]; intros a Hi Hnull Hbefore; [lia|].
  simpl. destruct (decide (a = i)) as [->|Hne].
  - rewrite Hnull. reflexivity.
  - assert (Ha : sl !! a <> Some None) by (apply Hbefore; lia).
    assert (Hrest : install_first_null (seq (S a) n) v sl = <[i := Some v]> sl).
    { apply IH; [lia|exact Hnull|]. intros k Hk. apply Hbefore. lia. }
    destruct (sl !! a) as [[?|]|]; try exact Hrest. congruence.
Qed.

(** without a [NULL] slot the array is left as it is *)
Lemma install_first_null_full (a n : nat) v sl :
  (forall k, (a <= k < a + n)%nat -> sl !! k <> Some None) ->
  install_first_null (seq a n) v sl = sl.
Proof.
  revert a. induction n as [|n IH]; intros a Hfull; [reflexivity|].
  simpl. assert (Ha : sl !! a <> Some None) by (apply Hfull; lia).
  assert (Hrest : install_first_null (seq (S a) n) v sl = sl).
  { apply IH. intros k Hk. apply Hfull. lia. }
  destruct (sl !! a) as [[?|]|]; try exact Hrest. congruence.
Qed.

(** a [NULL] slot in the scanned range is enough for the call to install
    the value, at or before that slot *)
Lemma install_first_null_some (a n i : nat) v sl :
  (a <= i < a + n)%nat -> sl !! i = Some None ->
  exists k, (a <= k <= i)%nat /\ sl !! k = Some None
            /\ (forall j, (a <= j < k)%nat -> sl !! j <> Some None)
            /\ install_first_null (seq a n) v sl = <[k := Some v]> sl.
Proof.
  revert a. induction n as [|n IH]; intros a Hi Hnull; [lia|].
  simpl. destruct (sl !! a) as [[x|]|] eqn:Ea.
  - destruct (decide (a = i)) as [->|Hne]; [congruence|].
    destruct (IH (S a) ltac:(lia) Hnull) as (k & Hk & Hkn & Hbefore & Heq).
    exists k. split; [lia|]. split; [exact Hkn|]. split; [|exact Heq].
    intros j Hj. destruct (decide (j = a)) as [->|?]; [congruence|].
    apply Hbefore. lia.
  - exists a. split; [lia|]. split; [exact Ea|]. split; [intros; lia|reflexivity].
  - destruct (decide (a = i)) as [->|Hne]; [congruence|].
    destruct (IH (S a) ltac:(lia) Hnull) as (k & Hk & Hkn & Hbefore & Heq).
    exists k. split; [lia|]. split; [exact Hkn|]. split; [|exact Heq].
    intros j Hj. destruct (decide (j = a)) as [->|?]; [congruence|].
    apply Hbefore. lia.
Qed.

(** after [slots[i] = NULL] the next allocation succeeds *)
Lemma install_after_release (n i : nat) v sl :
  (i < n)%nat -> (i < length sl)%nat ->
  exists k, (k <= i)%nat /\ <[i := None]> sl !! k = Some None
            /\ install_first_null (seq 0 n) v (<[i := None]> sl)
               = <[k := Some v]> (<[i := None]> sl).
Proof.
  intros Hi Hl.
  destruct (install_first_null_some 0 n i v (<[i := None]> sl))
    as (k & Hk & Hkn & _ & Heq).
  - lia.
  - apply list_lookup_insert_eq, Hl.
  - exists k. split; [lia|]. split; assumption.
Qed.
End Install.

(** C8: a spawn call installs the new bullet or particle in the first
    [NULL] slot in index order; with no [NULL] slot the arrays are left
    unchanged; in every reachable state the bullet and particle arrays hold
    at most 20 entities and the enemy array at most 55; and after a slot is
    released the next spawn call succeeds, at or before that slot. *)
Theorem spawn_uses_first_free_slot :
  (forall px py dir (bl : pool Bullet.t) i,
     (i < MAX_PROJECTILES)%nat -> bl !! i = Some None ->
     (forall k, (k < i)%nat -> bl !! k <> Some None) ->
     createBullet px py dir bl = <[i := Some (new_bullet px py dir)]> bl)
  /\ (forall px py dir (bl : pool Bullet.t),
        (forall k, (k < MAX_PROJECTILES)%nat -> bl !! k <> Some None) ->
        createBullet px py dir bl = bl)
  /\ (forall p (pl : pool Particle.t) i,
        (i < MAX_PARTICLES)%nat -> pl !! i = Some None ->
        (forall k, (k < i)%nat -> pl !! k <> Some None) ->
        createParticle p pl = <[i := Some p]> pl)
  /\ (forall p (pl : pool Particle.t),
        (forall k, (k < MAX_PARTICLES)%nat -> pl !! k <> Some None) ->
        createParticle p pl = pl)
  /\ (forall rng g, reachable rng g ->
        (live_count (bullets g) <= 20)%nat
        /\ (live_count (particles g) <= 20)%nat
        /\ (live_count (enemies g) <= 55)%nat)
  /\ (forall px py dir (bl : pool Bullet.t) i,
        (i < MAX_PROJECTILES)%nat -> length bl = MAX_PROJECTILES ->
        exists k, (k <= i)%nat /\ <[i := None]> bl !! k = Some None
          /\ createBullet px py dir (<[i := None]> bl)
             = <[k := Some (new_bullet px py dir)]> (<[i := None]> bl))
  /\ (forall p (pl : pool Particle.t) i,
        (i < MAX_PARTICLES)%nat -> length pl = MAX_PARTICLES ->
        exists k, (k <= i)%nat /\ <[i := None]> pl !! k = Some None
          /\ createParticle p (<[i := None]> pl)
             = <[k := Some p]> (<[i := None]> pl)).
Proof.
  split.
  { intros px py dir bl i Hi Hnull Hbefore. rewrite createBullet_install.
    apply install_first_null_first; [lia|exact Hnull|].
    intros k Hk. apply Hbefore. lia. }
  split.
  { intros px py dir bl Hfull. rewrite createBullet_install.
    apply install_first_null_full. intros k Hk. apply Hfull. lia. }
  split.
  { intros p pl i Hi Hnull Hbefore. rewrite createParticle_install.
    apply install_first_null_first; [lia|exact Hnull|].
    intros k Hk. apply Hbefore. lia. }
  split.
  { intros p pl Hfull. rewrite createParticle_install.
    apply install_first_null_full. intros k Hk. apply Hfull. lia. }
  split.
  { intros rng g Hr. destruct (reachable_wf rng g Hr) as (He & Hb & Hp).
    pose proof (live_count_le (bullets g)) as H1.
    pose proof (live_count_le (particles g)) as H2.
    pose proof (live_count_le (enemies g)) as H3.
    rewrite Hb in H1. rewrite Hp in H2. rewrite He in H3.
    unfold MAX_PROJECTILES in H1. unfold MAX_PARTICLES in H2.
    unfold MAX_ENEMIES in H3. repeat split; assumption. }
  split.
  { intros px py dir bl i Hi Hlen. rewrite createBullet_install.
    apply install_after_release; [exact Hi|rewrite Hlen; exact Hi]. }
  intros p pl i Hi Hlen. rewrite createParticle_install.
  apply install_after_release; [exact Hi|rewrite Hlen; exact Hi].
Qed.

(** ** Enemy shooting *)

Lemma live_at_true (en : pool Enemy.t) (k : nat) :
  live_at en k = true <-> exists e, en !! k = Some (Some e).
Proof.
  unfold live_at. destruct (en !! k) as [[e|]|]; split;
    try discriminate; try (intros [? ?]; discriminate).
  - intros _. exists e. reflexivity.
  - reflexivity.
Qed.

Lemma shadowed_true (en : pool Enemy.t) (k : nat) :
  shadowed en k = true
  <-> exists k', (k < k' < MAX_ENEMIES)%nat /\ scan_pos k' = scan_pos k
                 /\ live_at en k' = true.
Proof.
  unfold shadowed. rewrite existsb_exists. split.
  - intros (k' & Hin & H). apply in_seq in Hin.
    apply andb_prop in H as [H Hl]. apply andb_prop in H as [Hlt Hs].
    apply Nat.ltb_lt in Hlt. apply Nat.eqb_eq in Hs.
    exists k'. repeat split; try assumption; lia.
  - intros (k' & Hk & Hs & Hl). exists k'. split; [apply in_seq; lia|].
    rewrite Hl, Hs, Nat.eqb_refl, !andb_true_r. apply Nat.ltb_lt. lia.
Qed.

Lemma scan_pos_lt (k : nat) : (scan_pos k < 11)%nat.
Proof. unfold scan_pos. apply Nat.mod_upper_bound. lia. Qed.

Lemma scan_pos_visit (i j : nat) :
  (j < 11)%nat -> (11 * i + j < 55)%nat -> scan_pos (54 - (11 * i + j)) = j.
Proof.
  intros Hj Ht. unfold scan_pos.
  replace (54 - (54 - (11 * i + j)))%nat with (j + i * 11)%nat by lia.
  rewrite Nat.Div0.mod_add. apply Nat.mod_small, Hj.
Qed.

(** two front enemies never share a scan position *)
Lemma front_scan_pos_inj (en : pool Enemy.t) (k1 k2 : nat) :
  front en k1 = true -> front en k2 = true -> scan_pos k1 = scan_pos k2 -> k1 = k2.
Proof.
  unfold front. intros H1 H2 Hs.
  apply andb_prop in H1 as [H1 Hn1]. apply andb_prop in H1 as [Hb1 Hl1].
  apply andb_prop in H2 as [H2 Hn2]. apply andb_prop in H2 as [Hb2 Hl2].
  apply Nat.ltb_lt in Hb1, Hb2.
  apply negb_true_iff in Hn1, Hn2.
  destruct (Nat.lt_trichotomy k1 k2) as [Hlt|[Heq|Hgt]]; [|exact Heq|].
  - exfalso. assert (shadowed en k1 = true); [|congruence].
    apply shadowed_true. exists k2. repeat split; auto; lia.
  - exfalso. assert (shadowed en k2 = true); [|congruence].
    apply shadowed_true. exists k1. repeat split; auto; lia.
Qed.

(** at most 11 enemies are front enemies *)
Lemma front_count (en : pool Enemy.t) :
  (length (filter (fun k => front en k = true) (seq 0 MAX_ENEMIES)) <= 11)%nat.
Proof.
  set (fs := filter (fun k => front en k = true) (seq 0 MAX_ENEMIES)).
  rewrite <- (length_fmap scan_pos fs).
  change 11%nat with (length (seq 0 11)).
  apply submseteq_length, NoDup_submseteq.
  - apply NoDup_fmap_2_strong.
    + intros k1 k2 H1 H2. apply list_elem_of_filter in H1 as [H1 _].
      apply list_elem_of_filter in H2 as [H2 _].
      apply (front_scan_pos_inj en); assumption.
    + apply NoDup_filter, NoDup_seq.
  - intros j Hj. apply list_elem_of_fmap in Hj as (k & -> & _).
    apply elem_of_seq. pose proof (scan_pos_lt k). lia.
Qed.

Lemma shoot_body_fires (rng : nat -> Z) (delta : float) (j : nat) (st : ShootState)
  (e : Enemy.t) (f : Z) :
  slot_at (enemies (sh_game st)) (sh_index st) = Some (Some e) ->
  sh_found st !! j = Some f -> f <> 1 ->
  exists t', (t' = (Enemy.shootTimer e - delta)%f32 \/ t' = (F32.of_Z 1 - delta)%f32)
    /\ enemies (sh_game (shoot_body rng delta j st))
       = <[Z.to_nat (sh_index st) := Some (Enemy.set_shootTimer e t')]>
           (enemies (sh_game st))
    /\ sh_found (shoot_body rng delta j st) = <[j := 1]> (sh_found st)
    /\ sh_index (shoot_body rng delta j st) = sh_index st.
Proof.
  intros He Hf Hne. unfold shoot_body. rewrite He, Hf.
  destruct (Z.eqb_spec f 1) as [?|_]; [contradiction|]. cbn [negb].
  match goal with |- context [if ?c then _ else _] => destruct c end.
  - exists (F32.of_Z 1 - delta)%f32. gsimpl. repeat split. right. reflexivity.
  - exists (Enemy.shootTimer e - delta)%f32. gsimpl. repeat split. left. reflexivity.
Qed.

Lemma shoot_body_skips (rng : nat -> Z) (delta : float) (j : nat) (st : ShootState) :
  (forall e, slot_at (enemies (sh_game st)) (sh_index st) <> Some (Some e))
  \/ sh_found st !! j = Some 1 ->
  shoot_body rng delta j st = st.
Proof.
  intros H. unfold shoot_body.
  destruct (slot_at (enemies (sh_game st)) (sh_index st)) as [[e|]|];
    try reflexivity.
  destruct H as [H|H]; [exfalso; apply (H e); reflexivity|].
  rewrite H. reflexivity.
Qed.

Lemma shoot_inv_start (delta : float) (g : Game) :
  shoot_inv delta g 0 (mkShoot (Z.of_nat MAX_ENEMIES - 1) (replicate 11 0) g).
Proof.
  unfold shoot_inv. gsimpl. split; [reflexivity|]. split; [reflexivity|].
  split.
  { intros j f Hf. apply lookup_replicate in Hf as [-> _]. split; [discriminate|].
    intros (k & Hk & Hk' & _). lia. }
  split; [reflexivity|]. split; [reflexivity|].
  intros k e Hk Hfront. unfold front in Hfront.
  apply andb_prop in Hfront as [Hfront _]. apply andb_prop in Hfront as [Hb _].
  apply Nat.ltb_lt in Hb. unfold MAX_ENEMIES in Hb. lia.
Qed.

Lemma front_true (en : pool Enemy.t) (k : nat) :
  front en k = true
  <-> (k < MAX_ENEMIES)%nat /\ live_at en k = true /\ shadowed en k = false.
Proof.
  unfold front. rewrite !andb_true_iff, negb_true_iff, Nat.ltb_lt. tauto.
Qed.

Lemma shoot_inv_step (rng : nat -> Z) (delta : float) (g : Game) (i j : nat)
  (st : ShootState) :
  (j < 11)%nat -> (11 * i + j < 55)%nat ->
  shoot_inv delta g (11 * i + j) st ->
  shoot_inv delta g (S (11 * i + j)) (shoot_inner rng delta j st).
Proof.
  intros Hj Ht (Hidx & Hlen & Hfound & Hlow & Hback & Hfront).
  pose proof (scan_pos_visit i j Hj Ht) as Hpos.
  remember (11 * i + j)%nat as t eqn:Et.
  remember (54 - t)%nat as k0 eqn:Ek0.
  assert (Hk0 : Z.to_nat (sh_index st) = k0) by (rewrite Hidx; lia).
  assert (Hslot : slot_at (enemies (sh_game st)) (sh_index st) = enemies g !! k0).
  { unfold slot_at. rewrite Hk0.
    destruct (Z.ltb_spec (sh_index st) 0); [lia|]. apply Hlow. lia. }
  destruct (lookup_lt_is_Some_2 (sh_found st) j) as [f Hf]; [lia|].
  assert (Hnext : forall z, z = sh_index st -> Int.sub z 1 = 54 - Z.of_nat (S t)).
  { intros z ->. rewrite Hidx. unfold Int.sub. rewrite Int_wrap_id; [lia|].
    unfold Int.in_range, Int.INT_MIN, Int.INT_MAX. lia. }
  assert (Hold : forall k, (55 <= k + S t)%nat -> k <> k0 -> (55 <= k + t)%nat)
    by (intros; lia).
  assert (Hshadow : f = 1 -> shadowed (enemies g) k0 = true).
  { intros ->. destruct (proj1 (Hfound j 1 Hf) eq_refl) as (k & Hk1 & Hk2 & Hk3 & Hk4).
    apply shadowed_true. exists k. unfold MAX_ENEMIES.
    repeat split; try assumption; try lia; try congruence. }
  (* the visit leaves the state alone *)
  assert (Hskip : shoot_body rng delta j st = st ->
                  (live_at (enemies g) k0 = true -> f = 1) ->
                  shoot_inv delta g (S t) (shoot_inner rng delta j st)).
  { intros Hst Hlive. unfold shoot_inner. rewrite Hst. unfold shoot_inv. gsimpl.
    split; [apply Hnext; reflexivity|]. split; [exact Hlen|]. split.
    { intros j' f' Hf'. split.
      - intros H1. destruct (proj1 (Hfound j' f' Hf') H1) as (k & Hk1 & Hk2 & Hk3 & Hk4).
        exists k. repeat split; try assumption. lia.
      - intros (k & Hk1 & Hk2 & Hk3 & Hk4).
        destruct (decide (k = k0)) as [->|Hne].
        + assert (Hjj : j' = j) by congruence.
          rewrite Hjj, Hf in Hf'. injection Hf' as <-. apply Hlive, Hk4.
        + apply (Hfound j' f' Hf'). exists k. repeat split; auto. }
    split; [intros k Hk; apply Hlow; lia|]. split; [exact Hback|].
    intros k e Hk Hfr He. apply Hfront; try assumption.
    apply Hold; [exact Hk|]. intros ->.
    apply front_true in Hfr as (_ & Hl & Hs).
    rewrite (Hshadow (Hlive Hl)) in Hs. discriminate. }
  destruct (enemies g !! k0) as [[e|]|] eqn:E0.
  - destruct (Z.eq_dec f 1) as [Hf1|Hne].
    + apply Hskip; [|intros _; exact Hf1].
      apply shoot_body_skips. right. rewrite Hf, Hf1. reflexivity.
    + destruct (shoot_body_fires rng delta j st e f Hslot Hf Hne)
        as (t' & Ht' & Hen & Hfo & Hix).
      assert (Hlive0 : live_at (enemies g) k0 = true)
        by (unfold live_at; rewrite E0; reflexivity).
      assert (Hfr0 : front (enemies g) k0 = true).
      { apply front_true. split; [unfold MAX_ENEMIES; lia|]. split; [exact Hlive0|].
        destruct (shadowed (enemies g) k0) eqn:Es; [|reflexivity].
        exfalso. apply Hne.
        apply shadowed_true in Es as (k & Hk1 & Hk2 & Hk3).
        apply (Hfound j f Hf). exists k. unfold MAX_ENEMIES in Hk1.
        repeat split; try assumption; try lia; try congruence. }
      unfold shoot_inner, shoot_inv. gsimpl. rewrite Hen, Hfo, Hk0.
      split; [apply Hnext; exact Hix|].
      split; [rewrite length_insert; exact Hlen|]. split.
      { intros j' f' Hf'. destruct (decide (j' = j)) as [->|Hnej].
        - rewrite list_lookup_insert_eq in Hf' by lia. injection Hf' as <-.
          split; [intros _|reflexivity].
          exists k0. repeat split; try assumption; lia.
        - rewrite list_lookup_insert_ne in Hf' by congruence. split.
          + intros H1.
            destruct (proj1 (Hfound j' f' Hf') H1) as (k & Hk1 & Hk2 & Hk3 & Hk4).
            exists k. repeat split; try assumption. lia.
          + intros (k & Hk1 & Hk2 & Hk3 & Hk4).
            apply (Hfound j' f' Hf'). exists k. repeat split; try assumption.
            apply Hold; [exact Hk1|]. intros ->. congruence. }
      split.
      { intros k Hk. rewrite list_lookup_insert_ne by lia. apply Hlow. lia. }
      split.
      { intros k Hk. rewrite list_lookup_insert_ne by (intros ->; congruence).
        apply Hback, Hk. }
      intros k e' Hk Hfr He'. destruct (decide (k = k0)) as [->|Hnek].
      * rewrite E0 in He'. injection He' as <-. exists t'. split; [|exact Ht'].
        apply list_lookup_insert_eq.
        apply (lookup_lt_Some _ _ (Some e)). rewrite Hlow by lia. exact E0.
      * rewrite list_lookup_insert_ne by congruence. apply Hfront; auto.
  - apply Hskip; [|unfold live_at; rewrite E0; discriminate].
    apply shoot_body_skips. left. intros e. rewrite Hslot. discriminate.
  - apply Hskip; [|unfold live_at; rewrite E0; discriminate].
    apply shoot_body_skips. left. intros e. rewrite Hslot. discriminate.
Qed.

Lemma enemyShoot_inv (rng : nat -> Z) (delta : float) (g : Game) :
  exists st, enemyShoot rng delta g = sh_game st /\ shoot_inv delta g 55 st.
Proof.
  unfold enemyShoot. eexists. split; [reflexivity|].
  apply (for_each_inv (fun i st => shoot_inv delta g (11 * i) st)).
  - apply shoot_inv_start.
  - intros i st Hi Hst.
    replace (11 * S i)%nat with (11 * i + 11)%nat by lia.
    apply (for_each_inv (fun j st' => shoot_inv delta g (11 * i + j) st')).
    + rewrite Nat.add_0_r. exact Hst.
    + intros j st' Hj Hst'.
      replace (11 * i + S j)%nat with (S (11 * i + j)) by lia.
      apply shoot_inv_step; [exact Hj|lia|exact Hst'].
Qed.

(** C9: in one call of [enemyShoot] only the front enemies, the first live
    enemy met at each of the 11 scan positions when the slots are visited
    from 54 down to 0, can fire or have their shoot timer decremented, and
    there are at most 11 of them; a front enemy keeps its position and kill
    reward and gets the shoot timer [timer - delta], or [1 - delta] if it
    fired; every other slot, live or empty, is left exactly as it was. *)
Theorem enemyShoot_front_only (rng : nat -> Z) (delta : float) (g : Game) :
  (length (filter (fun k => front (enemies g) k = true) (seq 0 MAX_ENEMIES)) <= 11)%nat
  /\ (forall k, front (enemies g) k = false ->
        enemies (enemyShoot rng delta g) !! k = enemies g !! k)
  /\ (forall k k' e, enemies g !! k = Some (Some e) ->
        (k < k' < MAX_ENEMIES)%nat -> scan_pos k' = scan_pos k ->
        live_at (enemies g) k' = true ->
        enemies (enemyShoot rng delta g) !! k = Some (Some e))
  /\ (forall k e, front (enemies g) k = true -> enemies g !! k = Some (Some e) ->
        exists t',
          enemies (enemyShoot rng delta g) !! k
          = Some (Some (Enemy.mk (Enemy.px e) (Enemy.py e) (Enemy.killReward e) t'))
          /\ (t' = (Enemy.shootTimer e - delta)%f32
              \/ t' = (F32.of_Z 1 - delta)%f32)).
Proof.
  destruct (enemyShoot_inv rng delta g) as (st & -> & (_ & _ & _ & _ & Hback & Hfront)).
  split; [apply front_count|]. split; [exact Hback|]. split.
  - intros k k' e He Hk Hs Hl. rewrite <- He. apply Hback.
    destruct (front (enemies g) k) eqn:Ef; [|reflexivity].
    apply front_true in Ef as (_ & _ & Hsh).
    assert (shadowed (enemies g) k = true); [|congruence].
    apply shadowed_true. exists k'. repeat split; try assumption; lia.
  - intros k e Hf He. apply Hfront; try assumption.
    apply front_true in Hf as (Hk & _). unfold MAX_ENEMIES in Hk. lia.
Qed.

Lemma enemyShoot_front_only_witness :
  enemies (enemyShoot (fun _ => 0) (F32.lit 1 60) init) !! 12%nat
  = enemies init !! 12%nat.
Proof.
  apply (proj1 (proj2 (enemyShoot_front_only (fun _ => 0) (F32.lit 1 60) init))).
  vm_compute. reflexivity.
Defined.

(** ** Collisions *)

Lemma collide_inv_start (g : Game) : collide_inv g (g, []).
Proof.
  unfold collide_inv. cbn [fst snd].
  split; [auto|]. split; [intros i j H; inversion H|].
  split; [intros i H; inversion H|]. split; [auto|]. split; [auto|].
  intros (i & H). inversion H.
Qed.

Lemma insert_None_sub {A : Type} (sl : pool A) (i k : nat) (v : A) :
  <[i := None]> sl !! k = Some (Some v) -> sl !! k = Some (Some v).
Proof.
  intros H. apply list_lookup_insert_Some in H as [(_ & H & _)|(_ & H)];
    [discriminate|exact H].
Qed.

Lemma enemy_test_inv (g : Game) (r : SDL_Rect) (i j : nat) (gh : Game * list Hit) :
  collide_inv g gh -> collide_inv g (enemy_test r i j gh).
Proof.
  destruct gh as [gt hits]. intros Hinv. unfold enemy_test.
  destruct (enemies gt !! j) as [[e|]|]; try exact Hinv.
  destruct (bullets gt !! i) as [[b|]|] eqn:Eb; try exact Hinv.
  destruct (SDL_HasIntersection r (enemyRect_of e) && negb (Bullet.vy b =? 1))
    eqn:Ec; [|exact Hinv].
  apply andb_prop in Ec as [_ Ec]. apply negb_true_iff, Z.eqb_neq in Ec.
  destruct Hinv as (Hsub & Hen & Hpl & Hkeep & _ & Hreset).
  unfold collide_inv in *. cbn [fst snd] in *. gsimpl.
  split; [intros k b' H; apply Hsub; eapply insert_None_sub; exact H|].
  split.
  { intros i' j' H. apply elem_of_app in H as [H|H]; [apply Hen with j'; exact H|].
    apply list_elem_of_singleton in H. injection H as -> ->.
    exists b. split; [apply Hsub; exact Eb|exact Ec]. }
  split.
  { intros i' H. apply elem_of_app in H as [H|H]; [apply Hpl; exact H|].
    apply list_elem_of_singleton in H. discriminate. }
  split.
  { intros H. apply Hkeep. intros i' Hi'. apply (H i').
    apply elem_of_app. left. exact Hi'. }
  split.
  { intros H. exfalso. apply (H i j). apply elem_of_app. right.
    apply list_elem_of_singleton. reflexivity. }
  intros (i' & H). apply Hreset. exists i'.
  apply elem_of_app in H as [H|H]; [exact H|].
  apply list_elem_of_singleton in H. discriminate.
Qed.

Lemma player_test_inv (g : Game) (pr br : SDL_Rect) (i : nat) (gh : Game * list Hit) :
  collide_inv g gh -> collide_inv g (player_test pr br i gh).
Proof.
  destruct gh as [gt hits]. intros Hinv. unfold player_test.
  destruct (bullets gt !! i) as [[b|]|] eqn:Eb; try exact Hinv.
  destruct (SDL_HasIntersection br pr && negb (Bullet.vy b =? -1))
    eqn:Ec; [|exact Hinv].
  apply andb_prop in Ec as [_ Ec]. apply negb_true_iff, Z.eqb_neq in Ec.
  destruct Hinv as (Hsub & Hen & Hpl & _ & Hkeep & _).
  unfold collide_inv in *. cbn [fst snd] in *. gsimpl.
  match goal with |- context [if ?c then _ else _] => destruct c end; gsimpl.
  all: split; [intros k b' H; apply Hsub; eapply insert_None_sub; exact H|].
  all: split;
    [intros i' j' H; apply elem_of_app in H as [H|H];
     [apply Hen with j'; exact H|apply list_elem_of_singleton in H; discriminate]|].
  all: split;
    [intros i' H; apply elem_of_app in H as [H|H];
     [apply Hpl; exact H|];
     apply list_elem_of_singleton in H; injection H as ->;
     exists b; split; [apply Hsub; exact Eb|exact Ec]|].
  all: split;
    [intros H; exfalso; apply (H i); apply elem_of_app; right;
     apply list_elem_of_singleton; reflexivity|].
  all: split;
    [intros H; apply Hkeep; intros i' j' Hi'; apply (H i' j');
     apply elem_of_app; left; exact Hi'|].
  all: intros _; split; reflexivity.
Qed.

Lemma bullet_step_inv (g : Game) (pr : SDL_Rect) (i : nat) (gh : Game * list Hit) :
  collide_inv g gh -> collide_inv g (bullet_step pr i gh).
Proof.
  intros Hinv. unfold bullet_step.
  destruct (bullets (fst gh) !! i) as [[b|]|]; try exact Hinv.
  apply player_test_inv.
  apply (for_each_inv (fun _ t => collide_inv g t)); [exact Hinv|].
  intros j t _ Ht. apply enemy_test_inv, Ht.
Qed.

Lemma collide_inv_end (g : Game) : collide_inv g (collide g).
Proof.
  unfold collide.
  apply (for_each_inv (fun _ t => collide_inv g t)); [apply collide_inv_start|].
  intros i t _ Ht. apply bullet_step_inv, Ht.
Qed.

(** C1: in [checkBulletCollisions] a bullet with [vy = -1] never registers a
    hit against the player and a bullet with [vy = 1] never registers a hit
    against an enemy.  Hence when every live bullet goes up the player's
    lives and position and the game-over flag are unchanged, and when every
    live bullet goes down the enemy array and the score are unchanged. *)
Theorem bullets_hit_the_opposing_side_only (g : Game) :
  (forall i b, bullets g !! i = Some (Some b) ->
     (Bullet.vy b = -1 -> PlayerHit i ∉ hits_of g)
     /\ (Bullet.vy b = 1 -> forall j, EnemyHit i j ∉ hits_of g))
  /\ (forall i, PlayerHit i ∈ hits_of g ->
        exists b, bullets g !! i = Some (Some b) /\ Bullet.vy b <> -1)
  /\ (forall i j, EnemyHit i j ∈ hits_of g ->
        exists b, bullets g !! i = Some (Some b) /\ Bullet.vy b <> 1)
  /\ ((forall i b, bullets g !! i = Some (Some b) -> Bullet.vy b = -1) ->
        Player.livesLeft (player (checkBulletCollisions g))
          = Player.livesLeft (player g)
        /\ Player.px (player (checkBulletCollisions g)) = Player.px (player g)
        /\ Player.py (player (checkBulletCollisions g)) = Player.py (player g)
        /\ gameOver (checkBulletCollisions g) = gameOver g)
  /\ ((forall i b, bullets g !! i = Some (Some b) -> Bullet.vy b = 1) ->
        enemies (checkBulletCollisions g) = enemies g
        /\ Player.score (player (checkBulletCollisions g))
           = Player.score (player g)).
Proof.
  destruct (collide_inv_end g) as (_ & Hen & Hpl & Hkeep & Hkeep' & _).
  unfold hits_of, checkBulletCollisions.
  split.
  { intros i b Hb. split.
    - intros Hv Hin. destruct (Hpl i Hin) as (b' & Hb' & Hne). congruence.
    - intros Hv j Hin. destruct (Hen i j Hin) as (b' & Hb' & Hne). congruence. }
  split; [exact Hpl|]. split; [exact Hen|]. split.
  - intros Hall. apply Hkeep. intros i Hin.
    destruct (Hpl i Hin) as (b & Hb & Hne). apply Hne, (Hall i b Hb).
  - intros Hall. apply Hkeep'. intros i j Hin.
    destruct (Hen i j Hin) as (b & Hb & Hne). apply Hne, (Hall i b Hb).
Qed.

Lemma enemy_test_down (r : SDL_Rect) (i j : nat) (gh : Game * list Hit) (b : Bullet.t) :
  bullets (fst gh) !! i = Some (Some b) -> Bullet.vy b = 1 ->
  enemy_test r i j gh = gh.
Proof.
  destruct gh as [g hits]. cbn [fst]. intros Hb Hv. unfold enemy_test.
  destruct (enemies g !! j) as [[e|]|]; try reflexivity.
  rewrite Hb, Hv, andb_false_r. reflexivity.
Qed.

Lemma enemy_loop_down (r : SDL_Rect) (i n : nat) (gh : Game * list Hit) (b : Bullet.t) :
  bullets (fst gh) !! i = Some (Some b) -> Bullet.vy b = 1 ->
  for_each n (enemy_test r i) gh = gh.
Proof.
  intros Hb Hv. apply (for_each_inv (fun _ t => t = gh)); [reflexivity|].
  intros j t _ ->. apply (enemy_test_down r i j gh b Hb Hv).
Qed.

(** C6, as the code has it: when the loop of [checkBulletCollisions] reaches
    a live bullet with [vy = 1] whose rectangle meets the player rectangle,
    a ship-explosion particle of lifetime 0.5 is spawned at the bullet's
    position, the bullet slot becomes [NULL], the lives go down by one, the
    game-over flag is set when the lives left are [<= 0] and otherwise kept,
    and the player is put at (320, 446), the integer value of
    [WINDOW_HEIGHT - WINDOW_HEIGHT / 14]; enemies and score are untouched. *)
Theorem enemy_bullet_hits_player (pr : SDL_Rect) (i : nat) (g : Game)
  (hits : list Hit) (b : Bullet.t) :
  bullets g !! i = Some (Some b) -> Bullet.vy b = 1 ->
  SDL_HasIntersection (bulletRect_of b) pr = true ->
  Int.INT_MIN < Player.livesLeft (player g) <= Int.INT_MAX ->
  particles (fst (bullet_step pr i (g, hits)))
    = createParticle
        (Particle.mk (Bullet.px b) (Bullet.py b) (F32.lit 1 2) SHIP_EXPLOSION)
        (particles g)
  /\ bullets (fst (bullet_step pr i (g, hits))) = <[i := None]> (bullets g)
  /\ Player.livesLeft (player (fst (bullet_step pr i (g, hits))))
     = Player.livesLeft (player g) - 1
  /\ gameOver (fst (bullet_step pr i (g, hits)))
     = gameOver g || (Player.livesLeft (player g) - 1 <=? 0)
  /\ (gameOver g = false ->
        (gameOver (fst (bullet_step pr i (g, hits))) = true
         <-> Player.livesLeft (player g) - 1 <= 0))
  /\ Player.px (player (fst (bullet_step pr i (g, hits)))) = F32.of_Z 320
  /\ Player.py (player (fst (bullet_step pr i (g, hits)))) = F32.of_Z 446
  /\ enemies (fst (bullet_step pr i (g, hits))) = enemies g
  /\ Player.score (player (fst (bullet_step pr i (g, hits))))
     = Player.score (player g)
  /\ snd (bullet_step pr i (g, hits)) = hits ++ [PlayerHit i].
Proof.
  intros Hb Hv Hmeet Hlives.
  assert (Hsub : Int.sub (Player.livesLeft (player g)) 1
                 = Player.livesLeft (player g) - 1).
  { unfold Int.sub. apply Int_wrap_id.
    unfold Int.in_range, Int.INT_MIN, Int.INT_MAX in *. lia. }
  unfold bullet_step. cbn [fst]. rewrite Hb.
  rewrite (enemy_loop_down _ i MAX_ENEMIES (g, hits) b Hb Hv).
  unfold player_test. rewrite Hb, Hmeet, Hv. cbn [andb negb Z.eqb].
  gsimpl. cbn [Player.livesLeft Player.set_livesLeft]. rewrite Hsub.
  destruct (Z.leb_spec (Player.livesLeft (player g) - 1) 0) as [Hle|Hgt];
    gsimpl; rewrite ?orb_true_r, ?orb_false_r.
  - repeat split; tauto.
  - repeat split; try tauto; intros; try congruence; lia.
Qed.

Lemma enemy_bullet_hits_player_witness :
  Player.livesLeft
    (player (fst (bullet_step (playerRect_of (player last_life_scenario)) 0
                    (last_life_scenario, [])))) = 0
  /\ gameOver (fst (bullet_step (playerRect_of (player last_life_scenario)) 0
                      (last_life_scenario, []))) = true.
Proof.
  assert (Hl : Int.INT_MIN < Player.livesLeft (player last_life_scenario)
               <= Int.INT_MAX).
  { unfold Int.INT_MIN, Int.INT_MAX. simpl. lia. }
  pose proof (enemy_bullet_hits_player
                (playerRect_of (player last_life_scenario)) 0
                last_life_scenario []
                (Bullet.mk (F32.of_Z 205) (F32.of_Z 440) 1)
                eq_refl eq_refl eq_refl Hl) as (_ & _ & Hlives & Hgo & _).
  split; [exact Hlives|exact Hgo].
Defined.

(** on that scenario the player is put at height 446, which is neither
    [480 - 480 / 14] computed in floating point nor a number that rounds to
    445.7 *)
Lemma player_respawns_at_446_not_445_7 :
  Player.py (player (checkBulletCollisions last_life_scenario)) = F32.of_Z 446
  /\ Player.py (player (checkBulletCollisions last_life_scenario))
     <> (F32.of_Z 480 - F32.div (F32.of_Z 480) (F32.of_Z 14))%f32
  /\ (F32.lit 44575 100
      <? Player.py (player (checkBulletCollisions last_life_scenario)))%f32 = true.
Proof.
  split; [vm_compute; reflexivity|].
  split; [vm_compute; discriminate|vm_compute; reflexivity].
Qed.

(** ** The player's horizontal position *)

Lemma update_playing (rng : nat -> Z) (keys : Keys) (delta : float) (g : Game) :
  playGame g = true ->
  update rng keys delta g
  = checkGameState (checkBulletCollisions (before_collisions rng keys delta g)).
Proof.
  intros H. unfold update, before_collisions. rewrite H.
  cbv beta iota zeta. reflexivity.
Qed.

Lemma updatePlayer_px (keys : Keys) (delta : float) (g : Game) :
  Player.px (player (updatePlayer keys delta g))
  = let x := Player.px (player g) in
    let x := if SCANCODE_RIGHT keys then (x + F32.of_Z PLAYER_SPEED * delta)%f32 else x in
    if SCANCODE_LEFT keys then (x - F32.of_Z PLAYER_SPEED * delta)%f32 else x.
Proof.
  unfold updatePlayer.
  destruct (SCANCODE_RIGHT keys), (SCANCODE_LEFT keys), (SCANCODE_SPACE keys);
    gsimpl;
    try match goal with |- context [if ?c then _ else _] => destruct c end;
    reflexivity.
Qed.

Lemma updateBullets_player (delta : float) (g : Game) :
  player (updateBullets delta g) = player g.
Proof.
  unfold updateBullets. apply (for_each_inv (fun _ t => player t = player g)).
  - reflexivity.
  - intros i t _ Ht. unfold updateBullets_body.
    destruct (bullets t !! i) as [[b|]|]; try exact Ht.
    match goal with |- context [if ?c then _ else _] => destruct c end;
      gsimpl; exact Ht.
Qed.

Lemma edge_scan_player (idxs : list nat) (g : Game) :
  player (edge_scan idxs g) = player g.
Proof.
  induction idxs as [|i rest IH]; [reflexivity|].
  simpl. destruct (enemies g !! i) as [[e|]|]; try exact IH.
  destruct (at_edge e); [reflexivity|exact IH].
Qed.

Lemma updateEnemies_player (delta : float) (g : Game) :
  player (updateEnemies delta g) = player g.
Proof.
  unfold updateEnemies. rewrite edge_scan_player.
  apply (move_phase_spec delta g).
Qed.

Lemma updateParticles_player (delta : float) (g : Game) :
  player (updateParticles delta g) = player g.
Proof. reflexivity. Qed.

Lemma shoot_body_player (rng : nat -> Z) (delta : float) (j : nat) (st : ShootState) :
  player (sh_game (shoot_body rng delta j st)) = player (sh_game st).
Proof.
  unfold shoot_body.
  destruct (slot_at (enemies (sh_game st)) (sh_index st)) as [[e|]|];
    try reflexivity.
  destruct (sh_found st !! j) as [f|]; [|reflexivity].
  destruct (negb (f =? 1)); [|reflexivity].
  match goal with |- context [if ?c then _ else _] => destruct c end; reflexivity.
Qed.

Lemma enemyShoot_player (rng : nat -> Z) (delta : float) (g : Game) :
  player (enemyShoot rng delta g) = player g.
Proof.
  unfold enemyShoot.
  apply (for_each_inv (fun _ st => player (sh_game st) = player g)).
  - reflexivity.
  - intros i st _ Hst.
    apply (for_each_inv (fun _ st' => player (sh_game st') = player g)).
    + exact Hst.
    + intros j st' _ Hst'. unfold shoot_inner. gsimpl.
      rewrite shoot_body_player. exact Hst'.
Qed.

Lemma before_collisions_px (rng : nat -> Z) (keys : Keys) (delta : float) (g : Game) :
  Player.px (player (before_collisions rng keys delta g))
  = Player.px (player (updatePlayer keys delta g)).
Proof.
  unfold before_collisions.
  rewrite enemyShoot_player, updateParticles_player, updateEnemies_player,
    updateBullets_player. reflexivity.
Qed.

Lemma wave_clear_branch_px (g : Game) :
  Player.px (player (wave_clear_branch g)) = Player.px (player g).
Proof.
  unfold wave_clear_branch. destruct (no_enemy_left (enemies g)); reflexivity.
Qed.

Lemma checkGameState_px (g : Game) :
  Player.px (player (checkGameState g))
  = if gameOver g then F32.of_Z 320 else Player.px (player g).
Proof.
  unfold checkGameState. rewrite wave_clear_branch_px.
  destruct (gameOver g) eqn:E.
  - rewrite game_over_branch_set by exact E. reflexivity.
  - unfold game_over_branch. rewrite E. reflexivity.
Qed.

Lemma player_hit_dec (hs : list Hit) :
  (exists i, PlayerHit i ∈ hs) \/ (forall i, PlayerHit i ∉ hs).
Proof.
  induction hs as [|a l IH].
  - right. intros i Hi. inversion Hi.
  - destruct IH as [(i & Hi)|Hno].
    + left. exists i. right. exact Hi.
    + destruct a as [bi ej|bi].
      * right. intros i Hi. apply elem_of_cons in Hi as [Hi|Hi];
          [discriminate|exact (Hno i Hi)].
      * left. exists bi. left.
Qed.

Lemma updatePlayer_right (keys : Keys) (delta : float) (g : Game) :
  SCANCODE_RIGHT keys = true -> SCANCODE_LEFT keys = false ->
  Player.px (player (updatePlayer keys delta g))
  = (Player.px (player g) + F32.of_Z PLAYER_SPEED * delta)%f32.
Proof. intros Hr Hl. rewrite updatePlayer_px, Hr, Hl. reflexivity. Qed.

Lemma updatePlayer_left (keys : Keys) (delta : float) (g : Game) :
  SCANCODE_RIGHT keys = false -> SCANCODE_LEFT keys = true ->
  Player.px (player (updatePlayer keys delta g))
  = (Player.px (player g) - F32.of_Z PLAYER_SPEED * delta)%f32.
Proof. intros Hr Hl. rewrite updatePlayer_px, Hr, Hl. reflexivity. Qed.

Lemma hold_right_leaves_window :
  Player.px (player (hold_right 8 (set_playGame init true))) = F32.of_Z 720
  /\ (F32.of_Z WINDOW_WIDTH
      <? Player.px (player (hold_right 8 (set_playGame init true))))%f32 = true.
Proof. split; vm_compute; reflexivity. Qed.

Lemma checkBulletCollisions_px (g : Game) :
  ((forall i, PlayerHit i ∉ hits_of g) ->
     Player.px (player (checkBulletCollisions g)) = Player.px (player g))
  /\ ((exists i, PlayerHit i ∈ hits_of g) ->
        Player.px (player (checkBulletCollisions g)) = F32.of_Z 320).
Proof.
  destruct (collide_inv_end g) as (_ & _ & _ & Hkeep & _ & Hreset).
  unfold hits_of, checkBulletCollisions. split.
  - intros Hno. apply (Hkeep Hno).
  - intros Hex. apply (Hreset Hex).
Qed.

Lemma update_keeps_px (rng : nat -> Z) (keys : Keys) (delta : float) (g : Game) :
  playGame g = true ->
  (forall i, PlayerHit i ∉ hits_of (before_collisions rng keys delta g)) ->
  gameOver (checkBulletCollisions (before_collisions rng keys delta g)) = false ->
  Player.px (player (update rng keys delta g))
  = Player.px (player (updatePlayer keys delta g)).
Proof.
  intros Hplay Hno Hgo.
  rewrite (update_playing _ _ _ _ Hplay), checkGameState_px, Hgo.
  rewrite (proj1 (checkBulletCollisions_px _) Hno).
  apply before_collisions_px.
Qed.

Lemma update_resets_px (rng : nat -> Z) (keys : Keys) (delta : float) (g : Game) :
  playGame g = true ->
  Player.px (player (update rng keys delta g))
  <> Player.px (player (updatePlayer keys delta g)) ->
  ((exists i, PlayerHit i ∈ hits_of (before_collisions rng keys delta g))
   \/ gameOver (checkBulletCollisions (before_collisions rng keys delta g)) = true)
  /\ Player.px (player (update rng keys delta g)) = F32.of_Z 320.
Proof.
  intros Hplay Hne.
  rewrite (update_playing _ _ _ _ Hplay), checkGameState_px in Hne |- *.
  destruct (gameOver (checkBulletCollisions (before_collisions rng keys delta g)))
    eqn:Hgo.
  { split; [right; reflexivity|reflexivity]. }
  destruct (player_hit_dec (hits_of (before_collisions rng keys delta g)))
    as [Hex|Hno].
  - split; [left; exact Hex|].
    apply (proj2 (checkBulletCollisions_px _) Hex).
  - exfalso. apply Hne.
    rewrite (proj1 (checkBulletCollisions_px _) Hno).
    apply before_collisions_px.
Qed.

(** C10: [updatePlayer] never clamps the horizontal position: with the right
    key held (and not the left one) it adds [PLAYER_SPEED * delta] to [px],
    with the left key held (and not the right one) it subtracts it, whatever
    [px] is, so the player leaves the window (eight frames of 0.25 s to the
    right from the start take it to x = 720, right of the 640 pixel wide
    window).  In a frame the position computed by [updatePlayer] is kept
    unless an enemy bullet registers a hit on the player or the game-over
    flag is set when [checkGameState] runs; in both cases x becomes 320. *)
Theorem updatePlayer_does_not_clamp :
  (forall keys delta g,
     SCANCODE_RIGHT keys = true -> SCANCODE_LEFT keys = false ->
     Player.px (player (updatePlayer keys delta g))
     = (Player.px (player g) + F32.of_Z PLAYER_SPEED * delta)%f32)
  /\ (forall keys delta g,
        SCANCODE_RIGHT keys = false -> SCANCODE_LEFT keys = true ->
        Player.px (player (updatePlayer keys delta g))
        = (Player.px (player g) - F32.of_Z PLAYER_SPEED * delta)%f32)
  /\ (Player.px (player (hold_right 8 (set_playGame init true))) = F32.of_Z 720
      /\ (F32.of_Z WINDOW_WIDTH
          <? Player.px (player (hold_right 8 (set_playGame init true))))%f32 = true)
  /\ (forall rng keys delta g,
        playGame g = true ->
        (forall i, PlayerHit i ∉ hits_of (before_collisions rng keys delta g)) ->
        gameOver (checkBulletCollisions (before_collisions rng keys delta g)) = false ->
        Player.px (player (update rng keys delta g))
        = Player.px (player (updatePlayer keys delta g)))
  /\ (forall rng keys delta g,
        playGame g = true ->
        Player.px (player (update rng keys delta g))
        <> Player.px (player (updatePlayer keys delta g)) ->
        ((exists i, PlayerHit i ∈ hits_of (before_collisions rng keys delta g))
         \/ gameOver (checkBulletCollisions (before_collisions rng keys delta g)) = true)
        /\ Player.px (player (update rng keys delta g)) = F32.of_Z 320).
Proof.
  split; [exact updatePlayer_right|]. split; [exact updatePlayer_left|].
  split; [exact hold_right_leaves_window|].
  split; [exact update_keeps_px|exact update_resets_px].
Qed.

Lemma updatePlayer_does_not_clamp_witness :
  Player.px (player (updatePlayer (mkKeys true false false) (F32.of_Z 1)
                       (set_player init
                          (Player.mk (F32.of_Z 5000) (F32.of_Z 446) 0 0 3 (F32.of_Z 0)))))
  = F32.of_Z 5200.
Proof.
  rewrite (proj1 updatePlayer_does_not_clamp); reflexivity.
Defined.

Lemma spawn_uses_first_free_slot_witness :
  createBullet 320 446 (-1) busy_bullets = busy_bullets
  /\ createBullet 320 446 (-1) (<[2%nat := None]> busy_bullets)
     = <[2%nat := Some (new_bullet 320 446 (-1))]> (<[2%nat := None]> busy_bullets).
Proof.
  destruct spawn_uses_first_free_slot as (Hfirst & Hfull & _).
  split.
  - apply Hfull. intros k Hk. unfold busy_bullets.
    rewrite lookup_replicate_2 by exact Hk. discriminate.
  - apply Hfirst; [unfold MAX_PROJECTILES; lia|reflexivity|].
    intros k Hk. destruct k as [|[|k]]; [discriminate|discriminate|lia].
Defined.

Lemma bullets_hit_the_opposing_side_only_witness :
  PlayerHit 0 ∉ hits_of game_over_scenario.
Proof.
  apply (proj1 (proj1 (bullets_hit_the_opposing_side_only game_over_scenario)
                  0%nat (Bullet.mk (F32.of_Z 10) (F32.of_Z 20) (-1)) eq_refl)).
  reflexivity.
Defined.

(** * Further properties of the game loop *)

(** ** Arrays that only grow, and what they hold *)

Section Pools.
Context {A : Type}.
Implicit Types (Q : A -> Prop) (sl : pool A).

Lemma grows_by_refl Q sl : grows_by Q sl sl.
Proof. intros i. left. reflexivity. Qed.

Lemma grows_by_trans Q sl1 sl2 sl3 :
  grows_by Q sl1 sl2 -> grows_by Q sl2 sl3 -> grows_by Q sl1 sl3.
Proof.
  intros H12 H23 i. destruct (H23 i) as [E23|(E2 & x & E3 & Hx)].
  - rewrite E23. apply H12.
  - destruct (H12 i) as [E12|(_ & y & E2' & _)].
    + right. split; [congruence|]. exists x. split; assumption.
    + congruence.
Qed.

Lemma install_first_null_grows Q (idxs : list nat) (v : A) sl :
  Q v -> grows_by Q sl (install_first_null idxs v sl).
Proof.
  intros Hv. induction idxs as [|k rest IH]; [apply grows_by_refl|].
  simpl. destruct (sl !! k) as [[x|]|] eqn:E; try exact IH.
  intros i. destruct (decide (i = k)) as [->|Hne].
  - right. split; [exact E|]. exists v. split; [|exact Hv].
    apply list_lookup_insert_eq. eapply lookup_lt_Some, E.
  - left. apply list_lookup_insert_ne. congruence.
Qed.

Lemma grows_by_all Q sl sl' :
  grows_by Q sl sl' -> pool_all Q sl -> pool_all Q sl'.
Proof.
  intros Hg Hall i x Hx. destruct (Hg i) as [E|(_ & y & Ey & Hy)].
  - apply (Hall i). congruence.
  - congruence.
Qed.

Lemma grows_by_length Q sl sl' :
  grows_by Q sl sl' -> length sl' = length sl.
Proof.
  intros Hg. apply Nat.le_antisymm.
  - apply Nat.nlt_ge. intros Hlt.
    destruct (lookup_lt_is_Some_2 sl' (length sl) Hlt) as [s Hs].
    destruct (Hg (length sl)) as [E|(E & _)].
    + rewrite Hs in E. symmetry in E. apply lookup_lt_Some in E. lia.
    + apply lookup_lt_Some in E. lia.
  - apply Nat.nlt_ge. intros Hlt.
    destruct (lookup_lt_is_Some_2 sl (length sl') Hlt) as [s Hs].
    destruct (Hg (length sl')) as [E|(_ & x & E & _)].
    + rewrite Hs in E. apply lookup_lt_Some in E. lia.
    + apply lookup_lt_Some in E. lia.
Qed.
End Pools.

Lemma createBullet_grows (px py dir : Z) (bl : pool Bullet.t) :
  grows_by (fun b => b = new_bullet px py dir) bl (createBullet px py dir bl).
Proof.
  rewrite createBullet_install. apply install_first_null_grows. reflexivity.
Qed.

Lemma grows_by_weaken {A : Type} (Q Q' : A -> Prop) (sl sl' : pool A) :
  (forall x, Q x -> Q' x) -> grows_by Q sl sl' -> grows_by Q' sl sl'.
Proof.
  intros HQ Hg i. destruct (Hg i) as [E|(E & x & Ex & Hx)]; [left; exact E|].
  right. split; [exact E|]. exists x. split; [exact Ex|apply HQ, Hx].
Qed.

Lemma new_bullet_vy (px py dir : Z) : Bullet.vy (new_bullet px py dir) = dir.
Proof. reflexivity. Qed.

(** ** The player's shot *)

(** everything [updatePlayer] leaves alone *)
Lemma updatePlayer_frame (keys : Keys) (delta : float) (g : Game) :
  Player.py (player (updatePlayer keys delta g)) = Player.py (player g)
  /\ Player.score (player (updatePlayer keys delta g)) = Player.score (player g)
  /\ Player.hiScore (player (updatePlayer keys delta g)) = Player.hiScore (player g)
  /\ Player.livesLeft (player (updatePlayer keys delta g))
     = Player.livesLeft (player g)
  /\ enemies (updatePlayer keys delta g) = enemies g
  /\ particles (updatePlayer keys delta g) = particles g
  /\ ENEMY_SPEED_MULT (updatePlayer keys delta g) = ENEMY_SPEED_MULT g
  /\ enemyDir (updatePlayer keys delta g) = enemyDir g
  /\ currentWave (updatePlayer keys delta g) = currentWave g
  /\ gameOver (updatePlayer keys delta g) = gameOver g
  /\ playGame (updatePlayer keys delta g) = playGame g
  /\ rand_calls (updatePlayer keys delta g) = rand_calls g.
Proof.
  unfold updatePlayer.
  destruct (SCANCODE_RIGHT keys), (SCANCODE_LEFT keys), (SCANCODE_SPACE keys);
    gsimpl;
    try match goal with |- context [if ?c then _ else _] => destruct c end;
    repeat split.
Qed.

Lemma updatePlayer_fire_eq (keys : Keys) (delta : float) (g : Game) :
  SCANCODE_SPACE keys = true ->
  (Player.shootTimer (player g) <=? F32.of_Z 0)%f32 = true ->
  bullets (updatePlayer keys delta g)
    = createBullet (F32.to_int (Player.px (player (updatePlayer keys delta g))))
        (F32.to_int (Player.py (player g))) (-1) (bullets g)
  /\ Player.shootTimer (player (updatePlayer keys delta g))
     = (F32.of_Z 1 - delta)%f32.
Proof.
  intros Hs Ht. unfold updatePlayer. rewrite Hs.
  destruct (SCANCODE_RIGHT keys), (SCANCODE_LEFT keys); gsimpl;
    cbn [Player.shootTimer Player.set_px]; rewrite Ht; split; reflexivity.
Qed.

(** X1: with the shoot key held and the shoot timer at or below 0,
    [updatePlayer] calls [createBullet] with direction -1 at the truncated
    position the player has after this frame's move, and restarts the timer
    at [1 - delta].  The timer is restarted even when every bullet slot is
    occupied, in which case no bullet appears: the shot is lost. *)
Theorem updatePlayer_fires (keys : Keys) (delta : float) (g : Game) :
  SCANCODE_SPACE keys = true ->
  (Player.shootTimer (player g) <=? F32.of_Z 0)%f32 = true ->
  bullets (updatePlayer keys delta g)
    = createBullet (F32.to_int (Player.px (player (updatePlayer keys delta g))))
        (F32.to_int (Player.py (player g))) (-1) (bullets g)
  /\ Player.shootTimer (player (updatePlayer keys delta g))
     = (F32.of_Z 1 - delta)%f32
  /\ ((forall k, (k < MAX_PROJECTILES)%nat -> bullets g !! k <> Some None) ->
        bullets (updatePlayer keys delta g) = bullets g)
  /\ grows_by
       (fun b => Bullet.vy b = -1
          /\ Bullet.px b
             = (F32.of_Z (F32.to_int (Player.px (player (updatePlayer keys delta g))))
                + F32.of_Z 10)%f32
          /\ Bullet.py b
             = (F32.of_Z (F32.to_int (Player.py (player g))) + F32.of_Z 10)%f32)
       (bullets g) (bullets (updatePlayer keys delta g)).
Proof.
  intros Hs Ht.
  destruct (updatePlayer_fire_eq keys delta g Hs Ht) as (Hb & Htimer).
  split; [exact Hb|]. split; [exact Htimer|]. split.
  { intros Hfull. rewrite Hb, createBullet_install.
    apply install_first_null_full. intros k Hk. apply Hfull. lia. }
  rewrite Hb. eapply grows_by_weaken; [|apply createBullet_grows].
  intros b ->. repeat split.
Qed.

(** without the shoot key, or with a positive shoot timer, no bullet is
    created and the timer goes down by [delta] *)
Lemma updatePlayer_holds_fire (keys : Keys) (delta : float) (g : Game) :
  SCANCODE_SPACE keys = false
  \/ (Player.shootTimer (player g) <=? F32.of_Z 0)%f32 = false ->
  bullets (updatePlayer keys delta g) = bullets g
  /\ Player.shootTimer (player (updatePlayer keys delta g))
     = (Player.shootTimer (player g) - delta)%f32.
Proof.
  intros H. unfold updatePlayer.
  destruct (SCANCODE_SPACE keys).
  - destruct H as [H|H]; [discriminate|].
    destruct (SCANCODE_RIGHT keys), (SCANCODE_LEFT keys); gsimpl;
      cbn [Player.shootTimer Player.set_px]; rewrite H; split; reflexivity.
  - destruct (SCANCODE_RIGHT keys), (SCANCODE_LEFT keys); split; reflexivity.
Qed.

Lemma updatePlayer_bullets_grow (keys : Keys) (delta : float) (g : Game) :
  grows_by (fun b => Bullet.vy b = -1) (bullets g)
    (bullets (updatePlayer keys delta g)).
Proof.
  destruct (SCANCODE_SPACE keys) eqn:Hs;
    [destruct (Player.shootTimer (player g) <=? F32.of_Z 0)%f32 eqn:Ht|].
  - rewrite (proj1 (updatePlayer_fire_eq keys delta g Hs Ht)).
    eapply grows_by_weaken; [|apply createBullet_grows].
    intros b ->. reflexivity.
  - rewrite (proj1 (updatePlayer_holds_fire keys delta g (or_intror Ht))).
    apply grows_by_refl.
  - rewrite (proj1 (updatePlayer_holds_fire keys delta g (or_introl Hs))).
    apply grows_by_refl.
Qed.

(** ** Bullets in flight *)

Lemma createParticle_grows (p : Particle.t) (pl : pool Particle.t) :
  grows_by (fun x => x = p) pl (createParticle p pl).
Proof.
  rewrite createParticle_install. apply install_first_null_grows. reflexivity.
Qed.

Lemma updateBullets_spec (delta : float) (g : Game) :
  player (updateBullets delta g) = player g
  /\ enemies (updateBullets delta g) = enemies g
  /\ ENEMY_SPEED_MULT (updateBullets delta g) = ENEMY_SPEED_MULT g
  /\ enemyDir (updateBullets delta g) = enemyDir g
  /\ currentWave (updateBullets delta g) = currentWave g
  /\ gameOver (updateBullets delta g) = gameOver g
  /\ playGame (updateBullets delta g) = playGame g
  /\ rand_calls (updateBullets delta g) = rand_calls g
  /\ grows_by (fun p => Particle.particleType p = BULLET_EXPLOSION
                        /\ Particle.lifetime p = F32.lit 1 2)
       (particles g) (particles (updateBullets delta g))
  /\ forall i, bullets (updateBullets delta g) !! i
       = if decide (i < MAX_PROJECTILES)%nat
         then flown_slot delta <$> bullets g !! i
         else bullets g !! i.
Proof.
  unfold updateBullets.
  pose (P := fun (k : nat) (t : Game) =>
    player t = player g
    /\ enemies t = enemies g
    /\ ENEMY_SPEED_MULT t = ENEMY_SPEED_MULT g
    /\ enemyDir t = enemyDir g
    /\ currentWave t = currentWave g
    /\ gameOver t = gameOver g
    /\ playGame t = playGame g
    /\ rand_calls t = rand_calls g
    /\ grows_by (fun p => Particle.particleType p = BULLET_EXPLOSION
                          /\ Particle.lifetime p = F32.lit 1 2)
         (particles g) (particles t)
    /\ forall i, bullets t !! i
         = if decide (i < k)%nat
           then flown_slot delta <$> bullets g !! i
           else bullets g !! i).
  apply (for_each_inv P); subst P; cbv beta.
  - repeat split. apply grows_by_refl.
  - intros k t Hk (Hp & He & Hm & Hd & Hw & Hgo & Hpg & Hr & Hpa & Hbl).
    assert (Hkeep : forall i, i <> k ->
              (if decide (i < k)%nat
               then flown_slot delta <$> bullets g !! i else bullets g !! i)
              = (if decide (i < S k)%nat
                 then flown_slot delta <$> bullets g !! i else bullets g !! i)).
    { intros i Hne. destruct (decide (i < k)%nat), (decide (i < S k)%nat);
        try reflexivity; lia. }
    pose proof (Hbl k) as Hkk.
    destruct (decide (k < k)%nat) as [?|_]; [lia|].
    assert (Hidle : bullets t !! k = Some None \/ bullets t !! k = None ->
              forall i, bullets t !! i
                = if decide (i < S k)%nat
                  then flown_slot delta <$> bullets g !! i else bullets g !! i).
    { intros Hnone i. destruct (decide (i = k)) as [->|Hne].
      - destruct (decide (k < S k)%nat); [|lia]. rewrite <- Hkk.
        destruct Hnone as [-> | ->]; reflexivity.
      - rewrite Hbl. apply Hkeep, Hne. }
    unfold updateBullets_body.
    destruct (bullets t !! k) as [[b|]|] eqn:E.
    + fold (flown delta b). gsimpl. cbn [Bullet.py].
      assert (Hin : (k < length (bullets t))%nat) by (eapply lookup_lt_Some, E).
      fold (off_screen (flown delta b)).
      destruct (off_screen (flown delta b)) eqn:Eo; gsimpl.
      * repeat split; try assumption.
        { eapply grows_by_trans; [exact Hpa|].
          eapply grows_by_weaken; [|apply createParticle_grows].
          intros p ->. split; reflexivity. }
        intros i. destruct (decide (i = k)) as [->|Hne].
        -- rewrite list_lookup_insert_eq by (rewrite length_insert; exact Hin).
           destruct (decide (k < S k)%nat); [|lia].
           rewrite <- Hkk. cbn. rewrite Eo. reflexivity.
        -- rewrite !list_lookup_insert_ne by congruence.
           rewrite Hbl. apply Hkeep, Hne.
      * repeat split; try assumption.
        intros i. destruct (decide (i = k)) as [->|Hne].
        -- rewrite list_lookup_insert_eq by exact Hin.
           destruct (decide (k < S k)%nat); [|lia].
           rewrite <- Hkk. cbn. rewrite Eo. reflexivity.
        -- rewrite list_lookup_insert_ne by congruence.
           rewrite Hbl. apply Hkeep, Hne.
    + repeat split; try assumption. apply Hidle. left. reflexivity.
    + repeat split; try assumption. apply Hidle. right. reflexivity.
Qed.

Lemma live_count_sub {A B : Type} (sl : pool A) (sl' : pool B) :
  length sl' = length sl ->
  (forall i y, sl' !! i = Some (Some y) -> exists x, sl !! i = Some (Some x)) ->
  (live_count sl' <= live_count sl)%nat.
Proof.
  unfold live_count. revert sl'.
  induction sl as [|s sl IH]; intros [|s' sl'] Hlen Hsub; try discriminate;
    [reflexivity|].
  assert (Htail : (length (filter (fun s => is_Some s) sl')
                   <= length (filter (fun s => is_Some s) sl))%nat).
  { apply IH; [simpl in Hlen; lia|]. intros i y Hy. apply (Hsub (S i) y Hy). }
  destruct s' as [y|].
  - destruct (Hsub 0%nat y eq_refl) as [x Hx]. simpl in Hx. injection Hx as ->.
    rewrite !filter_cons_True by (eexists; reflexivity). simpl. lia.
  - rewrite (filter_cons_False _ None) by (intros [? ?]; discriminate).
    destruct s as [x|].
    + rewrite filter_cons_True by (eexists; reflexivity). simpl. lia.
    + rewrite filter_cons_False by (intros [? ?]; discriminate). exact Htail.
Qed.

Lemma updateBullets_length (delta : float) (g : Game) :
  length (bullets (updateBullets delta g)) = length (bullets g).
Proof. apply (updateBullets_shape delta g). Qed.

(** X2: [updateBullets] moves every live bullet by [vy * BULLET_SPEED * delta]
    and keeps it, with the same x and direction, exactly when the new y is
    inside [0, WINDOW_HEIGHT - BULLET_HEIGHT]; otherwise the slot is
    released.  It never creates a bullet, the particles it adds are bullet
    explosions of lifetime 0.5, and player and enemies are untouched. *)
Theorem updateBullets_flight (delta : float) (g : Game) :
  (forall i b, (i < MAX_PROJECTILES)%nat -> bullets g !! i = Some (Some b) ->
     bullets (updateBullets delta g) !! i
     = Some (if off_screen (flown delta b) then None
             else Some (Bullet.mk (Bullet.px b) (Bullet.py (flown delta b))
                          (Bullet.vy b))))
  /\ (forall i, bullets g !! i = Some None ->
        bullets (updateBullets delta g) !! i = Some None)
  /\ (live_count (bullets (updateBullets delta g)) <= live_count (bullets g))%nat
  /\ grows_by (fun p => Particle.particleType p = BULLET_EXPLOSION
                        /\ Particle.lifetime p = F32.lit 1 2)
       (particles g) (particles (updateBullets delta g))
  /\ player (updateBullets delta g) = player g
  /\ enemies (updateBullets delta g) = enemies g.
Proof.
  destruct (updateBullets_spec delta g)
    as (Hp & He & _ & _ & _ & _ & _ & _ & Hpa & Hbl).
  split.
  { intros i b Hi Hb. rewrite Hbl, Hb.
    destruct (decide (i < MAX_PROJECTILES)%nat); [|lia].
    cbn. destruct (off_screen (flown delta b)); reflexivity. }
  split.
  { intros i Hb. rewrite Hbl, Hb. destruct (decide (i < MAX_PROJECTILES)%nat);
      reflexivity. }
  split.
  { apply live_count_sub; [apply updateBullets_length|].
    intros i y Hy. rewrite Hbl in Hy.
    destruct (decide (i < MAX_PROJECTILES)%nat); [|eexists; exact Hy].
    destruct (bullets g !! i) as [[b|]|]; try discriminate.
    eexists. reflexivity. }
  split; [exact Hpa|]. split; assumption.
Qed.

(** ** Particles *)

Lemma updateParticles_slotwise (delta : float) (pl : pool Particle.t) :
  for_each MAX_PARTICLES (updateParticles_body delta) pl
  = for_each MAX_PARTICLES (slotwise (fun _ s => aged_slot delta s)) pl.
Proof.
  apply for_each_ext. intros i t _. unfold updateParticles_body, slotwise.
  destruct (t !! i) as [[p|]|] eqn:E; try reflexivity.
  - cbn [aged_slot Particle.lifetime Particle.set_lifetime].
    destruct (_ <=? _)%f32; reflexivity.
  - symmetry. apply list_insert_id, E.
Qed.

(** X3: [updateParticles] takes [delta] off the lifetime of every live
    particle and releases it when the result is [<= 0]; position and type
    are kept, no particle is created, and nothing else changes. *)
Theorem updateParticles_ages (delta : float) (g : Game) :
  (forall i p, (i < MAX_PARTICLES)%nat -> particles g !! i = Some (Some p) ->
     particles (updateParticles delta g) !! i
     = Some (if ((Particle.lifetime p - delta)%f32 <=? F32.of_Z 0)%f32 then None
             else Some (Particle.mk (Particle.px p) (Particle.py p)
                          (Particle.lifetime p - delta)%f32
                          (Particle.particleType p))))
  /\ (forall i, particles g !! i = Some None ->
        particles (updateParticles delta g) !! i = Some None)
  /\ (live_count (particles (updateParticles delta g))
      <= live_count (particles g))%nat
  /\ updateParticles delta g
     = set_particles g (particles (updateParticles delta g)).
Proof.
  assert (Hlook : forall i, particles (updateParticles delta g) !! i
            = if decide (i < MAX_PARTICLES)%nat
              then aged_slot delta <$> particles g !! i
              else particles g !! i).
  { intros i. unfold updateParticles. cbn [particles set_particles].
    rewrite updateParticles_slotwise, for_each_slotwise_lookup. reflexivity. }
  split.
  { intros i p Hi Hp. rewrite Hlook, Hp.
    destruct (decide (i < MAX_PARTICLES)%nat); [|lia].
    cbn. destruct (_ <=? _)%f32; reflexivity. }
  split.
  { intros i Hp. rewrite Hlook, Hp. destruct (decide (i < MAX_PARTICLES)%nat);
      reflexivity. }
  split.
  { apply live_count_sub; [apply (updateParticles_shape delta g)|].
    intros i y Hy. rewrite Hlook in Hy.
    destruct (decide (i < MAX_PARTICLES)%nat); [|eexists; exact Hy].
    destruct (particles g !! i) as [[p|]|]; try discriminate.
    eexists. reflexivity. }
  unfold updateParticles. cbn [particles set_particles]. reflexivity.
Qed.

(** ** Enemies reaching the player *)

Lemma move_phase_gameOver (delta : float) (g : Game) :
  gameOver (move_phase delta g) = gameOver g || any_low (enemies g).
Proof.
  unfold move_phase, any_low.
  pose (P := fun (k : nat) (t : Game) =>
    gameOver t = gameOver g || existsb (low_at (enemies g)) (seq 0 k)
    /\ forall i, (k <= i)%nat -> enemies t !! i = enemies g !! i).
  assert (H : P MAX_ENEMIES (for_each MAX_ENEMIES (move_body delta) g));
    [|exact (proj1 H)].
  apply (for_each_inv P); subst P; cbv beta.
  - split; [cbn; rewrite orb_false_r; reflexivity|reflexivity].
  - intros k t Hk (Hgo & Hen).
    rewrite seq_S, existsb_app. cbn [existsb Nat.add]. rewrite orb_false_r.
    unfold low_at at 2. rewrite <- (Hen k) by lia.
    unfold move_body.
    destruct (enemies t !! k) as [[e|]|] eqn:E.
    + assert (Hpy : Enemy.py
                (if enemyDir t =? 1
                 then Enemy.set_px e
                        (Enemy.px e + F32.of_Z ENEMY_SPEED * ENEMY_SPEED_MULT t * delta)%f32
                 else Enemy.set_px e
                        (Enemy.px e - F32.of_Z ENEMY_SPEED * ENEMY_SPEED_MULT t * delta)%f32)
                = Enemy.py e) by (destruct (enemyDir t =? 1); reflexivity).
      rewrite Hpy. fold (too_low e).
      destruct (too_low e); gsimpl.
      * split; [rewrite !orb_true_r; reflexivity|].
        intros i Hi. rewrite list_lookup_insert_ne by lia. apply Hen. lia.
      * split; [rewrite Hgo, orb_false_r; reflexivity|].
        intros i Hi. rewrite list_lookup_insert_ne by lia. apply Hen. lia.
    + split; [rewrite Hgo, orb_false_r; reflexivity|].
      intros i Hi. apply Hen. lia.
    + split; [rewrite Hgo, orb_false_r; reflexivity|].
      intros i Hi. apply Hen. lia.
Qed.

Lemma edge_scan_cases (idxs : list nat) (g : Game) :
  edge_scan idxs g = g \/ edge_scan idxs g = turn g.
Proof.
  induction idxs as [|i rest IH]; [left; reflexivity|].
  simpl. destruct (enemies g !! i) as [[e|]|]; try exact IH.
  destruct (at_edge e); [right; reflexivity|exact IH].
Qed.

Lemma updateEnemies_cases (delta : float) (g : Game) :
  updateEnemies delta g = move_phase delta g
  \/ updateEnemies delta g = turn (move_phase delta g).
Proof. unfold updateEnemies. apply edge_scan_cases. Qed.

Lemma turn_gameOver (g : Game) : gameOver (turn g) = gameOver g.
Proof. reflexivity. Qed.

Lemma turn_bullets (g : Game) : bullets (turn g) = bullets g.
Proof. reflexivity. Qed.

Lemma turn_particles (g : Game) : particles (turn g) = particles g.
Proof. reflexivity. Qed.

Lemma turn_player (g : Game) : player (turn g) = player g.
Proof. reflexivity. Qed.

Lemma turn_currentWave (g : Game) : currentWave (turn g) = currentWave g.
Proof. reflexivity. Qed.

(** X4: [updateEnemies] sets the game-over flag exactly when some live
    enemy stands below y = 410 on entry (the test precedes this frame's
    descent); it never clears the flag. *)
Theorem updateEnemies_gameOver (delta : float) (g : Game) :
  gameOver (updateEnemies delta g) = gameOver g || any_low (enemies g)
  /\ (any_low (enemies g) = true
      <-> exists i e, (i < MAX_ENEMIES)%nat /\ enemies g !! i = Some (Some e)
                      /\ (F32.of_Z 410 <? Enemy.py e)%f32 = true).
Proof.
  split.
  - destruct (updateEnemies_cases delta g) as [-> | ->];
      rewrite ?turn_gameOver; apply move_phase_gameOver.
  - unfold any_low. rewrite existsb_exists. split.
    + intros (i & Hin & Hlow). apply in_seq in Hin. unfold low_at in Hlow.
      destruct (enemies g !! i) as [[e|]|] eqn:E; try discriminate.
      exists i, e. split; [lia|]. split; [exact E|exact Hlow].
    + intros (i & e & Hi & He & Hlow). exists i. split; [apply in_seq; lia|].
      unfold low_at. rewrite He. exact Hlow.
Qed.

(** X5: [updateEnemies] neither creates nor removes an enemy: an empty slot
    stays empty, and a live enemy keeps its kill reward and shoot timer,
    moves horizontally by the step of the frame, and keeps its height or,
    if the formation turned, goes down by 7. *)
Theorem updateEnemies_keeps_enemies (delta : float) (g : Game) :
  (forall k e, (k < MAX_ENEMIES)%nat -> enemies g !! k = Some (Some e) ->
     exists e', enemies (updateEnemies delta g) !! k = Some (Some e')
       /\ Enemy.killReward e' = Enemy.killReward e
       /\ Enemy.shootTimer e' = Enemy.shootTimer e
       /\ Enemy.px e' = Enemy.px (moved_enemy delta g e)
       /\ (Enemy.py e' = Enemy.py e
           \/ Enemy.py e' = (Enemy.py e + F32.of_Z 7)%f32))
  /\ (forall k, enemies g !! k = Some None ->
        enemies (updateEnemies delta g) !! k = Some None)
  /\ bullets (updateEnemies delta g) = bullets g
  /\ particles (updateEnemies delta g) = particles g
  /\ player (updateEnemies delta g) = player g
  /\ currentWave (updateEnemies delta g) = currentWave g.
Proof.
  pose proof (move_phase_spec delta g)
    as (_ & _ & Hp & Hb & Hpa & Hw & _ & _ & _ & Hen).
  assert (Hfields : forall e, Enemy.killReward (moved_enemy delta g e)
                              = Enemy.killReward e
                    /\ Enemy.shootTimer (moved_enemy delta g e)
                       = Enemy.shootTimer e).
  { intros e. unfold moved_enemy. destruct (enemyDir g =? 1); split; reflexivity. }
  destruct (updateEnemies_cases delta g) as [-> | ->].
  - split.
    { intros k e Hk He. exists (moved_enemy delta g e). rewrite Hen, He.
      destruct (decide (k < MAX_ENEMIES)%nat); [|lia].
      split; [reflexivity|]. destruct (Hfields e) as (-> & ->).
      rewrite moved_enemy_py. repeat split. left. reflexivity. }
    split.
    { intros k He. rewrite Hen, He.
      destruct (decide (k < MAX_ENEMIES)%nat); reflexivity. }
    repeat split; assumption.
  - split.
    { intros k e Hk He.
      exists (Enemy.set_py (moved_enemy delta g e)
                (Enemy.py (moved_enemy delta g e) + F32.of_Z 7)%f32).
      rewrite turn_enemies_lookup, Hen, He.
      destruct (decide (k < MAX_ENEMIES)%nat); [|lia].
      split; [reflexivity|]. cbn [Enemy.set_py Enemy.killReward Enemy.shootTimer
                                  Enemy.px Enemy.py].
      destruct (Hfields e) as (-> & ->). rewrite moved_enemy_py.
      repeat split. right. reflexivity. }
    split.
    { intros k He. rewrite turn_enemies_lookup, Hen, He.
      destruct (decide (k < MAX_ENEMIES)%nat); reflexivity. }
    rewrite turn_bullets, turn_particles, turn_player, turn_currentWave.
    repeat split; assumption.
Qed.

(** ** Enemy fire *)

Lemma shoot_body_effects (rng : nat -> Z) (delta : float) (j : nat)
  (st : ShootState) (e : Enemy.t) (f : Z) :
  slot_at (enemies (sh_game st)) (sh_index st) = Some (Some e) ->
  sh_found st !! j = Some f -> f <> 1 ->
  rand_calls (sh_game (shoot_body rng delta j st)) = S (rand_calls (sh_game st))
  /\ (bullets (sh_game (shoot_body rng delta j st)) = bullets (sh_game st)
      \/ ((Enemy.shootTimer e <=? F32.of_Z 0)%f32 = true
          /\ bullets (sh_game (shoot_body rng delta j st))
             = createBullet (F32.to_int (Enemy.px e)) (F32.to_int (Enemy.py e)) 1
                 (bullets (sh_game st))))
  /\ player (sh_game (shoot_body rng delta j st)) = player (sh_game st)
  /\ particles (sh_game (shoot_body rng delta j st)) = particles (sh_game st)
  /\ ENEMY_SPEED_MULT (sh_game (shoot_body rng delta j st))
     = ENEMY_SPEED_MULT (sh_game st)
  /\ enemyDir (sh_game (shoot_body rng delta j st)) = enemyDir (sh_game st)
  /\ currentWave (sh_game (shoot_body rng delta j st)) = currentWave (sh_game st)
  /\ gameOver (sh_game (shoot_body rng delta j st)) = gameOver (sh_game st)
  /\ playGame (sh_game (shoot_body rng delta j st)) = playGame (sh_game st).
Proof.
  intros He Hf Hne. unfold shoot_body. rewrite He, Hf.
  destruct (Z.eqb_spec f 1) as [?|_]; [contradiction|]. cbn [negb].
  destruct (Z.rem (rng (rand_calls (sh_game st))) 5000 <? 10); cbn [andb];
    [destruct (Enemy.shootTimer e <=? F32.of_Z 0)%f32 eqn:Et|]; gsimpl.
  - repeat split. right. split; reflexivity.
  - repeat split. left. reflexivity.
  - repeat split. left. reflexivity.
Qed.

Lemma shoot_effects_start (g : Game) :
  shoot_effects g 0 (mkShoot (Z.of_nat MAX_ENEMIES - 1) (replicate 11 0) g).
Proof.
  unfold shoot_effects. gsimpl. cbn [seq filter length].
  rewrite Nat.add_0_r. repeat split. apply grows_by_refl.
Qed.

Lemma shoot_effects_step (rng : nat -> Z) (delta : float) (g : Game) (i j : nat)
  (st : ShootState) :
  (j < 11)%nat -> (11 * i + j < 55)%nat ->
  shoot_inv delta g (11 * i + j) st ->
  shoot_effects g (11 * i + j) st ->
  shoot_effects g (S (11 * i + j)) (shoot_inner rng delta j st).
Proof.
  intros Hj Ht (Hidx & Hlen & Hfound & Hlow & _ & _)
    (Hrc & Hgrow & Hp & Hpa & Hm & Hd & Hw & Hgo & Hpg).
  pose proof (scan_pos_visit i j Hj Ht) as Hpos.
  remember (11 * i + j)%nat as t eqn:Et.
  remember (54 - t)%nat as k0 eqn:Ek0.
  assert (Hseq : seq (55 - S t) (S t) = k0 :: seq (55 - t) t).
  { replace (55 - S t)%nat with k0 by lia.
    replace (55 - t)%nat with (S k0) by lia. reflexivity. }
  assert (Hk0 : Z.to_nat (sh_index st) = k0) by (rewrite Hidx; lia).
  assert (Hslot : slot_at (enemies (sh_game st)) (sh_index st) = enemies g !! k0).
  { unfold slot_at. rewrite Hk0.
    destruct (Z.ltb_spec (sh_index st) 0); [lia|]. apply Hlow. lia. }
  destruct (lookup_lt_is_Some_2 (sh_found st) j) as [f Hf]; [lia|].
  assert (Hshadow : f = 1 -> shadowed (enemies g) k0 = true).
  { intros ->. destruct (proj1 (Hfound j 1 Hf) eq_refl) as (k & Hk1 & Hk2 & Hk3 & Hk4).
    apply shadowed_true. exists k. unfold MAX_ENEMIES.
    repeat split; try assumption; try lia; try congruence. }
  assert (Hskip : shoot_body rng delta j st = st ->
                  front (enemies g) k0 = false ->
                  shoot_effects g (S t) (shoot_inner rng delta j st)).
  { intros Hst Hnf. unfold shoot_inner. rewrite Hst. unfold shoot_effects. gsimpl.
    rewrite Hseq, filter_cons_False by congruence.
    repeat split; assumption. }
  destruct (enemies g !! k0) as [[e|]|] eqn:E0.
  - destruct (Z.eq_dec f 1) as [Hf1|Hne].
    + apply Hskip.
      * apply shoot_body_skips. right. rewrite Hf, Hf1. reflexivity.
      * destruct (front (enemies g) k0) eqn:Efr; [|reflexivity].
        apply front_true in Efr as (_ & _ & Hs).
        rewrite (Hshadow Hf1) in Hs. discriminate.
    + assert (Hfr0 : front (enemies g) k0 = true).
      { apply front_true. split; [unfold MAX_ENEMIES; lia|].
        split; [unfold live_at; rewrite E0; reflexivity|].
        destruct (shadowed (enemies g) k0) eqn:Es; [|reflexivity].
        exfalso. apply Hne.
        apply shadowed_true in Es as (k & Hk1 & Hk2 & Hk3).
        apply (Hfound j f Hf). exists k. unfold MAX_ENEMIES in Hk1.
        repeat split; try assumption; try lia; try congruence. }
      destruct (shoot_body_effects rng delta j st e f Hslot Hf Hne)
        as (Hrc' & Hbl' & Hp' & Hpa' & Hm' & Hd' & Hw' & Hgo' & Hpg').
      unfold shoot_inner, shoot_effects. gsimpl.
      rewrite Hseq, filter_cons_True by exact Hfr0.
      rewrite Hrc', Hrc, Hp', Hpa', Hm', Hd', Hw', Hgo', Hpg'.
      split; [cbn [length]; lia|]. split; [|repeat split; assumption].
      destruct Hbl' as [-> | (Htimer & ->)]; [exact Hgrow|].
      eapply grows_by_trans; [exact Hgrow|].
      eapply grows_by_weaken; [|apply createBullet_grows].
      intros b ->. exists k0, e. repeat split; assumption.
  - apply Hskip.
    + apply shoot_body_skips. left. intros e. rewrite Hslot. discriminate.
    + unfold front, live_at. rewrite E0, andb_false_r. reflexivity.
  - apply Hskip.
    + apply shoot_body_skips. left. intros e. rewrite Hslot. discriminate.
    + unfold front, live_at. rewrite E0, andb_false_r. reflexivity.
Qed.

Lemma enemyShoot_effects (rng : nat -> Z) (delta : float) (g : Game) :
  exists st, enemyShoot rng delta g = sh_game st /\ shoot_effects g 55 st.
Proof.
  unfold enemyShoot. eexists. split; [reflexivity|].
  assert (H : shoot_inv delta g 55
                (for_each 5 (fun _ st => for_each 11 (shoot_inner rng delta) st)
                   (mkShoot (Z.of_nat MAX_ENEMIES - 1) (replicate 11 0) g))
              /\ shoot_effects g 55
                   (for_each 5 (fun _ st => for_each 11 (shoot_inner rng delta) st)
                      (mkShoot (Z.of_nat MAX_ENEMIES - 1) (replicate 11 0) g)));
    [|exact (proj2 H)].
  apply (for_each_inv
           (fun i st => shoot_inv delta g (11 * i) st /\ shoot_effects g (11 * i) st)).
  - split; [apply shoot_inv_start|apply shoot_effects_start].
  - intros i st Hi Hst.
    replace (11 * S i)%nat with (11 * i + 11)%nat by lia.
    apply (for_each_inv
             (fun j st' => shoot_inv delta g (11 * i + j) st'
                           /\ shoot_effects g (11 * i + j) st')).
    + rewrite Nat.add_0_r. exact Hst.
    + intros j st' Hj (Hinv & Heff).
      replace (11 * i + S j)%nat with (S (11 * i + j)) by lia.
      split; [apply shoot_inv_step; [exact Hj|lia|exact Hinv]|].
      apply shoot_effects_step; [exact Hj|lia|exact Hinv|exact Heff].
Qed.

(** X6: [enemyShoot] calls [rand()] once for each front enemy, so at most 11
    times; every bullet it adds goes into a free slot, has direction +1 and
    starts at the truncated position of a front enemy whose shoot timer had
    run out, shifted by half the enemy size; it never removes or alters a
    bullet, and player, particles, wave and flags are untouched. *)
Theorem enemyShoot_fires_down (rng : nat -> Z) (delta : float) (g : Game) :
  rand_calls (enemyShoot rng delta g)
    = (rand_calls g
       + length (filter (fun k => front (enemies g) k = true) (seq 0 MAX_ENEMIES)))%nat
  /\ (rand_calls (enemyShoot rng delta g) <= rand_calls g + 11)%nat
  /\ grows_by
       (fun b => Bullet.vy b = 1
          /\ exists k e, front (enemies g) k = true
               /\ enemies g !! k = Some (Some e)
               /\ (Enemy.shootTimer e <=? F32.of_Z 0)%f32 = true
               /\ Bullet.px b = (F32.of_Z (F32.to_int (Enemy.px e)) + F32.of_Z 15)%f32
               /\ Bullet.py b = (F32.of_Z (F32.to_int (Enemy.py e)) + F32.of_Z 15)%f32)
       (bullets g) (bullets (enemyShoot rng delta g))
  /\ player (enemyShoot rng delta g) = player g
  /\ particles (enemyShoot rng delta g) = particles g
  /\ currentWave (enemyShoot rng delta g) = currentWave g
  /\ gameOver (enemyShoot rng delta g) = gameOver g
  /\ playGame (enemyShoot rng delta g) = playGame g.
Proof.
  destruct (enemyShoot_effects rng delta g)
    as (st & -> & (Hrc & Hgrow & Hp & Hpa & _ & _ & Hw & Hgo & Hpg)).
  change (55 - 55)%nat with 0%nat in Hrc. change 55%nat with MAX_ENEMIES in Hrc.
  split; [exact Hrc|]. split.
  { rewrite Hrc. pose proof (front_count (enemies g)). lia. }
  split; [|repeat split; assumption].
  eapply grows_by_weaken; [|exact Hgrow].
  intros b (k & e & Hfr & He & Ht & ->). split; [reflexivity|].
  exists k, e. repeat split; assumption.
Qed.

(** ** What collision resolution leaves behind *)

Lemma shrinks_refl (g : Game) : shrinks g g.
Proof. split; auto. Qed.

Lemma shrinks_trans (g1 g2 g3 : Game) :
  shrinks g1 g2 -> shrinks g2 g3 -> shrinks g1 g3.
Proof. intros (Hb & He) (Hb' & He'). split; auto. Qed.

Lemma enemy_test_shrinks (r : SDL_Rect) (i j : nat) (gh : Game * list Hit) :
  shrinks (fst gh) (fst (enemy_test r i j gh)).
Proof.
  destruct gh as [g hits]. unfold enemy_test.
  destruct (enemies g !! j) as [[e|]|]; try apply shrinks_refl.
  destruct (bullets g !! i) as [[b|]|]; try apply shrinks_refl.
  match goal with |- context [if ?c then _ else _] => destruct c end;
    [|apply shrinks_refl].
  unfold shrinks. gsimpl. split; intros k v H; eapply insert_None_sub; exact H.
Qed.

Lemma player_test_shrinks (pr br : SDL_Rect) (i : nat) (gh : Game * list Hit) :
  shrinks (fst gh) (fst (player_test pr br i gh)).
Proof.
  destruct gh as [g hits]. unfold player_test.
  destruct (bullets g !! i) as [[b|]|]; try apply shrinks_refl.
  match goal with |- context [if ?c then _ else _] => destruct c end;
    [|apply shrinks_refl].
  gsimpl. match goal with |- context [if ?c then _ else _] => destruct c end;
    unfold shrinks; gsimpl;
    (split; [intros k v H; eapply insert_None_sub; exact H|auto]).
Qed.

Lemma settled_shrinks (pr : SDL_Rect) (g g' : Game) (i : nat) :
  shrinks g g' -> settled pr g i -> settled pr g' i.
Proof.
  intros (Hb & He) Hs b Hb'. destruct (Hs b (Hb i b Hb')) as (Hp & Hen).
  split; [exact Hp|]. intros j e Hj He'. apply (Hen j e Hj), He, He'.
Qed.

(** after the loop over the enemies bullet [i], if still live, overlaps none
    of them *)
Lemma enemy_loop_settles (i : nat) (b : Bullet.t) (gh : Game * list Hit) :
  bullets (fst gh) !! i = Some (Some b) ->
  shrinks (fst gh) (fst (for_each MAX_ENEMIES (enemy_test (bulletRect_of b) i) gh))
  /\ forall b', bullets (fst (for_each MAX_ENEMIES
                                (enemy_test (bulletRect_of b) i) gh)) !! i
                = Some (Some b') ->
       b' = b
       /\ forall j e, (j < MAX_ENEMIES)%nat ->
            enemies (fst (for_each MAX_ENEMIES
                            (enemy_test (bulletRect_of b) i) gh)) !! j
            = Some (Some e) ->
            enemy_hit_test b e = false.
Proof.
  intros Hb.
  pose (Q := fun (m : nat) (t : Game * list Hit) =>
    shrinks (fst gh) (fst t)
    /\ forall b', bullets (fst t) !! i = Some (Some b') ->
         b' = b
         /\ forall j e, (j < m)%nat -> enemies (fst t) !! j = Some (Some e) ->
              enemy_hit_test b e = false).
  apply (for_each_inv Q); subst Q; cbv beta.
  - split; [apply shrinks_refl|]. intros b' Hb'. split; [congruence|].
    intros j e Hj. lia.
  - intros m [t hits] Hm (Hsh & Hlive). cbn [fst] in *.
    split; [eapply shrinks_trans; [exact Hsh|apply (enemy_test_shrinks _ i m (t, hits))]|].
    unfold enemy_test.
    destruct (enemies t !! m) as [[e|]|] eqn:Ee.
    + destruct (bullets t !! i) as [[b0|]|] eqn:Eb.
      * destruct (Hlive b0 eq_refl) as (-> & Hprev).
        fold (enemy_hit_test b e). destruct (enemy_hit_test b e) eqn:Ehit.
        -- gsimpl. intros b' Hb'. exfalso.
           apply list_lookup_insert_Some in Hb' as [(_ & Hb' & _)|(Hne & _)];
             [discriminate|apply Hne; reflexivity].
        -- cbn [fst]. intros b' Hb'. rewrite Eb in Hb'. injection Hb' as <-.
           split; [reflexivity|]. intros j e' Hj He'.
           destruct (decide (j = m)) as [->|Hne].
           ++ rewrite Ee in He'. injection He' as <-. exact Ehit.
           ++ apply (Hprev j e'); [lia|exact He'].
      * cbn [fst]. intros b' Hb'. rewrite Eb in Hb'. discriminate.
      * cbn [fst]. intros b' Hb'. rewrite Eb in Hb'. discriminate.
    + cbn [fst]. intros b' Hb'. destruct (Hlive b' Hb') as (-> & Hprev).
      split; [reflexivity|]. intros j e' Hj He'.
      destruct (decide (j = m)) as [->|Hne]; [congruence|].
      apply (Hprev j e'); [lia|exact He'].
    + cbn [fst]. intros b' Hb'. destruct (Hlive b' Hb') as (-> & Hprev).
      split; [reflexivity|]. intros j e' Hj He'.
      destruct (decide (j = m)) as [->|Hne]; [congruence|].
      apply (Hprev j e'); [lia|exact He'].
Qed.

Lemma bullet_step_settles (pr : SDL_Rect) (i : nat) (gh : Game * list Hit) :
  shrinks (fst gh) (fst (bullet_step pr i gh))
  /\ settled pr (fst (bullet_step pr i gh)) i.
Proof.
  unfold bullet_step.
  destruct (bullets (fst gh) !! i) as [[b|]|] eqn:Eb.
  - destruct (enemy_loop_settles i b gh Eb) as (Hsh & Hlive).
    remember (for_each MAX_ENEMIES (enemy_test (bulletRect_of b) i) gh) as t eqn:Et.
    clear Et. split.
    { eapply shrinks_trans; [exact Hsh|apply player_test_shrinks]. }
    destruct t as [t hits]. cbn [fst] in *. unfold player_test.
    destruct (bullets t !! i) as [[b0|]|] eqn:Eb0.
    + destruct (Hlive b0 eq_refl) as (-> & Hen).
      fold (player_hit_test pr b). destruct (player_hit_test pr b) eqn:Ehit.
      * intros b' Hb'. exfalso. revert Hb'. gsimpl.
        match goal with |- context [if ?c then _ else _] => destruct c end;
          gsimpl; intros Hb';
          (apply list_lookup_insert_Some in Hb' as [(_ & Hb' & _)|(Hne & _)];
           [discriminate|apply Hne; reflexivity]).
      * cbn [fst]. intros b' Hb'. rewrite Eb0 in Hb'. injection Hb' as <-.
        split; [exact Ehit|exact Hen].
    + cbn [fst]. intros b' Hb'. rewrite Eb0 in Hb'. discriminate.
    + cbn [fst]. intros b' Hb'. rewrite Eb0 in Hb'. discriminate.
  - split; [apply shrinks_refl|]. intros b' Hb'. rewrite Eb in Hb'. discriminate.
  - split; [apply shrinks_refl|]. intros b' Hb'. rewrite Eb in Hb'. discriminate.
Qed.

Lemma collide_settles (g : Game) :
  shrinks g (fst (collide g))
  /\ forall i, (i < MAX_PROJECTILES)%nat ->
       settled (playerRect_of (player g)) (fst (collide g)) i.
Proof.
  unfold collide.
  pose (R := fun (n : nat) (t : Game * list Hit) =>
    shrinks g (fst t)
    /\ forall i, (i < n)%nat -> settled (playerRect_of (player g)) (fst t) i).
  apply (for_each_inv R); subst R; cbv beta.
  - split; [apply shrinks_refl|]. intros i Hi. lia.
  - intros n t Hn (Hsh & Hset).
    destruct (bullet_step_settles (playerRect_of (player g)) n t) as (Hsh' & Hs').
    split; [eapply shrinks_trans; eassumption|].
    intros i Hi. destruct (decide (i = n)) as [->|Hne]; [exact Hs'|].
    eapply settled_shrinks; [exact Hsh'|]. apply Hset. lia.
Qed.

(** X7: after [checkBulletCollisions] no overlap is left unresolved: a bullet
    that is still live overlaps the player rectangle of the frame only if it
    goes up ([vy = -1]), and overlaps a live enemy only if it goes down
    ([vy = 1]).  The function only releases bullets and enemies; those left
    are in their slots, unchanged. *)
Theorem checkBulletCollisions_resolves (g : Game) :
  (forall i b, (i < MAX_PROJECTILES)%nat ->
     bullets (checkBulletCollisions g) !! i = Some (Some b) ->
     (SDL_HasIntersection (bulletRect_of b) (playerRect_of (player g)) = true ->
        Bullet.vy b = -1)
     /\ (forall j e, (j < MAX_ENEMIES)%nat ->
           enemies (checkBulletCollisions g) !! j = Some (Some e) ->
           SDL_HasIntersection (bulletRect_of b) (enemyRect_of e) = true ->
           Bullet.vy b = 1))
  /\ (forall k b, bullets (checkBulletCollisions g) !! k = Some (Some b) ->
        bullets g !! k = Some (Some b))
  /\ (forall k e, enemies (checkBulletCollisions g) !! k = Some (Some e) ->
        enemies g !! k = Some (Some e)).
Proof.
  destruct (collide_settles g) as ((Hb & He) & Hset).
  unfold checkBulletCollisions. split; [|split; assumption].
  intros i b Hi Hlive. destruct (Hset i Hi b Hlive) as (Hp & Hen). split.
  - intros Hmeet. unfold player_hit_test in Hp. rewrite Hmeet in Hp.
    cbn [andb] in Hp. apply negb_false_iff, Z.eqb_eq in Hp. exact Hp.
  - intros j e Hj Hlj Hmeet. pose proof (Hen j e Hj Hlj) as Hh.
    unfold enemy_hit_test in Hh. rewrite Hmeet in Hh.
    cbn [andb] in Hh. apply negb_false_iff, Z.eqb_eq in Hh. exact Hh.
Qed.

(** ** The hits of a frame *)

Lemma hit_bullets_app (l1 l2 : list Hit) :
  hit_bullets (l1 ++ l2) = hit_bullets l1 ++ hit_bullets l2.
Proof.
  induction l1 as [|[i j|i] l1 IH]; simpl; [reflexivity| |]; rewrite IH; reflexivity.
Qed.

Lemma hit_enemies_app (l1 l2 : list Hit) :
  hit_enemies (l1 ++ l2) = hit_enemies l1 ++ hit_enemies l2.
Proof.
  induction l1 as [|[i j|i] l1 IH]; simpl; [reflexivity| |]; rewrite IH; reflexivity.
Qed.

Lemma player_hits_app (l1 l2 : list Hit) :
  player_hits (l1 ++ l2) = (player_hits l1 + player_hits l2)%nat.
Proof.
  induction l1 as [|[i j|i] l1 IH]; simpl; [reflexivity| |]; rewrite IH; reflexivity.
Qed.

Lemma NoDup_snoc (l : list nat) (x : nat) : NoDup l -> x ∉ l -> NoDup (l ++ [x]).
Proof.
  intros Hl Hx. apply NoDup_app. split; [exact Hl|]. split.
  - intros y Hy Hin. apply list_elem_of_singleton in Hin. congruence.
  - apply NoDup_singleton.
Qed.

Lemma elem_of_snoc (l : list nat) (x y : nat) :
  y ∈ l ++ [x] <-> y ∈ l \/ y = x.
Proof. rewrite elem_of_app, list_elem_of_singleton. reflexivity. Qed.

Lemma collide_log_start (pr : SDL_Rect) (g : Game) : collide_log pr g (g, []).
Proof.
  unfold collide_log. cbn [fst snd hit_bullets hit_enemies score_after fold_left].
  split; [apply NoDup_nil_2|]. split; [apply NoDup_nil_2|].
  split; [intros i H; inversion H|]. split; [reflexivity|].
  split; [intros i H; inversion H|]. split; [reflexivity|].
  split; [reflexivity|]. split; [intros i j H; inversion H|intros i H; inversion H].
Qed.

Lemma enemy_test_log (pr : SDL_Rect) (g : Game) (r : SDL_Rect) (i j : nat)
  (gh : Game * list Hit) :
  (i < MAX_PROJECTILES)%nat ->
  (forall b, bullets g !! i = Some (Some b) -> r = bulletRect_of b) ->
  collide_log pr g gh -> collide_log pr g (enemy_test r i j gh).
Proof.
  destruct gh as [t hits]. intros Hi Hr Hlog. unfold enemy_test.
  destruct (enemies t !! j) as [[e|]|] eqn:Ee; try exact Hlog.
  destruct (bullets t !! i) as [[b|]|] eqn:Eb; try exact Hlog.
  destruct (SDL_HasIntersection r (enemyRect_of e) && negb (Bullet.vy b =? 1))
    eqn:Ec; [|exact Hlog].
  destruct Hlog as (Hnb & Hne & Hb1 & Hb2 & He1 & He2 & Hsc & Hje & Hjp).
  cbn [fst snd] in *.
  assert (Hib : i ∉ hit_bullets hits).
  { intros Hin. destruct (Hb1 i Hin) as (_ & H). congruence. }
  assert (Hje' : j ∉ hit_enemies hits).
  { intros Hin. rewrite (He1 j Hin) in Ee. discriminate. }
  assert (Hbg : bullets g !! i = Some (Some b)) by (rewrite <- Hb2; assumption).
  assert (Heg : enemies g !! j = Some (Some e)) by (rewrite <- He2; assumption).
  unfold collide_log. cbn [fst snd]. gsimpl.
  rewrite hit_bullets_app, hit_enemies_app.
  cbn [hit_bullets hit_enemies].
  split; [apply NoDup_snoc; assumption|].
  split; [apply NoDup_snoc; assumption|]. split.
  { intros k Hk. apply elem_of_snoc in Hk as [Hk| ->].
    - destruct (Hb1 k Hk) as (Hk' & Hkn). split; [exact Hk'|].
      destruct (decide (k = i)) as [->|Hne']; [contradiction|].
      rewrite list_lookup_insert_ne by congruence. exact Hkn.
    - split; [exact Hi|]. apply list_lookup_insert_eq. eapply lookup_lt_Some, Eb. }
  split.
  { intros k Hk. rewrite elem_of_snoc in Hk.
    rewrite list_lookup_insert_ne by (intros ->; apply Hk; right; reflexivity).
    apply Hb2. intros Hin. apply Hk. left. exact Hin. }
  split.
  { intros k Hk. apply elem_of_snoc in Hk as [Hk| ->].
    - destruct (decide (k = j)) as [->|Hne']; [contradiction|].
      rewrite list_lookup_insert_ne by congruence. apply He1, Hk.
    - apply list_lookup_insert_eq. eapply lookup_lt_Some, Ee. }
  split.
  { intros k Hk. rewrite elem_of_snoc in Hk.
    rewrite list_lookup_insert_ne by (intros ->; apply Hk; right; reflexivity).
    apply He2. intros Hin. apply Hk. left. exact Hin. }
  split.
  { unfold score_after. rewrite fold_left_app. cbn [fold_left].
    fold (score_after (enemies g) hits (Player.score (player g))).
    rewrite <- Hsc. unfold reward_at. rewrite Heg. reflexivity. }
  split.
  { intros i' j' H. apply elem_of_app in H as [H|H]; [apply Hje, H|].
    apply list_elem_of_singleton in H. injection H as -> ->.
    exists b, e. split; [exact Hbg|]. split; [exact Heg|].
    unfold enemy_hit_test. rewrite <- (Hr b Hbg). exact Ec. }
  intros i' H. apply elem_of_app in H as [H|H]; [apply Hjp, H|].
  apply list_elem_of_singleton in H. discriminate.
Qed.

Lemma player_test_log (pr : SDL_Rect) (g : Game) (r : SDL_Rect) (i : nat)
  (gh : Game * list Hit) :
  (i < MAX_PROJECTILES)%nat ->
  (forall b, bullets g !! i = Some (Some b) -> r = bulletRect_of b) ->
  collide_log pr g gh -> collide_log pr g (player_test pr r i gh).
Proof.
  destruct gh as [t hits]. intros Hi Hr Hlog. unfold player_test.
  destruct (bullets t !! i) as [[b|]|] eqn:Eb; try exact Hlog.
  destruct (SDL_HasIntersection r pr && negb (Bullet.vy b =? -1))
    eqn:Ec; [|exact Hlog].
  destruct Hlog as (Hnb & Hne & Hb1 & Hb2 & He1 & He2 & Hsc & Hje & Hjp).
  cbn [fst snd] in *.
  assert (Hib : i ∉ hit_bullets hits).
  { intros Hin. destruct (Hb1 i Hin) as (_ & H). congruence. }
  assert (Hbg : bullets g !! i = Some (Some b)) by (rewrite <- Hb2; assumption).
  assert (Hgoal : forall t', bullets t' = <[i := None]> (bullets t) ->
            enemies t' = enemies t ->
            Player.score (player t') = Player.score (player t) ->
            collide_log pr g (t', hits ++ [PlayerHit i])).
  { intros t' Hbl Hen Hscore. unfold collide_log. cbn [fst snd].
    rewrite hit_bullets_app, hit_enemies_app. cbn [hit_bullets hit_enemies].
    rewrite app_nil_r, Hbl, Hen, Hscore.
    split; [apply NoDup_snoc; assumption|]. split; [exact Hne|]. split.
    { intros k Hk. apply elem_of_snoc in Hk as [Hk| ->].
      - destruct (Hb1 k Hk) as (Hk' & Hkn). split; [exact Hk'|].
        destruct (decide (k = i)) as [->|Hne']; [contradiction|].
        rewrite list_lookup_insert_ne by congruence. exact Hkn.
      - split; [exact Hi|]. apply list_lookup_insert_eq. eapply lookup_lt_Some, Eb. }
    split.
    { intros k Hk. rewrite elem_of_snoc in Hk.
      rewrite list_lookup_insert_ne by (intros ->; apply Hk; right; reflexivity).
      apply Hb2. intros Hin. apply Hk. left. exact Hin. }
    split; [exact He1|]. split; [exact He2|]. split.
    { unfold score_after. rewrite fold_left_app. cbn [fold_left]. exact Hsc. }
    split.
    { intros i' j' H. apply elem_of_app in H as [H|H]; [apply Hje, H|].
      apply list_elem_of_singleton in H. discriminate. }
    intros i' H. apply elem_of_app in H as [H|H]; [apply Hjp, H|].
    apply list_elem_of_singleton in H. injection H as ->.
    exists b. split; [exact Hbg|].
    unfold player_hit_test. rewrite <- (Hr b Hbg). exact Ec. }
  gsimpl. match goal with |- context [if ?c then _ else _] => destruct c end;
    apply Hgoal; reflexivity.
Qed.

Lemma enemy_test_lives (r : SDL_Rect) (i j : nat) (gh : Game * list Hit) :
  Player.livesLeft (player (fst (enemy_test r i j gh)))
    = Player.livesLeft (player (fst gh))
  /\ gameOver (fst (enemy_test r i j gh)) = gameOver (fst gh)
  /\ player_hits (snd (enemy_test r i j gh)) = player_hits (snd gh).
Proof.
  destruct gh as [t hits]. unfold enemy_test.
  destruct (enemies t !! j) as [[e|]|]; try (repeat split; reflexivity).
  destruct (bullets t !! i) as [[b|]|]; try (repeat split; reflexivity).
  match goal with |- context [if ?c then _ else _] => destruct c end;
    [|repeat split; reflexivity].
  cbn [fst snd]. gsimpl. rewrite player_hits_app. cbn [player_hits].
  repeat split. lia.
Qed.

Lemma enemy_loop_lives (r : SDL_Rect) (i n : nat) (gh : Game * list Hit) :
  Player.livesLeft (player (fst (for_each n (enemy_test r i) gh)))
    = Player.livesLeft (player (fst gh))
  /\ gameOver (fst (for_each n (enemy_test r i) gh)) = gameOver (fst gh)
  /\ player_hits (snd (for_each n (enemy_test r i) gh)) = player_hits (snd gh).
Proof.
  apply (for_each_inv (fun _ t =>
    Player.livesLeft (player (fst t)) = Player.livesLeft (player (fst gh))
    /\ gameOver (fst t) = gameOver (fst gh)
    /\ player_hits (snd t) = player_hits (snd gh))).
  - repeat split.
  - intros j t _ (Hl & Hg & Hp).
    destruct (enemy_test_lives r i j t) as (-> & -> & ->). repeat split; assumption.
Qed.

Lemma player_test_lives (g : Game) (pr r : SDL_Rect) (i n : nat)
  (gh : Game * list Hit) :
  Int.INT_MIN + Z.of_nat (S n) <= Player.livesLeft (player g) <= Int.INT_MAX ->
  collide_lives g n gh -> collide_lives g (S n) (player_test pr r i gh).
Proof.
  destruct gh as [t hits]. intros Hrange (Hc & Hl & Hg).
  cbn [fst snd] in *. unfold player_test.
  destruct (bullets t !! i) as [[b|]|];
    try (unfold collide_lives; cbn [fst snd]; repeat split; [lia|assumption..]).
  match goal with |- context [if ?c then _ else _] => destruct c end;
    [|unfold collide_lives; cbn [fst snd]; repeat split; [lia|assumption..]].
  assert (Hsub : Int.sub (Player.livesLeft (player t)) 1
                 = Player.livesLeft (player t) - 1).
  { unfold Int.sub. apply Int_wrap_id.
    unfold Int.in_range, Int.INT_MIN, Int.INT_MAX in *. lia. }
  gsimpl. cbn [Player.livesLeft Player.set_livesLeft]. rewrite Hsub.
  unfold collide_lives. cbn [fst snd]. rewrite player_hits_app. cbn [player_hits].
  assert (Hpos : (0 <? player_hits hits + 1)%nat = true)
    by (apply Nat.ltb_lt; lia).
  destruct (Z.leb_spec (Player.livesLeft (player t) - 1) 0) as [Hle|Hgt]; gsimpl;
    cbn [Player.livesLeft Player.set_px Player.set_py Player.set_livesLeft];
    rewrite Hpos; cbn [andb].
  - split; [lia|]. split; [lia|].
    destruct (Z.leb_spec (Player.livesLeft (player t) - 1) 0); [|lia].
    rewrite orb_true_r. reflexivity.
  - split; [lia|]. split; [lia|].
    destruct (Z.leb_spec (Player.livesLeft (player t) - 1) 0); [lia|].
    rewrite Hg, orb_false_r.
    destruct (Z.leb_spec (Player.livesLeft (player t)) 0); [lia|].
    rewrite andb_false_r, orb_false_r. reflexivity.
Qed.

Lemma bullet_step_log (g : Game) (n : nat) (gh : Game * list Hit) :
  (n < MAX_PROJECTILES)%nat ->
  Int.INT_MIN + Z.of_nat MAX_PROJECTILES <= Player.livesLeft (player g) <= Int.INT_MAX ->
  collide_log (playerRect_of (player g)) g gh /\ collide_lives g n gh ->
  collide_log (playerRect_of (player g)) g
    (bullet_step (playerRect_of (player g)) n gh)
  /\ collide_lives g (S n) (bullet_step (playerRect_of (player g)) n gh).
Proof.
  intros Hn Hrange (Hlog & Hlives).
  assert (Hstay : collide_lives g (S n) gh).
  { destruct Hlives as (Hc & Hl & Hg). split; [lia|]. split; assumption. }
  unfold bullet_step.
  destruct (bullets (fst gh) !! n) as [[b|]|] eqn:Eb;
    try (split; assumption).
  assert (Hbg : forall b', bullets g !! n = Some (Some b') ->
                  bulletRect_of b = bulletRect_of b').
  { intros b' Hb'. destruct Hlog as (_ & _ & Hb1 & Hb2 & _).
    destruct (decide (n ∈ hit_bullets (snd gh))) as [Hin|Hnin].
    - destruct (Hb1 n Hin) as (_ & H). congruence.
    - rewrite (Hb2 n Hnin) in Eb. congruence. }
  split.
  - apply player_test_log; [exact Hn|exact Hbg|].
    apply (for_each_inv (fun _ t => collide_log (playerRect_of (player g)) g t));
      [exact Hlog|].
    intros j t _ Ht. apply enemy_test_log; assumption.
  - apply player_test_lives.
    + unfold MAX_PROJECTILES in *. lia.
    + destruct (enemy_loop_lives (bulletRect_of b) n MAX_ENEMIES gh)
        as (Hl' & Hg' & Hp').
      destruct Hlives as (Hc & Hl & Hg).
      unfold collide_lives. rewrite Hl', Hg', Hp'.
      split; [exact Hc|]. split; assumption.
Qed.

Lemma collide_log_end (g : Game) :
  Int.INT_MIN + Z.of_nat MAX_PROJECTILES <= Player.livesLeft (player g) <= Int.INT_MAX ->
  collide_log (playerRect_of (player g)) g (collide g)
  /\ collide_lives g MAX_PROJECTILES (collide g).
Proof.
  intros Hrange. unfold collide.
  apply (for_each_inv (fun n t =>
    collide_log (playerRect_of (player g)) g t /\ collide_lives g n t)).
  - split; [apply collide_log_start|].
    unfold collide_lives. cbn [fst snd player_hits Nat.ltb Nat.leb andb].
    rewrite orb_false_r, Z.sub_0_r. repeat split. lia.
  - intros n t Hn Ht. apply bullet_step_log; assumption.
Qed.

Lemma bullet_step_log_only (g : Game) (n : nat) (gh : Game * list Hit) :
  (n < MAX_PROJECTILES)%nat ->
  collide_log (playerRect_of (player g)) g gh ->
  collide_log (playerRect_of (player g)) g
    (bullet_step (playerRect_of (player g)) n gh).
Proof.
  intros Hn Hlog. unfold bullet_step.
  destruct (bullets (fst gh) !! n) as [[b|]|] eqn:Eb; try assumption.
  assert (Hbg : forall b', bullets g !! n = Some (Some b') ->
                  bulletRect_of b = bulletRect_of b').
  { intros b' Hb'. destruct Hlog as (_ & _ & Hb1 & Hb2 & _).
    destruct (decide (n ∈ hit_bullets (snd gh))) as [Hin|Hnin].
    - destruct (Hb1 n Hin) as (_ & H). congruence.
    - rewrite (Hb2 n Hnin) in Eb. congruence. }
  apply player_test_log; [exact Hn|exact Hbg|].
  apply (for_each_inv (fun _ t => collide_log (playerRect_of (player g)) g t));
    [exact Hlog|].
  intros j t _ Ht. apply enemy_test_log; assumption.
Qed.

Lemma collide_log_only (g : Game) :
  collide_log (playerRect_of (player g)) g (collide g).
Proof.
  unfold collide.
  apply (for_each_inv (fun _ t => collide_log (playerRect_of (player g)) g t)).
  - apply collide_log_start.
  - intros n t Hn Ht. apply bullet_step_log_only; assumption.
Qed.

Lemma hit_bullets_length (hits : list Hit) : length (hit_bullets hits) = length hits.
Proof.
  induction hits as [|[i j|i] hits IH]; simpl; [reflexivity| |]; rewrite IH; reflexivity.
Qed.

Lemma NoDup_bounded_length (l : list nat) (n : nat) :
  NoDup l -> (forall x, x ∈ l -> (x < n)%nat) -> (length l <= n)%nat.
Proof.
  intros Hnd Hb. transitivity (length (seq 0 n)); [|rewrite length_seq; lia].
  apply submseteq_length, NoDup_submseteq; [exact Hnd|].
  intros x Hx. apply elem_of_seq. specialize (Hb x Hx). lia.
Qed.

(** X8: in one call of [checkBulletCollisions] a bullet registers at most
    one hit and an enemy is hit at most once, so there are at most 20 hits.
    Every hit is between a bullet and a target of the state on entry whose
    rectangles intersect, with the bullet not moving away from the target's
    side.  Afterwards exactly the bullets and enemies that were hit are
    released; every other slot is as on entry. *)
Theorem collision_hits_are_exclusive (g : Game) :
  NoDup (hit_bullets (hits_of g))
  /\ NoDup (hit_enemies (hits_of g))
  /\ (length (hits_of g) <= 20)%nat
  /\ (forall i j, EnemyHit i j ∈ hits_of g ->
        exists b e, bullets g !! i = Some (Some b)
          /\ enemies g !! j = Some (Some e)
          /\ SDL_HasIntersection (bulletRect_of b) (enemyRect_of e) = true
          /\ Bullet.vy b <> 1)
  /\ (forall i, PlayerHit i ∈ hits_of g ->
        exists b, bullets g !! i = Some (Some b)
          /\ SDL_HasIntersection (bulletRect_of b) (playerRect_of (player g)) = true
          /\ Bullet.vy b <> -1)
  /\ (forall i, i ∈ hit_bullets (hits_of g) ->
        bullets (checkBulletCollisions g) !! i = Some None)
  /\ (forall i, i ∉ hit_bullets (hits_of g) ->
        bullets (checkBulletCollisions g) !! i = bullets g !! i)
  /\ (forall j, j ∈ hit_enemies (hits_of g) ->
        enemies (checkBulletCollisions g) !! j = Some None)
  /\ (forall j, j ∉ hit_enemies (hits_of g) ->
        enemies (checkBulletCollisions g) !! j = enemies g !! j).
Proof.
  destruct (collide_log_only g)
    as (Hnb & Hne & Hb1 & Hb2 & He1 & He2 & _ & Hje & Hjp).
  unfold hits_of, checkBulletCollisions.
  split; [exact Hnb|]. split; [exact Hne|]. split.
  { rewrite <- hit_bullets_length.
    apply (NoDup_bounded_length _ 20 Hnb). intros i Hi. apply (Hb1 i Hi). }
  split.
  { intros i j Hin. destruct (Hje i j Hin) as (b & e & Hb & He & Ht).
    exists b, e. apply andb_prop in Ht as [Hm Hv].
    apply negb_true_iff, Z.eqb_neq in Hv. repeat split; assumption. }
  split.
  { intros i Hin. destruct (Hjp i Hin) as (b & Hb & Ht).
    exists b. apply andb_prop in Ht as [Hm Hv].
    apply negb_true_iff, Z.eqb_neq in Hv. repeat split; assumption. }
  split; [intros i Hi; apply (Hb1 i Hi)|].
  split; [exact Hb2|]. split; assumption.
Qed.

Lemma score_after_sum (en : pool Enemy.t) (hits : list Hit) (s : Z) :
  (forall j, 0 <= reward_at en j) ->
  Int.INT_MIN <= s -> s + rewards en hits <= Int.INT_MAX ->
  score_after en hits s = s + rewards en hits.
Proof.
  intros Hpos. revert s. unfold score_after, rewards.
  induction hits as [|[i j|i] hits IH]; intros s Hmin Hmax; cbn in *.
  - lia.
  - assert (H0 : 0 <= fold_right (fun j acc => reward_at en j + acc) 0
                        (hit_enemies hits)).
    { clear -Hpos. induction (hit_enemies hits) as [|k l IHl]; cbn; [lia|].
      specialize (Hpos k). lia. }
    specialize (Hpos j).
    assert (Hadd : Int.add s (reward_at en j) = s + reward_at en j).
    { unfold Int.add. apply Int_wrap_id.
      unfold Int.in_range, Int.INT_MIN, Int.INT_MAX in *. lia. }
    rewrite Hadd, IH; lia.
  - apply IH; assumption.
Qed.

(** X9: [checkBulletCollisions] adds to the score the kill rewards of the
    enemies hit, one [int] addition per hit in the order of the hits, which
    is the plain sum when rewards are non-negative and the total fits in an
    [int]; it takes one life per hit on the player, and the game-over flag
    afterwards is the flag on entry or "the player was hit and has no life
    left". *)
Theorem collision_accounting (g : Game) :
  Int.INT_MIN + 20 <= Player.livesLeft (player g) <= Int.INT_MAX ->
  Player.score (player (checkBulletCollisions g))
    = score_after (enemies g) (hits_of g) (Player.score (player g))
  /\ ((forall j, 0 <= reward_at (enemies g) j) ->
      Int.INT_MIN <= Player.score (player g) ->
      Player.score (player g) + rewards (enemies g) (hits_of g) <= Int.INT_MAX ->
      Player.score (player (checkBulletCollisions g))
      = Player.score (player g) + rewards (enemies g) (hits_of g))
  /\ Player.livesLeft (player (checkBulletCollisions g))
     = Player.livesLeft (player g) - Z.of_nat (player_hits (hits_of g))
  /\ (player_hits (hits_of g) <= 20)%nat
  /\ gameOver (checkBulletCollisions g)
     = gameOver g
       || ((0 <? player_hits (hits_of g))%nat
           && (Player.livesLeft (player (checkBulletCollisions g)) <=? 0)).
Proof.
  intros Hrange.
  destruct (collide_log_end g Hrange)
    as ((_ & _ & _ & _ & _ & _ & Hsc & _) & (Hc & Hl & Hg)).
  unfold hits_of, checkBulletCollisions.
  split; [exact Hsc|]. split.
  { intros Hpos Hmin Hmax. rewrite Hsc. apply score_after_sum; assumption. }
  split; [exact Hl|]. split; [exact Hc|exact Hg].
Qed.

(** ** What a frame does to the scalars *)

Lemma same_globals_refl (g : Game) : same_globals g g.
Proof. repeat split. Qed.

Lemma same_globals_trans (g1 g2 g3 : Game) :
  same_globals g1 g2 -> same_globals g2 g3 -> same_globals g1 g3.
Proof.
  unfold same_globals. intros (? & ? & ? & ? & ? & ? & ?) (? & ? & ? & ? & ? & ? & ?).
  repeat split; congruence.
Qed.

Lemma enemy_test_globals (r : SDL_Rect) (i j : nat) (gh : Game * list Hit) :
  same_globals (fst gh) (fst (enemy_test r i j gh)).
Proof.
  destruct gh as [g hits]. unfold enemy_test.
  destruct (enemies g !! j) as [[e|]|]; try apply same_globals_refl.
  destruct (bullets g !! i) as [[b|]|]; try apply same_globals_refl.
  match goal with |- context [if ?c then _ else _] => destruct c end;
    [|apply same_globals_refl].
  unfold same_globals. gsimpl. repeat split.
Qed.

Lemma player_test_globals (pr br : SDL_Rect) (i : nat) (gh : Game * list Hit) :
  same_globals (fst gh) (fst (player_test pr br i gh)).
Proof.
  destruct gh as [g hits]. unfold player_test.
  destruct (bullets g !! i) as [[b|]|]; try apply same_globals_refl.
  match goal with |- context [if ?c then _ else _] => destruct c end;
    [|apply same_globals_refl].
  gsimpl. match goal with |- context [if ?c then _ else _] => destruct c end;
    unfold same_globals; gsimpl; repeat split.
Qed.

Lemma checkBulletCollisions_globals (g : Game) :
  same_globals g (checkBulletCollisions g).
Proof.
  unfold checkBulletCollisions, collide.
  apply (for_each_inv (fun _ t => same_globals g (fst t)));
    [apply same_globals_refl|].
  intros i t _ Ht. eapply same_globals_trans; [exact Ht|].
  unfold bullet_step.
  destruct (bullets (fst t) !! i) as [[b|]|]; try apply same_globals_refl.
  eapply same_globals_trans; [|apply player_test_globals].
  apply (for_each_inv (fun _ t' => same_globals (fst t) (fst t')));
    [apply same_globals_refl|].
  intros j t' _ Ht'. eapply same_globals_trans; [exact Ht'|apply enemy_test_globals].
Qed.

Lemma turn_playGame (g : Game) : playGame (turn g) = playGame g.
Proof. reflexivity. Qed.

Lemma updateEnemies_frame (delta : float) (g : Game) :
  player (updateEnemies delta g) = player g
  /\ bullets (updateEnemies delta g) = bullets g
  /\ particles (updateEnemies delta g) = particles g
  /\ currentWave (updateEnemies delta g) = currentWave g
  /\ playGame (updateEnemies delta g) = playGame g.
Proof.
  pose proof (move_phase_spec delta g)
    as (_ & _ & Hp & Hb & Hpa & Hw & Hpg & _).
  destruct (updateEnemies_cases delta g) as [-> | ->].
  - repeat split; assumption.
  - rewrite turn_player, turn_bullets, turn_particles, turn_currentWave,
      turn_playGame. repeat split; assumption.
Qed.

Lemma updateParticles_frame (delta : float) (g : Game) :
  player (updateParticles delta g) = player g
  /\ enemies (updateParticles delta g) = enemies g
  /\ bullets (updateParticles delta g) = bullets g
  /\ ENEMY_SPEED_MULT (updateParticles delta g) = ENEMY_SPEED_MULT g
  /\ enemyDir (updateParticles delta g) = enemyDir g
  /\ currentWave (updateParticles delta g) = currentWave g
  /\ gameOver (updateParticles delta g) = gameOver g
  /\ playGame (updateParticles delta g) = playGame g.
Proof. unfold updateParticles. gsimpl. repeat split. Qed.

(** the player's record, the wave number and the mode when the collisions
    of a frame are about to be resolved *)
Lemma before_collisions_frame (rng : nat -> Z) (keys : Keys) (delta : float)
  (g : Game) :
  player (before_collisions rng keys delta g) = player (updatePlayer keys delta g)
  /\ currentWave (before_collisions rng keys delta g) = currentWave g
  /\ playGame (before_collisions rng keys delta g) = playGame g.
Proof.
  unfold before_collisions.
  destruct (enemyShoot_effects rng delta
              (updateParticles delta
                 (updateEnemies delta (updateBullets delta (updatePlayer keys delta g)))))
    as (st & -> & (_ & _ & Hp & _ & _ & _ & Hw & _ & Hpg)).
  rewrite Hp, Hw, Hpg.
  destruct (updateParticles_frame delta
              (updateEnemies delta (updateBullets delta (updatePlayer keys delta g))))
    as (-> & _ & _ & _ & _ & -> & _ & ->).
  destruct (updateEnemies_frame delta (updateBullets delta (updatePlayer keys delta g)))
    as (-> & _ & _ & -> & ->).
  destruct (updateBullets_spec delta (updatePlayer keys delta g))
    as (-> & _ & _ & _ & -> & _ & -> & _).
  destruct (updatePlayer_frame keys delta g)
    as (_ & _ & _ & _ & _ & _ & _ & _ & -> & _ & -> & _).
  repeat split.
Qed.

Lemma before_check_frame (rng : nat -> Z) (keys : Keys) (delta : float) (g : Game) :
  currentWave (before_check rng keys delta g) = currentWave g
  /\ playGame (before_check rng keys delta g) = playGame g
  /\ Player.hiScore (player (before_check rng keys delta g))
     = Player.hiScore (player g).
Proof.
  unfold before_check.
  destruct (checkBulletCollisions_globals (before_collisions rng keys delta g))
    as (-> & -> & _ & _ & _ & -> & _).
  destruct (before_collisions_frame rng keys delta g) as (-> & -> & ->).
  destruct (updatePlayer_frame keys delta g) as (_ & _ & -> & _).
  repeat split.
Qed.

Lemma update_playing_check (rng : nat -> Z) (keys : Keys) (delta : float) (g : Game) :
  playGame g = true ->
  update rng keys delta g = checkGameState (before_check rng keys delta g).
Proof. intros H. unfold before_check. apply update_playing, H. Qed.

Lemma wave_clear_branch_frame (t : Game) :
  playGame (wave_clear_branch t) = playGame t
  /\ enemyDir (wave_clear_branch t) = enemyDir t
  /\ ENEMY_SPEED_MULT (wave_clear_branch t) = ENEMY_SPEED_MULT t
  /\ particles (wave_clear_branch t) = particles t
  /\ bullets (wave_clear_branch t) = bullets t
  /\ gameOver (wave_clear_branch t) = gameOver t
  /\ Player.hiScore (player (wave_clear_branch t)) = Player.hiScore (player t)
  /\ Player.score (player (wave_clear_branch t)) = Player.score (player t).
Proof.
  unfold wave_clear_branch.
  destruct (no_enemy_left (enemies t)); repeat split.
Qed.

Lemma checkGameState_frame (g : Game) :
  playGame (checkGameState g) = playGame g
  /\ enemyDir (checkGameState g) = enemyDir g
  /\ ENEMY_SPEED_MULT (checkGameState g) = ENEMY_SPEED_MULT g
  /\ particles (checkGameState g) = particles g
  /\ gameOver (checkGameState g) = false
  /\ Player.hiScore (player (checkGameState g))
     = (if gameOver g
        then Z.max (Player.hiScore (player g)) (Player.score (player g))
        else Player.hiScore (player g)).
Proof.
  unfold checkGameState.
  destruct (wave_clear_branch_frame (game_over_branch g))
    as (-> & -> & -> & -> & _ & -> & -> & _).
  destruct (gameOver g) eqn:Hgo.
  - rewrite (game_over_branch_set g Hgo). repeat split.
  - unfold game_over_branch. rewrite Hgo. repeat split. exact Hgo.
Qed.

Lemma checkGameState_wave (g : Game) :
  length (enemies g) = MAX_ENEMIES ->
  currentWave (checkGameState g)
  = (if gameOver g then currentWave g
     else if no_enemy_left (enemies g) then Int.add (currentWave g) 1
          else currentWave g).
Proof.
  intros Hlen. unfold checkGameState. destruct (gameOver g) eqn:Hgo.
  - unfold wave_clear_branch.
    rewrite (game_over_branch_populated g Hgo Hlen).
    rewrite (game_over_branch_set g Hgo). reflexivity.
  - unfold game_over_branch. rewrite Hgo. unfold wave_clear_branch.
    destruct (no_enemy_left (enemies g)); reflexivity.
Qed.

(** ** Invariants of a run *)

Lemma pool_all_shrinks (g g' : Game) :
  shrinks g g' -> pool_all vertical (bullets g) -> pool_all vertical (bullets g').
Proof. intros (Hb & _) Hall i b Hi. apply (Hall i b), Hb, Hi. Qed.

Lemma updateBullets_vertical (delta : float) (g : Game) :
  pool_all vertical (bullets g) -> pool_all vertical (bullets (updateBullets delta g)).
Proof.
  intros Hall i b Hb.
  destruct (updateBullets_spec delta g) as (_ & _ & _ & _ & _ & _ & _ & _ & _ & Hbl).
  rewrite Hbl in Hb. destruct (decide (i < MAX_PROJECTILES)%nat).
  - destruct (bullets g !! i) as [[b0|]|] eqn:E; try discriminate.
    cbn in Hb. destruct (off_screen (flown delta b0)); [discriminate|].
    injection Hb as <-. apply (Hall i b0 E).
  - apply (Hall i b Hb).
Qed.

Lemma before_collisions_vertical (rng : nat -> Z) (keys : Keys) (delta : float)
  (g : Game) :
  pool_all vertical (bullets g) ->
  pool_all vertical (bullets (before_collisions rng keys delta g)).
Proof.
  intros Hall. unfold before_collisions.
  match goal with |- pool_all _ (bullets (enemyShoot _ _ ?t)) =>
    destruct (enemyShoot_effects rng delta t) as (st & -> & (_ & Hgrow & _));
    eapply grows_by_all;
      [eapply grows_by_weaken; [|exact Hgrow];
       intros b (k & e & _ & _ & _ & ->); left; reflexivity|]
  end.
  destruct (updateParticles_frame delta
              (updateEnemies delta (updateBullets delta (updatePlayer keys delta g))))
    as (_ & _ & -> & _).
  destruct (updateEnemies_frame delta (updateBullets delta (updatePlayer keys delta g)))
    as (_ & -> & _).
  apply updateBullets_vertical.
  eapply grows_by_all; [|exact Hall].
  eapply grows_by_weaken; [|apply updatePlayer_bullets_grow].
  intros b Hb. right. exact Hb.
Qed.

Lemma checkBulletCollisions_shrinks (g : Game) :
  shrinks g (checkBulletCollisions g).
Proof. unfold checkBulletCollisions. apply collide_settles. Qed.

Lemma freeBullets_sub (g : Game) (k : nat) (b : Bullet.t) :
  bullets (freeBullets g) !! k = Some (Some b) -> bullets g !! k = Some (Some b).
Proof.
  unfold freeBullets. cbn [bullets set_bullets].
  rewrite free_all_slotwise, for_each_slotwise_lookup.
  destruct (decide (k < MAX_PROJECTILES)%nat); [|auto].
  destruct (bullets g !! k); discriminate.
Qed.

Lemma checkGameState_bullets_sub (g : Game) (k : nat) (b : Bullet.t) :
  bullets (checkGameState g) !! k = Some (Some b) -> bullets g !! k = Some (Some b).
Proof.
  unfold checkGameState.
  destruct (wave_clear_branch_frame (game_over_branch g))
    as (_ & _ & _ & _ & -> & _).
  unfold game_over_branch. destruct (gameOver g); [|auto].
  intros H. apply freeBullets_sub. exact H.
Qed.

Lemma checkGameState_post (g : Game) :
  wf g ->
  (gameOver g = false -> 1 <= Player.livesLeft (player g) <= 3) ->
  1 <= Player.livesLeft (player (checkGameState g)) <= 3
  /\ no_enemy_left (enemies (checkGameState g)) = false.
Proof.
  intros (Hlen & _ & _) Hlives. unfold checkGameState.
  destruct (gameOver g) eqn:Hgo.
  - assert (Hskip : wave_clear_branch (game_over_branch g) = game_over_branch g).
    { unfold wave_clear_branch.
      rewrite (game_over_branch_populated g Hgo Hlen). reflexivity. }
    rewrite Hskip. split; [|apply game_over_branch_populated; assumption].
    rewrite (game_over_branch_set g Hgo). cbn. lia.
  - unfold game_over_branch. rewrite Hgo. unfold wave_clear_branch.
    destruct (no_enemy_left (enemies g)) eqn:En.
    + split; [cbn; lia|].
      apply no_enemy_left_createEnemies.
      rewrite freeEnemies_length. exact Hlen.
    + split; [apply Hlives; reflexivity|exact En].
Qed.

Lemma checkBulletCollisions_lives (g : Game) :
  Int.INT_MIN + 20 <= Player.livesLeft (player g) <= Int.INT_MAX ->
  Player.livesLeft (player (checkBulletCollisions g))
    = Player.livesLeft (player g) - Z.of_nat (player_hits (hits_of g))
  /\ (player_hits (hits_of g) <= 20)%nat
  /\ gameOver (checkBulletCollisions g)
     = gameOver g
       || ((0 <? player_hits (hits_of g))%nat
           && (Player.livesLeft (player (checkBulletCollisions g)) <=? 0)).
Proof.
  intros Hrange. destruct (collide_log_end g Hrange) as (_ & (Hc & Hl & Hg)).
  unfold hits_of, checkBulletCollisions.
  split; [exact Hl|]. split; [exact Hc|exact Hg].
Qed.

Lemma lives_after_hits (l l' : Z) (k : nat) (go go' : bool) :
  1 <= l <= 3 -> l' = l - Z.of_nat k ->
  go' = go || ((0 <? k)%nat && (l' <=? 0)) -> go' = false ->
  1 <= l' <= 3.
Proof.
  intros Hl -> -> Hgo. apply orb_false_iff in Hgo as (_ & Hgo).
  destruct k as [|k]; [lia|].
  cbn [Nat.ltb Nat.leb andb] in Hgo. apply Z.leb_gt in Hgo. lia.
Qed.

Lemma before_check_eq (rng : nat -> Z) (keys : Keys) (delta : float) (g : Game) :
  before_check rng keys delta g
  = checkBulletCollisions (before_collisions rng keys delta g).
Proof. unfold before_check. reflexivity. Qed.

Lemma before_collisions_lives (rng : nat -> Z) (keys : Keys) (delta : float)
  (g : Game) :
  Player.livesLeft (player (before_collisions rng keys delta g))
  = Player.livesLeft (player g).
Proof.
  destruct (before_collisions_frame rng keys delta g) as (-> & _).
  apply (updatePlayer_frame keys delta g).
Qed.

Lemma before_check_lives (rng : nat -> Z) (keys : Keys) (delta : float) (g : Game) :
  1 <= Player.livesLeft (player g) <= 3 ->
  gameOver (before_check rng keys delta g) = false ->
  1 <= Player.livesLeft (player (before_check rng keys delta g)) <= 3.
Proof.
  intros Hl Hgo. rewrite before_check_eq in *.
  pose proof (before_collisions_lives rng keys delta g) as Hl5.
  assert (Hrange : Int.INT_MIN + 20
                   <= Player.livesLeft (player (before_collisions rng keys delta g))
                   <= Int.INT_MAX).
  { rewrite Hl5. unfold Int.INT_MIN, Int.INT_MAX. lia. }
  destruct (checkBulletCollisions_lives _ Hrange) as (Hlives & _ & Hg).
  rewrite Hl5 in Hlives.
  exact (lives_after_hits _ _ _ _ _ Hl Hlives Hg Hgo).
Qed.

Lemma update_between_frames (rng : nat -> Z) (keys : Keys) (delta : float) (g : Game) :
  between_frames g -> between_frames (update rng keys delta g).
Proof.
  intros (Hwf & Hgo & Hl & Hen & Hv).
  destruct (playGame g) eqn:Hpg.
  - rewrite (update_playing_check rng keys delta g Hpg).
    assert (Hwf' : wf (before_check rng keys delta g)).
    { rewrite before_check_eq.
      eapply same_shape_wf; [apply checkBulletCollisions_shape|].
      unfold before_collisions.
      eapply same_shape_wf; [apply enemyShoot_shape|].
      eapply same_shape_wf; [apply updateParticles_shape|].
      eapply same_shape_wf; [apply updateEnemies_shape|].
      eapply same_shape_wf; [apply updateBullets_shape|].
      eapply same_shape_wf; [apply updatePlayer_shape|exact Hwf]. }
    destruct (checkGameState_post (before_check rng keys delta g) Hwf'
                (before_check_lives rng keys delta g Hl)) as (Hl' & Hen').
    split; [eapply same_shape_wf; [apply checkGameState_shape|exact Hwf']|].
    split; [apply checkGameState_frame|]. split; [exact Hl'|].
    split; [exact Hen'|].
    intros i b Hb. apply checkGameState_bullets_sub in Hb. revert i b Hb.
    rewrite before_check_eq.
    apply (pool_all_shrinks (before_collisions rng keys delta g));
      [apply checkBulletCollisions_shrinks|].
    apply before_collisions_vertical, Hv.
  - unfold update. rewrite Hpg. unfold checkGameStart.
    destruct (SCANCODE_SPACE keys);
      unfold between_frames, wf, set_playGame;
      cbn [player enemies bullets particles gameOver];
      repeat split; try assumption; try apply Hwf; lia.
Qed.

Lemma init_between_frames : between_frames init.
Proof.
  split; [apply wf_init|]. split; [reflexivity|]. split; [cbn; lia|].
  split; [vm_compute; reflexivity|].
  intros i b Hb. exfalso. unfold init, createEnemies in Hb.
  cbn [bullets set_enemies set_player globals] in Hb.
  apply lookup_replicate in Hb as [Hb _]. discriminate.
Qed.

Lemma reachable_between_frames (rng : nat -> Z) (g : Game) :
  reachable rng g -> between_frames g.
Proof.
  induction 1 as [|keys delta g _ IH]; [apply init_between_frames|].
  apply update_between_frames, IH.
Qed.

Lemma no_enemy_left_false_inv (en : pool Enemy.t) :
  no_enemy_left en = false ->
  exists i e, (i < MAX_ENEMIES)%nat /\ en !! i = Some (Some e).
Proof.
  unfold no_enemy_left.
  apply (for_each_inv (fun k b =>
    b = false -> exists i e, (i < k)%nat /\ en !! i = Some (Some e))).
  - discriminate.
  - intros k b Hk IH Hb.
    destruct (en !! k) as [[e|]|] eqn:E.
    + exists k, e. split; [lia|exact E].
    + destruct (IH Hb) as (i & e & Hi & He). exists i, e. split; [lia|exact He].
    + destruct (IH Hb) as (i & e & Hi & He). exists i, e. split; [lia|exact He].
Qed.

(** X10: at the start of every frame of a run from [init] the game-over flag
    is clear, the player has between 1 and 3 lives, some enemy is alive and
    the three arrays have their declared sizes. *)
Theorem frame_starts_in_play (rng : nat -> Z) (g : Game) :
  reachable rng g ->
  gameOver g = false
  /\ 1 <= Player.livesLeft (player g) <= 3
  /\ (exists i e, (i < MAX_ENEMIES)%nat /\ enemies g !! i = Some (Some e))
  /\ wf g.
Proof.
  intros Hr. destruct (reachable_between_frames rng g Hr) as (Hwf & Hgo & Hl & Hen & _).
  split; [exact Hgo|]. split; [exact Hl|].
  split; [apply no_enemy_left_false_inv, Hen|exact Hwf].
Qed.

Lemma checkGameState_enemies (g : Game) :
  length (enemies g) = MAX_ENEMIES ->
  no_enemy_left (enemies (checkGameState g)) = false.
Proof.
  intros Hlen. unfold checkGameState. destruct (gameOver g) eqn:Hgo.
  - assert (Hskip : wave_clear_branch (game_over_branch g) = game_over_branch g).
    { unfold wave_clear_branch.
      rewrite (game_over_branch_populated g Hgo Hlen). reflexivity. }
    rewrite Hskip. apply game_over_branch_populated; assumption.
  - unfold game_over_branch. rewrite Hgo. unfold wave_clear_branch.
    destruct (no_enemy_left (enemies g)) eqn:En; [|exact En].
    apply no_enemy_left_createEnemies. rewrite freeEnemies_length. exact Hlen.
Qed.

(** X11: after [checkGameState] the game-over flag is clear and some enemy is
    alive, whatever the state before; hence a second call changes nothing. *)
Theorem checkGameState_settles (g : Game) :
  length (enemies g) = MAX_ENEMIES ->
  gameOver (checkGameState g) = false
  /\ (exists i e, (i < MAX_ENEMIES)%nat
                  /\ enemies (checkGameState g) !! i = Some (Some e))
  /\ checkGameState (checkGameState g) = checkGameState g.
Proof.
  intros Hlen.
  pose proof (checkGameState_enemies g Hlen) as Hen.
  assert (Hgo : gameOver (checkGameState g) = false) by apply checkGameState_frame.
  split; [exact Hgo|]. split; [apply no_enemy_left_false_inv, Hen|].
  remember (checkGameState g) as g' eqn:Eg. clear Eg.
  unfold checkGameState, game_over_branch. rewrite Hgo.
  unfold wave_clear_branch. rewrite Hen. reflexivity.
Qed.

(** X12: in the menu a frame changes nothing but the mode, and only when the
    start key is down; once the game is in play it stays in play. *)
Theorem playing_is_terminal (rng : nat -> Z) (keys : Keys) (delta : float) (g : Game) :
  (playGame g = false ->
     update rng keys delta g
     = if SCANCODE_SPACE keys then set_playGame g true else g)
  /\ (playGame g = true -> playGame (update rng keys delta g) = true).
Proof.
  split.
  - intros Hpg. unfold update. rewrite Hpg. reflexivity.
  - intros Hpg. rewrite (update_playing_check rng keys delta g Hpg).
    destruct (checkGameState_frame (before_check rng keys delta g)) as (-> & _).
    destruct (before_check_frame rng keys delta g) as (_ & -> & _). exact Hpg.
Qed.

Lemma before_check_enemies_length (rng : nat -> Z) (keys : Keys) (delta : float)
  (g : Game) :
  length (enemies (before_check rng keys delta g)) = length (enemies g).
Proof.
  unfold before_check.
  destruct (checkBulletCollisions_shape (before_collisions rng keys delta g))
    as (-> & _).
  unfold before_collisions.
  match goal with |- length (enemies (enemyShoot _ _ ?t)) = _ =>
    destruct (enemyShoot_shape rng delta t) as (-> & _) end.
  match goal with |- length (enemies (updateParticles _ ?t)) = _ =>
    destruct (updateParticles_shape delta t) as (-> & _) end.
  match goal with |- length (enemies (updateEnemies _ ?t)) = _ =>
    destruct (updateEnemies_shape delta t) as (-> & _) end.
  match goal with |- length (enemies (updateBullets _ ?t)) = _ =>
    destruct (updateBullets_shape delta t) as (-> & _) end.
  apply (updatePlayer_shape keys delta g).
Qed.

(** X13: in a frame of play the wave number is written only by the final
    state check: it goes up by one exactly when the collisions of the frame
    left no enemy and the game is not over, and is otherwise unchanged. *)
Theorem wave_advances_on_cleared_board (rng : nat -> Z) (keys : Keys)
  (delta : float) (g : Game) :
  playGame g = true -> length (enemies g) = MAX_ENEMIES ->
  currentWave (update rng keys delta g)
  = if gameOver (before_check rng keys delta g) then currentWave g
    else if no_enemy_left (enemies (before_check rng keys delta g))
         then Int.add (currentWave g) 1
         else currentWave g.
Proof.
  intros Hpg Hlen. rewrite (update_playing_check rng keys delta g Hpg).
  rewrite checkGameState_wave
    by (rewrite before_check_enemies_length; exact Hlen).
  destruct (before_check_frame rng keys delta g) as (-> & _). reflexivity.
Qed.

(** X14: the high score changes only on a frame that ends in game over,
    where it becomes the larger of itself and the score of that frame; so it
    never decreases. *)
Theorem high_score_changes_on_game_over (rng : nat -> Z) (keys : Keys)
  (delta : float) (g : Game) :
  playGame g = true ->
  Player.hiScore (player (update rng keys delta g))
  = (if gameOver (before_check rng keys delta g)
     then Z.max (Player.hiScore (player g))
            (Player.score (player (before_check rng keys delta g)))
     else Player.hiScore (player g))
  /\ Player.hiScore (player g) <= Player.hiScore (player (update rng keys delta g)).
Proof.
  intros Hpg. rewrite (update_playing_check rng keys delta g Hpg).
  destruct (checkGameState_frame (before_check rng keys delta g))
    as (_ & _ & _ & _ & _ & ->).
  destruct (before_check_frame rng keys delta g) as (_ & _ & ->).
  split; [reflexivity|].
  destruct (gameOver (before_check rng keys delta g)); lia.
Qed.

Lemma before_enemies_state (keys : Keys) (delta : float) (g : Game) :
  enemies (updateBullets delta (updatePlayer keys delta g)) = enemies g
  /\ ENEMY_SPEED_MULT (updateBullets delta (updatePlayer keys delta g))
     = ENEMY_SPEED_MULT g
  /\ enemyDir (updateBullets delta (updatePlayer keys delta g)) = enemyDir g.
Proof.
  destruct (updateBullets_spec delta (updatePlayer keys delta g))
    as (_ & -> & -> & -> & _).
  destruct (updatePlayer_frame keys delta g)
    as (_ & _ & _ & _ & -> & _ & -> & -> & _).
  repeat split.
Qed.

Lemma moved_enemy_ext (delta : float) (g g' : Game) (e : Enemy.t) :
  ENEMY_SPEED_MULT g' = ENEMY_SPEED_MULT g -> enemyDir g' = enemyDir g ->
  moved_enemy delta g' e = moved_enemy delta g e.
Proof. intros Hm Hd. unfold moved_enemy. rewrite Hm, Hd. reflexivity. Qed.

Lemma update_speed_dir (rng : nat -> Z) (keys : Keys) (delta : float) (g : Game) :
  playGame g = true ->
  ENEMY_SPEED_MULT (update rng keys delta g)
    = ENEMY_SPEED_MULT (updateEnemies delta (updateBullets delta (updatePlayer keys delta g)))
  /\ enemyDir (update rng keys delta g)
     = enemyDir (updateEnemies delta (updateBullets delta (updatePlayer keys delta g))).
Proof.
  intros Hpg. rewrite (update_playing_check rng keys delta g Hpg).
  destruct (checkGameState_frame (before_check rng keys delta g))
    as (_ & -> & -> & _).
  unfold before_check.
  destruct (checkBulletCollisions_globals (before_collisions rng keys delta g))
    as (_ & _ & -> & -> & _).
  unfold before_collisions.
  match goal with |- context [enemyShoot rng delta ?t] =>
    destruct (enemyShoot_effects rng delta t)
      as (st & -> & (_ & _ & _ & _ & -> & -> & _)) end.
  match goal with |- context [updateParticles delta ?t] =>
    destruct (updateParticles_frame delta t) as (_ & _ & _ & -> & -> & _) end.
  split; reflexivity.
Qed.

(** X15: over a whole frame of play the enemy speed multiplier and direction
    change only when the formation turns: if after the move some live enemy
    is at an edge the multiplier grows by [0.025f] and the direction is
    negated, otherwise both are as before.  In particular neither a
    game-over reset nor a new wave resets them. *)
Theorem speed_and_direction_change_on_turn (rng : nat -> Z) (keys : Keys)
  (delta : float) (g : Game) :
  playGame g = true ->
  ((exists i e, (i < MAX_ENEMIES)%nat /\ enemies g !! i = Some (Some e)
                /\ at_edge (moved_enemy delta g e) = true) ->
     ENEMY_SPEED_MULT (update rng keys delta g)
       = (ENEMY_SPEED_MULT g + F32.lit 1 40)%f32
     /\ enemyDir (update rng keys delta g) = Int.neg (enemyDir g))
  /\ ((forall i e, (i < MAX_ENEMIES)%nat -> enemies g !! i = Some (Some e) ->
         at_edge (moved_enemy delta g e) = false) ->
      ENEMY_SPEED_MULT (update rng keys delta g) = ENEMY_SPEED_MULT g
      /\ enemyDir (update rng keys delta g) = enemyDir g).
Proof.
  intros Hpg.
  destruct (update_speed_dir rng keys delta g Hpg) as (-> & ->).
  destruct (before_enemies_state keys delta g) as (Hen & Hm & Hd).
  remember (updateBullets delta (updatePlayer keys delta g)) as g2 eqn:Eg2.
  clear Eg2. split.
  - intros (i & e & Hi & He & Hedge).
    rewrite (updateEnemies_turn_eq delta g2).
    + rewrite turn_ENEMY_SPEED_MULT, turn_enemyDir.
      destruct (move_phase_spec delta g2) as (-> & -> & _).
      rewrite Hm, Hd. split; reflexivity.
    + exists i, e. rewrite Hen, (moved_enemy_ext delta g g2 e Hm Hd).
      repeat split; assumption.
  - intros Hnone. rewrite (updateEnemies_idle delta g2).
    + destruct (move_phase_spec delta g2) as (-> & -> & _).
      rewrite Hm, Hd. split; reflexivity.
    + intros i e Hi He. rewrite (moved_enemy_ext delta g g2 e Hm Hd).
      apply (Hnone i e Hi). rewrite <- Hen. exact He.
Qed.

Lemma hits_are_justified (g : Game) :
  (forall i j, EnemyHit i j ∈ hits_of g ->
     exists b, bullets g !! i = Some (Some b) /\ Bullet.vy b <> 1)
  /\ (forall i, PlayerHit i ∈ hits_of g ->
        exists b, bullets g !! i = Some (Some b) /\ Bullet.vy b <> -1).
Proof.
  destruct (collide_inv_end g) as (_ & Hen & Hpl & _).
  unfold hits_of. split; assumption.
Qed.

(** X16: in every run from [init] all live bullets have direction +1 or -1,
    at the start of a frame and when the collisions of the frame are
    resolved; so every hit registered on the player is by a bullet with
    [vy = 1] and every hit on an enemy by a bullet with [vy = -1]. *)
Theorem bullets_are_vertical (rng : nat -> Z) (g : Game) :
  reachable rng g ->
  (forall i b, bullets g !! i = Some (Some b) ->
     Bullet.vy b = 1 \/ Bullet.vy b = -1)
  /\ forall keys delta,
       (forall i b, bullets (before_collisions rng keys delta g) !! i = Some (Some b) ->
          Bullet.vy b = 1 \/ Bullet.vy b = -1)
       /\ (forall i, PlayerHit i ∈ hits_of (before_collisions rng keys delta g) ->
             exists b, bullets (before_collisions rng keys delta g) !! i = Some (Some b)
                       /\ Bullet.vy b = 1)
       /\ (forall i j, EnemyHit i j ∈ hits_of (before_collisions rng keys delta g) ->
             exists b, bullets (before_collisions rng keys delta g) !! i = Some (Some b)
                       /\ Bullet.vy b = -1).
Proof.
  intros Hr. destruct (reachable_between_frames rng g Hr) as (_ & _ & _ & _ & Hv).
  split; [exact Hv|]. intros keys delta.
  pose proof (before_collisions_vertical rng keys delta g Hv) as Hv5.
  destruct (hits_are_justified (before_collisions rng keys delta g)) as (Hen & Hpl).
  split; [exact Hv5|]. split.
  - intros i Hin. destruct (Hpl i Hin) as (b & Hb & Hne). exists b.
    split; [exact Hb|]. destruct (Hv5 i b Hb) as [H|H]; [exact H|contradiction].
  - intros i j Hin. destruct (Hen i j Hin) as (b & Hb & Hne). exists b.
    split; [exact Hb|]. destruct (Hv5 i b Hb) as [H|H]; [contradiction|exact H].
Qed.

(** ** Counting the occupied slots *)

Lemma live_count_insert {A : Type} (sl : pool A) (i : nat) (v : A) :
  sl !! i = Some None -> live_count (<[i := Some v]> sl) = S (live_count sl).
Proof.
  unfold live_count. revert i. induction sl as [|s sl IH]; intros i Hi;
    [discriminate|].
  destruct i as [|i].
  - change ((s :: sl) !! 0%nat) with (Some s) in Hi. injection Hi as ->.
    change (<[0%nat := Some v]> (None :: sl)) with (Some v :: sl).
    rewrite (filter_cons_True _ (Some v)) by (eexists; reflexivity).
    rewrite (filter_cons_False _ None) by (intros [? ?]; discriminate).
    reflexivity.
  - change ((s :: sl) !! S i) with (sl !! i) in Hi.
    change (<[S i := Some v]> (s :: sl)) with (s :: <[i := Some v]> sl).
    destruct s as [x|].
    + rewrite !(filter_cons_True _ (Some x)) by (eexists; reflexivity).
      cbn [length]. rewrite (IH i Hi). reflexivity.
    + rewrite !(filter_cons_False _ None) by (intros [? ?]; discriminate).
      apply (IH i Hi).
Qed.

(** X17: a spawn call raises the number of live bullets (or particles) by
    exactly one when the array has a free slot among its first 20, and
    leaves it unchanged otherwise. *)
Theorem spawn_adds_one (px py dir : Z) (bl : pool Bullet.t)
  (p : Particle.t) (pl : pool Particle.t) :
  ((exists i, (i < MAX_PROJECTILES)%nat /\ bl !! i = Some None) ->
     live_count (createBullet px py dir bl) = S (live_count bl))
  /\ ((forall i, (i < MAX_PROJECTILES)%nat -> bl !! i <> Some None) ->
      live_count (createBullet px py dir bl) = live_count bl)
  /\ ((exists i, (i < MAX_PARTICLES)%nat /\ pl !! i = Some None) ->
      live_count (createParticle p pl) = S (live_count pl))
  /\ ((forall i, (i < MAX_PARTICLES)%nat -> pl !! i <> Some None) ->
      live_count (createParticle p pl) = live_count pl).
Proof.
  split.
  { intros (i & Hi & Hnull). rewrite createBullet_install.
    destruct (install_first_null_some 0 MAX_PROJECTILES i
                (new_bullet px py dir) bl ltac:(lia) Hnull)
      as (k & _ & Hk & _ & ->).
    apply live_count_insert, Hk. }
  split.
  { intros Hfull. rewrite createBullet_install, install_first_null_full;
      [reflexivity|]. intros k Hk. apply Hfull. lia. }
  split.
  { intros (i & Hi & Hnull). rewrite createParticle_install.
    destruct (install_first_null_some 0 MAX_PARTICLES i p pl ltac:(lia) Hnull)
      as (k & _ & Hk & _ & ->).
    apply live_count_insert, Hk. }
  intros Hfull. rewrite createParticle_install, install_first_null_full;
    [reflexivity|]. intros k Hk. apply Hfull. lia.
Qed.

(** ** Particles are cosmetic *)

Lemma for_each_rel {S1 S2 : Type} (R : S1 -> S2 -> Prop) (n : nat)
  (body1 : nat -> S1 -> S1) (body2 : nat -> S2 -> S2) (s1 : S1) (s2 : S2) :
  R s1 s2 ->
  (forall i t1 t2, (i < n)%nat -> R t1 t2 -> R (body1 i t1) (body2 i t2)) ->
  R (for_each n body1 s1) (for_each n body2 s2).
Proof.
  intros H0 Hstep. induction n as [|n IH]; [exact H0|].
  rewrite !for_each_S. apply Hstep; [lia|].
  apply IH. intros i t1 t2 Hi. apply Hstep. lia.
Qed.

Ltac particles_blind :=
  solve [unfold same_but_particles; cbv zeta; gsimpl; repeat split;
         try assumption; try congruence].

Lemma updatePlayer_blind (keys : Keys) (delta : float) (g g' : Game) :
  same_but_particles g g' ->
  same_but_particles (updatePlayer keys delta g) (updatePlayer keys delta g').
Proof.
  intros (Hp & He & Hb & Hm & Hd & Hw & Hgo & Hpg & Hr). unfold updatePlayer.
  destruct (SCANCODE_RIGHT keys), (SCANCODE_LEFT keys), (SCANCODE_SPACE keys);
    gsimpl; rewrite ?Hp, ?Hb;
    try match goal with |- context [if ?c then _ else _] => destruct c end;
    particles_blind.
Qed.

Lemma updateBullets_blind (delta : float) (g g' : Game) :
  same_but_particles g g' ->
  same_but_particles (updateBullets delta g) (updateBullets delta g').
Proof.
  intros H. unfold updateBullets. apply for_each_rel; [exact H|].
  intros i t t' _ (Hp & He & Hb & Hm & Hd & Hw & Hgo & Hpg & Hr).
  unfold updateBullets_body. rewrite Hb.
  destruct (bullets t !! i) as [[b|]|]; try particles_blind.
  cbv zeta. gsimpl.
  match goal with |- context [if ?c then _ else _] => destruct c end;
    particles_blind.
Qed.

Lemma move_body_blind (delta : float) (i : nat) (g g' : Game) :
  same_but_particles g g' ->
  same_but_particles (move_body delta i g) (move_body delta i g').
Proof.
  intros (Hp & He & Hb & Hm & Hd & Hw & Hgo & Hpg & Hr).
  unfold move_body. rewrite He, Hm, Hd.
  destruct (enemies g !! i) as [[e|]|]; try particles_blind.
  gsimpl. match goal with |- context [if ?c then _ else _] => destruct c end;
    particles_blind.
Qed.

Lemma turn_blind (g g' : Game) :
  same_but_particles g g' -> same_but_particles (turn g) (turn g').
Proof.
  intros (Hp & He & Hb & Hm & Hd & Hw & Hgo & Hpg & Hr).
  unfold turn. gsimpl. rewrite He, Hm, Hd. particles_blind.
Qed.

Lemma edge_scan_blind (idxs : list nat) (g g' : Game) :
  same_but_particles g g' ->
  same_but_particles (edge_scan idxs g) (edge_scan idxs g').
Proof.
  intros H. induction idxs as [|i rest IH]; [exact H|].
  simpl. destruct H as (Hp & He & Hrest). rewrite He.
  destruct (enemies g !! i) as [[e|]|]; try exact IH.
  destruct (at_edge e); [|exact IH].
  apply turn_blind. split; [exact Hp|]. split; [exact He|exact Hrest].
Qed.

Lemma updateEnemies_blind (delta : float) (g g' : Game) :
  same_but_particles g g' ->
  same_but_particles (updateEnemies delta g) (updateEnemies delta g').
Proof.
  intros H. unfold updateEnemies. apply edge_scan_blind.
  unfold move_phase. apply for_each_rel; [exact H|].
  intros i t t' _ Ht. apply move_body_blind, Ht.
Qed.

Lemma updateParticles_blind (delta : float) (g g' : Game) :
  same_but_particles g g' ->
  same_but_particles (updateParticles delta g) (updateParticles delta g').
Proof.
  intros (Hp & He & Hb & Hm & Hd & Hw & Hgo & Hpg & Hr).
  unfold updateParticles. particles_blind.
Qed.

Lemma shoot_body_blind (rng : nat -> Z) (delta : float) (j : nat)
  (st st' : ShootState) :
  sh_index st' = sh_index st -> sh_found st' = sh_found st ->
  same_but_particles (sh_game st) (sh_game st') ->
  sh_index (shoot_body rng delta j st') = sh_index (shoot_body rng delta j st)
  /\ sh_found (shoot_body rng delta j st') = sh_found (shoot_body rng delta j st)
  /\ same_but_particles (sh_game (shoot_body rng delta j st))
       (sh_game (shoot_body rng delta j st')).
Proof.
  destruct st as [idx found g], st' as [idx' found' g']. gsimpl.
  intros -> -> H. pose proof H as (Hp & He & Hb & Hm & Hd & Hw & Hgo & Hpg & Hr).
  unfold shoot_body. cbv zeta. gsimpl. rewrite He, Hr, Hb.
  destruct (slot_at (enemies g) idx) as [[e|]|];
    try (gsimpl; split; [reflexivity|]; split; [reflexivity|exact H]).
  destruct (found !! j) as [f|];
    [|gsimpl; split; [reflexivity|]; split; [reflexivity|exact H]].
  destruct (negb (f =? 1));
    [|gsimpl; split; [reflexivity|]; split; [reflexivity|exact H]].
  match goal with |- context [if ?c then _ else _] => destruct c end;
    gsimpl; (split; [reflexivity|]); (split; [reflexivity|]); particles_blind.
Qed.

Lemma enemyShoot_blind (rng : nat -> Z) (delta : float) (g g' : Game) :
  same_but_particles g g' ->
  same_but_particles (enemyShoot rng delta g) (enemyShoot rng delta g').
Proof.
  intros H. unfold enemyShoot.
  pose (R := fun st st' : ShootState =>
    sh_index st' = sh_index st /\ sh_found st' = sh_found st
    /\ same_but_particles (sh_game st) (sh_game st')).
  assert (HR : R (for_each 5 (fun _ st => for_each 11 (shoot_inner rng delta) st)
                    (mkShoot (Z.of_nat MAX_ENEMIES - 1) (replicate 11 0) g))
                 (for_each 5 (fun _ st => for_each 11 (shoot_inner rng delta) st)
                    (mkShoot (Z.of_nat MAX_ENEMIES - 1) (replicate 11 0) g')));
    [|exact (proj2 (proj2 HR))].
  apply for_each_rel; [repeat split; apply H|].
  intros i st st' _ Hst. apply for_each_rel; [exact Hst|].
  intros j t t' _ (Hi & Hf & Hg). unfold shoot_inner.
  destruct (shoot_body_blind rng delta j t t' Hi Hf Hg) as (Hi' & Hf' & Hg').
  unfold R. gsimpl. rewrite Hi', Hf'. repeat split; apply Hg'.
Qed.

Lemma enemy_test_blind (r : SDL_Rect) (i j : nat) (gh gh' : Game * list Hit) :
  snd gh' = snd gh -> same_but_particles (fst gh) (fst gh') ->
  snd (enemy_test r i j gh') = snd (enemy_test r i j gh)
  /\ same_but_particles (fst (enemy_test r i j gh)) (fst (enemy_test r i j gh')).
Proof.
  destruct gh as [g hits], gh' as [g' hits']. cbn [fst snd].
  intros -> (Hp & He & Hb & Hm & Hd & Hw & Hgo & Hpg & Hr).
  unfold enemy_test. rewrite He, Hb.
  destruct (enemies g !! j) as [[e|]|]; try (split; [reflexivity|particles_blind]).
  destruct (bullets g !! i) as [[b|]|]; try (split; [reflexivity|particles_blind]).
  match goal with |- context [if ?c then _ else _] => destruct c end;
    (split; [reflexivity|particles_blind]).
Qed.

Lemma player_test_blind (pr br : SDL_Rect) (i : nat) (gh gh' : Game * list Hit) :
  snd gh' = snd gh -> same_but_particles (fst gh) (fst gh') ->
  snd (player_test pr br i gh') = snd (player_test pr br i gh)
  /\ same_but_particles (fst (player_test pr br i gh))
       (fst (player_test pr br i gh')).
Proof.
  destruct gh as [g hits], gh' as [g' hits']. cbn [fst snd].
  intros -> (Hp & He & Hb & Hm & Hd & Hw & Hgo & Hpg & Hr).
  unfold player_test. rewrite Hb.
  destruct (bullets g !! i) as [[b|]|]; try (split; [reflexivity|particles_blind]).
  match goal with |- context [if ?c then _ else _] => destruct c end;
    [|split; [reflexivity|particles_blind]].
  gsimpl. rewrite Hp.
  match goal with |- context [if ?c then _ else _] => destruct c end;
    (split; [reflexivity|particles_blind]).
Qed.

Lemma checkBulletCollisions_blind (g g' : Game) :
  same_but_particles g g' ->
  hits_of g' = hits_of g
  /\ same_but_particles (checkBulletCollisions g) (checkBulletCollisions g').
Proof.
  intros H. unfold hits_of, checkBulletCollisions, collide.
  destruct H as (Hp & Hrest). rewrite Hp.
  pose (R := fun gh gh' : Game * list Hit =>
    snd gh' = snd gh /\ same_but_particles (fst gh) (fst gh')).
  apply (for_each_rel R); subst R; cbv beta.
  - split; [reflexivity|]. split; [exact Hp|exact Hrest].
  - intros i t t' _ (Hs & Hg). unfold bullet_step.
    destruct Hg as (Hp' & He' & Hb' & Hrest'). rewrite Hb'.
    destruct (bullets (fst t) !! i) as [[b|]|];
      try (split; [exact Hs|]; split; [exact Hp'|]; split; [exact He'|];
           split; [exact Hb'|exact Hrest']).
    pose (R := fun gh gh' : Game * list Hit =>
      snd gh' = snd gh /\ same_but_particles (fst gh) (fst gh')).
    assert (Hloop : R (for_each MAX_ENEMIES (enemy_test (bulletRect_of b) i) t)
                      (for_each MAX_ENEMIES (enemy_test (bulletRect_of b) i) t')).
    { apply for_each_rel.
      - split; [exact Hs|]. split; [exact Hp'|]. split; [exact He'|].
        split; [exact Hb'|exact Hrest'].
      - intros j u u' _ (Hsu & Hgu). apply enemy_test_blind; assumption. }
    destruct Hloop as (Hs2 & Hg2). apply player_test_blind; assumption.
Qed.

Lemma createEnemies_blind (g g' : Game) :
  same_but_particles g g' ->
  same_but_particles (createEnemies g) (createEnemies g').
Proof.
  intros (Hp & He & Hb & Hm & Hd & Hw & Hgo & Hpg & Hr).
  unfold createEnemies. rewrite He, Hw. particles_blind.
Qed.

Lemma freeEnemies_blind (g g' : Game) :
  same_but_particles g g' ->
  same_but_particles (freeEnemies g) (freeEnemies g').
Proof.
  intros (Hp & He & Hb & Hm & Hd & Hw & Hgo & Hpg & Hr).
  unfold freeEnemies. rewrite He. particles_blind.
Qed.

Lemma freeBullets_blind (g g' : Game) :
  same_but_particles g g' ->
  same_but_particles (freeBullets g) (freeBullets g').
Proof.
  intros (Hp & He & Hb & Hm & Hd & Hw & Hgo & Hpg & Hr).
  unfold freeBullets. rewrite Hb. particles_blind.
Qed.

Lemma set_player_blind (p : Player.t) (g g' : Game) :
  same_but_particles g g' ->
  same_but_particles (set_player g p) (set_player g' p).
Proof. intros (Hp & He & Hb & Hm & Hd & Hw & Hgo & Hpg & Hr). particles_blind. Qed.

Lemma set_gameOver_blind (v : bool) (g g' : Game) :
  same_but_particles g g' ->
  same_but_particles (set_gameOver g v) (set_gameOver g' v).
Proof. intros (Hp & He & Hb & Hm & Hd & Hw & Hgo & Hpg & Hr). particles_blind. Qed.

Lemma set_currentWave_blind (w : Z) (g g' : Game) :
  same_but_particles g g' ->
  same_but_particles (set_currentWave g w) (set_currentWave g' w).
Proof. intros (Hp & He & Hb & Hm & Hd & Hw & Hgo & Hpg & Hr). particles_blind. Qed.

Lemma game_over_branch_blind (g g' : Game) :
  same_but_particles g g' ->
  same_but_particles (game_over_branch g) (game_over_branch g').
Proof.
  intros H. pose proof H as (Hp & He & Hb & Hm & Hd & Hw & Hgo & Hpg & Hr).
  unfold game_over_branch. rewrite Hgo, Hp. destruct (gameOver g) eqn:Hover; [|exact H].
  cbv zeta. cbn [player set_player].
  apply set_gameOver_blind, createEnemies_blind, freeBullets_blind,
    freeEnemies_blind, set_player_blind, set_player_blind, H.
Qed.

Lemma wave_clear_branch_blind (g g' : Game) :
  same_but_particles g g' ->
  same_but_particles (wave_clear_branch g) (wave_clear_branch g').
Proof.
  intros H. pose proof H as (Hp & He & Hb & Hm & Hd & Hw & Hgo & Hpg & Hr).
  unfold wave_clear_branch. rewrite He, Hw.
  destruct (no_enemy_left (enemies g)); [|exact H].
  cbv zeta.
  assert (H1 : same_but_particles
    (createEnemies (freeEnemies (set_currentWave g (Int.add (currentWave g) 1))))
    (createEnemies (freeEnemies (set_currentWave g' (Int.add (currentWave g) 1))))).
  { apply createEnemies_blind, freeEnemies_blind, set_currentWave_blind, H. }
  rewrite (proj1 H1). apply set_player_blind, H1.
Qed.

Lemma checkGameState_blind (g g' : Game) :
  same_but_particles g g' ->
  same_but_particles (checkGameState g) (checkGameState g').
Proof.
  intros H. unfold checkGameState.
  apply wave_clear_branch_blind, game_over_branch_blind, H.
Qed.

(** X18: the particle array has no effect on the game: two states that
    differ only in their particles are taken by a frame, with the same keys,
    time step and random numbers, to states that again differ only in their
    particles. *)
Theorem particles_are_cosmetic (rng : nat -> Z) (keys : Keys) (delta : float)
  (g g' : Game) :
  same_but_particles g g' ->
  same_but_particles (update rng keys delta g) (update rng keys delta g').
Proof.
  intros H. unfold update. destruct H as (Hp & He & Hb & Hm & Hd & Hw & Hgo & Hpg & Hr).
  rewrite Hpg. destruct (playGame g) eqn:Hplay.
  - cbv zeta. apply checkGameState_blind.
    refine (proj2 (checkBulletCollisions_blind _ _ _)).
    apply enemyShoot_blind, updateParticles_blind, updateEnemies_blind,
      updateBullets_blind, updatePlayer_blind.
    repeat split; try assumption; congruence.
  - unfold checkGameStart. destruct (SCANCODE_SPACE keys); particles_blind.
Qed.

(** ** Releasing the arrays *)

Lemma live_count_replicate_None {A : Type} (n : nat) :
  live_count (replicate n (@None A)) = 0%nat.
Proof.
  unfold live_count. induction n as [|n IH]; [reflexivity|].
  simpl. rewrite filter_cons_False; [exact IH|].
  intros [v Hv]. discriminate.
Qed.

Lemma createEnemies_eta (g : Game) :
  createEnemies g = set_enemies g (enemies (createEnemies g)).
Proof. unfold createEnemies. cbn [enemies set_enemies]. reflexivity. Qed.

Lemma set_enemies_twice (g : Game) (en en' : pool Enemy.t) :
  set_enemies (set_enemies g en) en' = set_enemies g en'.
Proof. reflexivity. Qed.

(** X19: on arrays of the declared sizes [freeEnemies], [freeBullets] and
    [freeParticles] leave every slot of their array empty and touch nothing
    else, and [createEnemies] writes every slot, so that the grid it builds
    does not depend on the enemies that were there before. *)
Theorem free_releases_every_slot (g : Game) :
  wf g ->
  freeEnemies g = set_enemies g (replicate MAX_ENEMIES None)
  /\ freeBullets g = set_bullets g (replicate MAX_PROJECTILES None)
  /\ freeParticles g = set_particles g (replicate MAX_PARTICLES None)
  /\ live_count (enemies (freeEnemies g)) = 0%nat
  /\ live_count (bullets (freeBullets g)) = 0%nat
  /\ live_count (particles (freeParticles g)) = 0%nat
  /\ createEnemies (freeEnemies g) = createEnemies g.
Proof.
  intros (He & Hb & Hp).
  assert (E1 : freeEnemies g = set_enemies g (replicate MAX_ENEMIES None)).
  { unfold freeEnemies. rewrite free_all_replicate by exact He. reflexivity. }
  assert (E2 : freeBullets g = set_bullets g (replicate MAX_PROJECTILES None)).
  { unfold freeBullets. rewrite free_all_replicate by exact Hb. reflexivity. }
  assert (E3 : freeParticles g = set_particles g (replicate MAX_PARTICLES None)).
  { unfold freeParticles. rewrite free_all_replicate by exact Hp. reflexivity. }
  split; [exact E1|]. split; [exact E2|]. split; [exact E3|].
  rewrite E1, E2, E3. gsimpl.
  split; [apply live_count_replicate_None|].
  split; [apply live_count_replicate_None|].
  split; [apply live_count_replicate_None|].
  assert (Hen : enemies (createEnemies (set_enemies g (replicate MAX_ENEMIES None)))
                = enemies (createEnemies g)).
  { apply list_eq. intros i. destruct (decide (i < MAX_ENEMIES)%nat) as [Hi|Hi].
    - rewrite !createEnemies_lookup; gsimpl; try exact Hi;
        rewrite ?length_replicate, ?He; try exact Hi. reflexivity.
    - rewrite !lookup_ge_None_2; [reflexivity| |];
        rewrite createEnemies_length; gsimpl;
        rewrite ?length_replicate, ?He; lia. }
  rewrite (createEnemies_eta (set_enemies g _)), (createEnemies_eta g), Hen.
  apply set_enemies_twice.
Qed.

(** ** The properties on concrete states *)

Lemma updatePlayer_fires_witness :
  Player.shootTimer
    (player (updatePlayer (mkKeys false false true) (F32.lit 1 60)
               (set_playGame init true)))
  = (F32.of_Z 1 - F32.lit 1 60)%f32.
Proof.
  apply (proj1 (proj2 (updatePlayer_fires (mkKeys false false true) (F32.lit 1 60)
                         (set_playGame init true) eq_refl eq_refl))).
Defined.

Lemma updateBullets_flight_witness :
  bullets (updateBullets (F32.lit 1 60) game_over_scenario) !! 0%nat
  = Some (if off_screen (flown (F32.lit 1 60)
                           (Bullet.mk (F32.of_Z 10) (F32.of_Z 20) (-1)))
          then None
          else Some (Bullet.mk (F32.of_Z 10)
                       (Bullet.py (flown (F32.lit 1 60)
                                     (Bullet.mk (F32.of_Z 10) (F32.of_Z 20) (-1))))
                       (-1))).
Proof.
  apply (proj1 (updateBullets_flight (F32.lit 1 60) game_over_scenario) 0%nat
           (Bullet.mk (F32.of_Z 10) (F32.of_Z 20) (-1))).
  - unfold MAX_PROJECTILES. lia.
  - reflexivity.
Defined.

Lemma updateParticles_ages_witness :
  particles (updateParticles (F32.lit 1 60) one_particle) !! 0%nat
  = Some (Some (Particle.mk (F32.of_Z 50) (F32.of_Z 0)
                  (F32.lit 1 2 - F32.lit 1 60)%f32 BULLET_EXPLOSION)).
Proof.
  rewrite (proj1 (updateParticles_ages (F32.lit 1 60) one_particle) 0%nat
             (Particle.mk (F32.of_Z 50) (F32.of_Z 0) (F32.lit 1 2) BULLET_EXPLOSION)).
  - reflexivity.
  - unfold MAX_PARTICLES. lia.
  - reflexivity.
Defined.

Lemma updateEnemies_keeps_enemies_witness :
  exists e', enemies (updateEnemies (F32.lit 1 60) edge_scenario) !! 0%nat
             = Some (Some e')
    /\ Enemy.killReward e' = 10.
Proof.
  destruct (proj1 (updateEnemies_keeps_enemies (F32.lit 1 60) edge_scenario) 0%nat
              (Enemy.mk (F32.of_Z 29) (F32.of_Z 100) 10 (F32.lit 95 100)))
    as (e' & He' & Hr & _).
  - unfold MAX_ENEMIES. lia.
  - reflexivity.
  - exists e'. split; [exact He'|exact Hr].
Defined.

Lemma checkBulletCollisions_resolves_witness :
  bullets game_over_scenario !! 3%nat
  = Some (Some (Bullet.mk (F32.of_Z 50) (F32.of_Z 60) 1)).
Proof.
  apply (proj1 (proj2 (checkBulletCollisions_resolves game_over_scenario))).
  vm_compute. reflexivity.
Defined.

Lemma collision_hits_are_exclusive_witness :
  exists b, bullets last_life_scenario !! 0%nat = Some (Some b)
    /\ SDL_HasIntersection (bulletRect_of b)
         (playerRect_of (player last_life_scenario)) = true
    /\ Bullet.vy b <> -1.
Proof.
  apply (proj1 (proj2 (proj2 (proj2 (proj2
           (collision_hits_are_exclusive last_life_scenario)))))).
  vm_compute. left.
Defined.

Lemma collision_accounting_witness :
  Player.livesLeft (player (checkBulletCollisions last_life_scenario))
  = Player.livesLeft (player last_life_scenario)
    - Z.of_nat (player_hits (hits_of last_life_scenario)).
Proof.
  assert (Hl : Int.INT_MIN + 20 <= Player.livesLeft (player last_life_scenario)
               <= Int.INT_MAX).
  { unfold Int.INT_MIN, Int.INT_MAX. simpl. lia. }
  exact (proj1 (proj2 (proj2 (collision_accounting last_life_scenario Hl)))).
Defined.

Lemma frame_starts_in_play_witness :
  gameOver init = false /\ 1 <= Player.livesLeft (player init) <= 3.
Proof.
  destruct (frame_starts_in_play (fun _ => 0) init (reach_init _))
    as (Hgo & Hl & _).
  split; [exact Hgo|exact Hl].
Defined.

Lemma checkGameState_settles_witness :
  gameOver (checkGameState game_over_scenario) = false
  /\ checkGameState (checkGameState game_over_scenario)
     = checkGameState game_over_scenario.
Proof.
  destruct (checkGameState_settles game_over_scenario) as (Hgo & _ & Hidem).
  - vm_compute. reflexivity.
  - split; [exact Hgo|exact Hidem].
Defined.

Lemma playing_is_terminal_witness :
  update (fun _ => 0) (mkKeys false false true) (F32.lit 1 60) init
  = set_playGame init true.
Proof.
  apply (proj1 (playing_is_terminal (fun _ => 0) (mkKeys false false true)
                  (F32.lit 1 60) init)).
  reflexivity.
Defined.

Lemma wave_advances_on_cleared_board_witness :
  currentWave (update (fun _ => 0) (mkKeys false false false) (F32.lit 1 60)
                 cleared_board)
  = if gameOver (before_check (fun _ => 0) (mkKeys false false false)
                   (F32.lit 1 60) cleared_board)
    then currentWave cleared_board
    else if no_enemy_left
              (enemies (before_check (fun _ => 0) (mkKeys false false false)
                          (F32.lit 1 60) cleared_board))
         then Int.add (currentWave cleared_board) 1
         else currentWave cleared_board.
Proof.
  apply wave_advances_on_cleared_board.
  - reflexivity.
  - vm_compute. reflexivity.
Defined.

Lemma high_score_changes_on_game_over_witness :
  Player.hiScore (player game_over_scenario)
  <= Player.hiScore
       (player (update (fun _ => 0) (mkKeys false false false) (F32.lit 1 60)
                  game_over_scenario)).
Proof.
  apply (proj2 (high_score_changes_on_game_over (fun _ => 0)
                  (mkKeys false false false) (F32.lit 1 60) game_over_scenario
                  eq_refl)).
Defined.

Lemma speed_and_direction_change_on_turn_witness :
  ENEMY_SPEED_MULT (update (fun _ => 0) (mkKeys false false false) (F32.lit 1 60)
                      edge_scenario)
  = (ENEMY_SPEED_MULT edge_scenario + F32.lit 1 40)%f32
  /\ enemyDir (update (fun _ => 0) (mkKeys false false false) (F32.lit 1 60)
                 edge_scenario)
     = Int.neg (enemyDir edge_scenario).
Proof.
  apply (proj1 (speed_and_direction_change_on_turn (fun _ => 0)
                  (mkKeys false false false) (F32.lit 1 60) edge_scenario eq_refl)).
  exists 0%nat, (Enemy.mk (F32.of_Z 29) (F32.of_Z 100) 10 (F32.lit 95 100)).
  split; [unfold MAX_ENEMIES; lia|]. split; reflexivity.
Defined.

Lemma bullets_are_vertical_witness :
  exists b, bullets first_shot !! 0%nat = Some (Some b)
    /\ (Bullet.vy b = 1 \/ Bullet.vy b = -1).
Proof.
  assert (Hreach : reachable (fun _ => 0) first_shot).
  { unfold first_shot. apply reach_frame, reach_frame, reach_init. }
  eexists. split; [vm_compute; reflexivity|].
  apply (proj1 (bullets_are_vertical (fun _ => 0) first_shot Hreach) 0%nat).
  vm_compute. reflexivity.
Defined.

Lemma spawn_adds_one_witness :
  live_count (createBullet 320 446 (-1) (bullets init))
  = S (live_count (bullets init))
  /\ live_count (createBullet 320 446 (-1) busy_bullets) = live_count busy_bullets.
Proof.
  destruct (spawn_adds_one 320 446 (-1) (bullets init)
              (Particle.mk (F32.of_Z 0) (F32.of_Z 0) (F32.lit 1 2) BULLET_EXPLOSION)
              (particles init)) as (Hfree & _).
  destruct (spawn_adds_one 320 446 (-1) busy_bullets
              (Particle.mk (F32.of_Z 0) (F32.of_Z 0) (F32.lit 1 2) BULLET_EXPLOSION)
              (particles init)) as (_ & Hfull & _).
  split.
  - apply Hfree. exists 0%nat. split; [unfold MAX_PROJECTILES; lia|reflexivity].
  - apply Hfull. intros k Hk. unfold busy_bullets.
    rewrite lookup_replicate_2 by exact Hk. discriminate.
Defined.

Lemma particles_are_cosmetic_witness :
  same_but_particles
    (update (fun _ => 0) (mkKeys false false true) (F32.lit 1 60) init)
    (update (fun _ => 0) (mkKeys false false true) (F32.lit 1 60) one_particle).
Proof.
  apply particles_are_cosmetic. unfold same_but_particles. repeat split.
Defined.

Lemma free_releases_every_slot_witness :
  live_count (bullets (freeBullets game_over_scenario)) = 0%nat
  /\ createEnemies (freeEnemies edge_scenario) = createEnemies edge_scenario.
Proof.
  split.
  - apply (free_releases_every_slot game_over_scenario).
    unfold wf. vm_compute. repeat split.
  - apply (free_releases_every_slot edge_scenario).
    unfold wf. vm_compute. repeat split.
Defined.
